(** * roslibjs: the connection queue, service calls, the simple action
    server and the TF client

    A shallow embedding of the parts of roslibjs that multiplex one
    connection into service calls, actions and TF subscriptions:

    - [SimpleActionServer]  actionlib/SimpleActionServer.js
    - [Ros]                 core/Ros.js ([callOnConnection]) and
                            core/Service.js ([callService], the second
                            file of src/unnamed/part_001, whose line
                            numbers are used)
    - [TFClient]            tf/TFClient.js (the second file of
                            src/math/Vector3.js, whose line numbers are
                            used)
    - [ServiceServer]       core/Service.js ([advertise], [unadvertise]
                            and the handling of service requests)
    - [TypeDefs]            core/Ros.js ([decodeTypeDefs])
    - [ActionClient]        the action client and its goals, in
                            actionlib/index.js

    Objects are records; a method is a function from the object, and the
    part of the world it acts on, to the object afterwards.  What a method
    does to the outside (events emitted to listeners, messages published,
    calls on the socket, user callbacks invoked) is appended to a log
    field of the record, in program order.  A method that can raise
    returns the error next to the object as it is left.

    User supplied callbacks are opaque: they are logged when invoked.
    Event listeners run inside [emit], before it returns.  Where a
    listener of the application can call back into the object that emits
    to it, the listener is part of the model: [application_listener] on
    the connection, the argument [heard] of
    [cancelListener_callback_heard] on the action server; the
    definitions without them are those of listeners that do not call
    back.  Numbers are integers within the range where JavaScript numbers
    are exact; the call counter of the connection is such a number while
    it is below 2^53. *)

From stdpp Require Import base option list strings gmap pretty.
From Stdlib Require Import Ascii ZArith Lia.

(** ** Values shared by the modules *)

(** The two JavaScript errors that the modelled methods can raise. *)
Inductive JsError :=
| TypeError (what : string)
| ReferenceError (identifier : string).

(** A ROS time stamp [{secs, nsecs}]. *)
Record Time := { secs : Z; nsecs : Z }.

(** [actionlib_msgs/GoalID]: [{stamp, id}].  Cancel messages have this
    type too. *)
Record GoalID := { stamp : Time; id : string }.

(** The delay that [setTimeout(callback, delay)] keeps for a delay of
    whole milliseconds (Node.js, timers): a delay "larger than 2147483647
    or less than 1" is set to 1. *)
Definition timer_delay (delay : N) : N :=
  if (delay <? 1)%N || (2147483647 <? delay)%N then 1%N else delay.

Arguments timer_delay : simpl never.

(** ** The simple action server *)

Module SimpleActionServer.

(** helper function for determining ordering of timestamps; returns
    [t1 < t2] (SimpleActionServer.js, lines 94-104). *)
Definition isEarlier (t1 t2 : Time) : bool :=
  if (secs t1 >? secs t2)%Z then false
  else if (secs t1 <? secs t2)%Z then true
  else if (nsecs t1 <? nsecs t2)%Z then true
  else false.

(** The time stamp as one number of nanoseconds. *)
Definition nanoseconds (t : Time) : Z := (secs t * 1000000000 + nsecs t)%Z.

(** Non-negative seconds, nanoseconds below one second. *)
Definition normalized (t : Time) : Prop :=
  (0 ≤ secs t)%Z ∧ (0 ≤ nsecs t < 1000000000)%Z.

(** The test that guards the cancel-all branch (line 113):
    [cancelMessage.stamp.secs === 0 && cancelMessage.stamp.secs === 0 &&
     cancelMessage.id === ''].  Both comparisons read [secs]. *)
Definition cancels_all (cancelMessage : GoalID) : bool :=
  (secs (stamp cancelMessage) =? 0)%Z
  && (secs (stamp cancelMessage) =? 0)%Z
  && String.eqb (id cancelMessage) "".

(** The pattern that the comment on line 112 names, "both empty": an empty
    id and a zero time stamp. *)
Definition both_empty (cancelMessage : GoalID) : Prop :=
  id cancelMessage = "" ∧ secs (stamp cancelMessage) = 0%Z
  ∧ nsecs (stamp cancelMessage) = 0%Z.

Section server.
(** The goal, feedback and result payloads of the action. *)
Context {Payload : Type}.

(** A message on the goal topic: [{goal_id, goal}]. *)
Record GoalMessage := { goal_id : GoalID; goal : Payload }.

(** [actionlib_msgs/GoalStatus]: [{goal_id, status}]. *)
Record GoalStatus := { status_goal_id : GoalID; status : Z }.

(** What the server publishes on its result and feedback topics. *)
Inductive Published :=
| Result (status : GoalStatus) (result : option Payload)
| Feedback (status : GoalStatus) (feedback : Payload).

(** The events the server emits to its listeners. *)
Inductive Event :=
| goal_event (goal : Payload)
| cancel_event.

Record Server := {
  status_list : list GoalStatus;     (* this.statusMessage.status_list *)
  currentGoal : option GoalMessage;  (* currently tracked goal *)
  nextGoal : option GoalMessage;     (* the one that'll be preempting *)
  emitted : list Event;              (* this.emit(...), oldest first *)
  published : list Published         (* publish(...), oldest first *)
}.

(** The fields as the constructor leaves them (lines 67-77). *)
Definition new_SimpleActionServer : Server :=
  {| status_list := []; currentGoal := None; nextGoal := None;
     emitted := []; published := [] |}.

Definition set_status_list (l : list GoalStatus) (s : Server) : Server :=
  {| status_list := l; currentGoal := currentGoal s;
     nextGoal := nextGoal s; emitted := emitted s;
     published := published s |}.

Definition set_currentGoal (g : option GoalMessage) (s : Server) : Server :=
  {| status_list := status_list s; currentGoal := g;
     nextGoal := nextGoal s; emitted := emitted s;
     published := published s |}.

Definition set_nextGoal (g : option GoalMessage) (s : Server) : Server :=
  {| status_list := status_list s; currentGoal := currentGoal s;
     nextGoal := g; emitted := emitted s; published := published s |}.

Definition emit (e : Event) (s : Server) : Server :=
  {| status_list := status_list s; currentGoal := currentGoal s;
     nextGoal := nextGoal s; emitted := emitted s ++ [e];
     published := published s |}.

Definition publish (m : Published) (s : Server) : Server :=
  {| status_list := status_list s; currentGoal := currentGoal s;
     nextGoal := nextGoal s; emitted := emitted s;
     published := published s ++ [m] |}.

(** The callback subscribed to the goal topic (lines 79-90). *)
Definition goalListener_callback (goalMessage : GoalMessage) (s : Server)
  : Server :=
  match currentGoal s with
  | Some _ =>
      let s := set_nextGoal (Some goalMessage) s in
      emit cancel_event s
  | None =>
      let s := set_status_list
                 [{| status_goal_id := goal_id goalMessage; status := 1 |}] s in
      let s := set_currentGoal (Some goalMessage) s in
      emit (goal_event (goal goalMessage)) s
  end.

(** Lines 114-117: the cancel-all branch. *)
Definition cancel_all_goals (s : Server) : Server :=
  let s := set_nextGoal None s in
  match currentGoal s with
  | Some _ => emit cancel_event s
  | None => s
  end.

(** [g && cancelMessage.id === g.goal_id.id] for a goal slot [g]. *)
Definition id_matches (cancelMessage : GoalID) (g : option GoalMessage)
  : bool :=
  match g with
  | Some g => String.eqb (id cancelMessage) (id (goal_id g))
  | None => false
  end.

(** [g && isEarlier(g.goal_id.stamp, cancelMessage.stamp)]. *)
Definition created_before (cancelMessage : GoalID) (g : option GoalMessage)
  : bool :=
  match g with
  | Some g => isEarlier (stamp (goal_id g)) (stamp cancelMessage)
  | None => false
  end.

(** Lines 119-133: "treat id and stamp independently". *)
Definition cancel_by_id_and_stamp (cancelMessage : GoalID) (s : Server)
  : Server :=
  let s :=
    if id_matches cancelMessage (currentGoal s) then emit cancel_event s
    else if id_matches cancelMessage (nextGoal s) then set_nextGoal None s
    else s in
  let s :=
    if created_before cancelMessage (nextGoal s) then set_nextGoal None s
    else s in
  if created_before cancelMessage (currentGoal s) then emit cancel_event s
  else s.

(** The callback subscribed to the cancel topic (lines 110-135). *)
Definition cancelListener_callback (cancelMessage : GoalID) (s : Server)
  : Server :=
  if cancels_all cancelMessage
  then cancel_all_goals s
  else cancel_by_id_and_stamp cancelMessage s.

(** The tail shared by the three terminal operations (lines 161-167,
    181-187, 214-220): the next goal, if any, becomes the current one. *)
Definition promote_nextGoal (s : Server) : Server :=
  match nextGoal s with
  | Some next =>
      let s := set_currentGoal (Some next) s in
      let s := set_nextGoal None s in
      emit (goal_event (goal next)) s
  | None => set_currentGoal None s
  end.

(** Reading [this.currentGoal.goal_id] while [currentGoal] is [null]. *)
Definition no_current_goal : JsError :=
  TypeError "Cannot read properties of null (reading 'goal_id')".

(** Set action state to succeeded and return to client (lines 151-168). *)
Definition setSucceeded (result2 : Payload) (s : Server)
  : Server * option JsError :=
  match currentGoal s with
  | None => (s, Some no_current_goal)
  | Some cur =>
      let resultMessage :=
        Result {| status_goal_id := goal_id cur; status := 3 |}
               (Some result2) in
      let s := publish resultMessage s in
      let s := set_status_list [] s in
      (promote_nextGoal s, None)
  end.

(** Set action state to aborted and return to client (lines 173-188). *)
Definition setAborted (result2 : Payload) (s : Server)
  : Server * option JsError :=
  match currentGoal s with
  | None => (s, Some no_current_goal)
  | Some cur =>
      let resultMessage :=
        Result {| status_goal_id := goal_id cur; status := 4 |}
               (Some result2) in
      let s := publish resultMessage s in
      let s := set_status_list [] s in
      (promote_nextGoal s, None)
  end.

(** Handle case where client requests preemption (lines 206-221); the
    status list is cleared before [currentGoal] is read. *)
Definition setPreempted (s : Server) : Server * option JsError :=
  let s := set_status_list [] s in
  match currentGoal s with
  | None => (s, Some no_current_goal)
  | Some cur =>
      let resultMessage :=
        Result {| status_goal_id := goal_id cur; status := 2 |} None in
      let s := publish resultMessage s in
      (promote_nextGoal s, None)
  end.

(** Function to send feedback (lines 194-201). *)
Definition sendFeedback (feedback2 : Payload) (s : Server)
  : Server * option JsError :=
  match currentGoal s with
  | None => (s, Some no_current_goal)
  | Some cur =>
      let feedbackMessage :=
        Feedback {| status_goal_id := goal_id cur; status := 1 |}
                 feedback2 in
      (publish feedbackMessage s, None)
  end.

(** *** Listeners of ['cancel'] that call back

    [this.emit] runs the listeners of the event before it returns.  In
    the goal handler and in the methods it is the last statement: what a
    listener does by calling the server follows everything the handler
    did, as the next input does.  In the cancel handler it is not: after
    the listeners of ['cancel'] have run on line 120, lines 125-133 read
    [nextGoal] and [currentGoal] again.  [heard] is what the listeners of
    ['cancel'] do to the server, through its methods, each time the event
    is emitted; the definitions above are the case of listeners that do
    not call back. *)
Definition cancel_all_goals_heard (heard : Server → Server) (s : Server)
  : Server :=
  let s := set_nextGoal None s in
  match currentGoal s with
  | Some _ => heard (emit cancel_event s)
  | None => s
  end.

Definition cancel_by_id_and_stamp_heard (heard : Server → Server)
    (cancelMessage : GoalID) (s : Server) : Server :=
  let s :=
    if id_matches cancelMessage (currentGoal s)
    then heard (emit cancel_event s)
    else if id_matches cancelMessage (nextGoal s) then set_nextGoal None s
    else s in
  let s :=
    if created_before cancelMessage (nextGoal s) then set_nextGoal None s
    else s in
  if created_before cancelMessage (currentGoal s)
  then heard (emit cancel_event s)
  else s.

Definition cancelListener_callback_heard (heard : Server → Server)
    (cancelMessage : GoalID) (s : Server) : Server :=
  if cancels_all cancelMessage
  then cancel_all_goals_heard heard s
  else cancel_by_id_and_stamp_heard heard cancelMessage s.

(** The listener [() => server.setPreempted()].  The cancel handler
    emits the event only while there is a current goal, so that
    [setPreempted] does not raise when this listener runs. *)
Definition preempt_on_cancel (s : Server) : Server := (setPreempted s).1.

(** The server after goal [A] was accepted and goal [B] arrived while
    [A] was active. *)
Definition preempting (A B : GoalMessage) : Server :=
  goalListener_callback B (goalListener_callback A new_SimpleActionServer).

(** What reaches the server: messages on the goal and cancel topics, and
    calls of its methods. *)
Inductive Input :=
| goal_message (goalMessage : GoalMessage)
| cancel_message (cancelMessage : GoalID)
| call_setSucceeded (result2 : Payload)
| call_setAborted (result2 : Payload)
| call_setPreempted
| call_sendFeedback (feedback2 : Payload).

(** The server after one input; a method that raises leaves the server
    as it was when the error was raised. *)
Definition handle (s : Server) (i : Input) : Server :=
  match i with
  | goal_message goalMessage => goalListener_callback goalMessage s
  | cancel_message cancelMessage => cancelListener_callback cancelMessage s
  | call_setSucceeded result2 => (setSucceeded result2 s).1
  | call_setAborted result2 => (setAborted result2 s).1
  | call_setPreempted => (setPreempted s).1
  | call_sendFeedback feedback2 => (sendFeedback feedback2 s).1
  end.

Definition handle_all (inputs : list Input) (s : Server) : Server :=
  foldl handle s inputs.

(** The goal ids that the status list names. *)
Definition status_ids (s : Server) : list string :=
  (λ st, id (status_goal_id st)) <$> status_list s.

End server.

Arguments GoalMessage : clear implicits.
Arguments GoalStatus : clear implicits.
Arguments Published : clear implicits.
Arguments Event : clear implicits.
Arguments Server : clear implicits.
Arguments Input : clear implicits.

End SimpleActionServer.

(** ** The connection and its service calls *)

Module Ros.

(** [this.transportLibrary]: the name of a library, or an
    [RTCPeerConnection] instance. *)
Inductive TransportLibrary :=
| library (name : string)
| RTCPeerConnection.

(** The two calls that [callOnConnection] makes on [this.socket]. *)
Inductive SocketCall :=
| socket_emit (event : string) (msg : string)
| socket_send (msg : string).

(** [this.transportLibrary === 'socket.io'] *)
Definition uses_socket_io (t : TransportLibrary) : bool :=
  match t with
  | library name => String.eqb name "socket.io"
  | RTCPeerConnection => false
  end.

(** A callback argument of [callService]: [None] when it is not supplied,
    otherwise the function, named to tell one from another. *)
Definition Callback := option string.

(** A supplied callback is a function, and so is truthy. *)
Definition truthy (c : Callback) : bool :=
  match c with Some _ => true | None => false end.

Section ros.
(** The JSON values that operations and responses carry. *)
Context {Payload : Type}.

(** The objects handed to [callOnConnection]: the call operation that
    [callService] builds, or any other operation object. *)
Inductive Operation :=
| call_service (id service type : string) (args : Payload)
| operation (body : Payload).

(** [JSON.stringify] on operations. *)
Context (JSON_stringify : Operation → string).

(** What a listener receives.  The listeners below read the properties
    [values] and [result] of it; a property that is absent reads as
    [undefined], here [None]. *)
Record EventArg := { values : option Payload; result : option bool }.

(** The event object of ['connection']. *)
Definition connection_event : EventArg :=
  {| values := None; result := None |}.

(** An inbound [service_response] frame: the id it answers and the
    properties the listener reads. *)
Record ServiceResponseFrame := { response_id : string; frame : EventArg }.

(** The closures registered on the connection, defunctionalised with
    what they capture.  The first two are those of the library, added
    with [once].  The third is a listener of the application, added with
    [on]: when it runs it passes messages to [callOnConnection], and
    [messageJsons] are the [JSON.stringify] of these messages. *)
Inductive Listener :=
| (* Ros.js 138-140: () => { emitter(messageJson); } *)
  queued_send (socket_io : bool) (messageJson : string)
| (* Service.js 134-142: function(message) { ... } *)
  service_reply (callback failedCallback : Callback)
| (* () => { ros.callOnConnection(m1); ros.callOnConnection(m2); ... } *)
  application_listener (messageJsons : list string).

(** A listener added with [on] stays when it has run; one added with
    [once] is removed. *)
Definition added_with_on (l : Listener) : bool :=
  match l with
  | application_listener _ => true
  | _ => false
  end.

(** A user callback that ran, and with what. *)
Inductive Invocation :=
| (* failedCallback(message.values) *)
  failed (f : string) (error : option Payload)
| (* callback(new ServiceResponse(message.values)) *)
  succeeded (f : string) (ServiceResponse : option Payload).

Record Ros := {
  idCounter : N;                 (* a JavaScript number: [++] adds one
                                    while it is below 2^53 *)
  isConnected : bool;
  transportLibrary : TransportLibrary;
  (* the listeners of the event emitter, per event name, in
     registration order *)
  events : gmap string (list Listener);
  socket : list SocketCall;      (* calls on this.socket, oldest first *)
  invoked : list Invocation;     (* user callbacks run, oldest first *)
  passed : list string           (* the calls of callOnConnection: the JSON
                                    of the message of each, oldest first *)
}.

(** The fields as the constructor leaves them when no url is given
    (Ros.js 34-58). *)
Definition new_Ros (transportLibrary : TransportLibrary) : Ros :=
  {| idCounter := 0; isConnected := false;
     transportLibrary := transportLibrary;
     events := ∅; socket := []; invoked := []; passed := [] |}.

Definition set_idCounter (n : N) (r : Ros) : Ros :=
  {| idCounter := n; isConnected := isConnected r;
     transportLibrary := transportLibrary r; events := events r;
     socket := socket r; invoked := invoked r; passed := passed r |}.

Definition set_isConnected (b : bool) (r : Ros) : Ros :=
  {| idCounter := idCounter r; isConnected := b;
     transportLibrary := transportLibrary r; events := events r;
     socket := socket r; invoked := invoked r; passed := passed r |}.

Definition set_events (e : gmap string (list Listener)) (r : Ros) : Ros :=
  {| idCounter := idCounter r; isConnected := isConnected r;
     transportLibrary := transportLibrary r; events := e;
     socket := socket r; invoked := invoked r; passed := passed r |}.

Definition call_socket (c : SocketCall) (r : Ros) : Ros :=
  {| idCounter := idCounter r; isConnected := isConnected r;
     transportLibrary := transportLibrary r; events := events r;
     socket := socket r ++ [c]; invoked := invoked r; passed := passed r |}.

Definition invoke (i : Invocation) (r : Ros) : Ros :=
  {| idCounter := idCounter r; isConnected := isConnected r;
     transportLibrary := transportLibrary r; events := events r;
     socket := socket r; invoked := invoked r ++ [i]; passed := passed r |}.

Definition pass (messageJson : string) (r : Ros) : Ros :=
  {| idCounter := idCounter r; isConnected := isConnected r;
     transportLibrary := transportLibrary r; events := events r;
     socket := socket r; invoked := invoked r;
     passed := passed r ++ [messageJson] |}.

(** The [emitter] that [callOnConnection] picks (Ros.js 131-135). *)
Definition emitter (socket_io : bool) (msg : string) : SocketCall :=
  if socket_io then socket_emit "operation" msg else socket_send msg.

(** [EventEmitter.once(type, listener)] and [EventEmitter.on(type,
    listener)]: the listener goes behind the ones already registered for
    the event. *)
Definition once (type : string) (l : Listener) (r : Ros) : Ros :=
  set_events (<[type := default [] (events r !! type) ++ [l]]> (events r)) r.

Definition on (type : string) (l : Listener) (r : Ros) : Ros :=
  set_events (<[type := default [] (events r !! type) ++ [l]]> (events r)) r.

(** [callOnConnection] from line 130 on, for a message whose
    [JSON.stringify] is [messageJson]. *)
Definition callOnConnection_json (messageJson : string) (r : Ros) : Ros :=
  let r := pass messageJson r in
  let socket_io := uses_socket_io (transportLibrary r) in
  if negb (isConnected r)
  then once "connection" (queued_send socket_io messageJson) r
  else call_socket (emitter socket_io messageJson) r.

(** Running a listener. *)
Definition run_listener (l : Listener) (message : EventArg) (r : Ros) : Ros :=
  match l with
  | queued_send socket_io messageJson =>
      call_socket (emitter socket_io messageJson) r
  | service_reply callback failedCallback =>
      match result message with
      | Some false =>
          match failedCallback with
          | Some f => invoke (failed f (values message)) r
          | None => r
          end
      | _ =>
          match callback with
          | Some f => invoke (succeeded f (values message)) r
          | None => r
          end
      end
  | application_listener messageJsons =>
      foldl (λ r messageJson, callOnConnection_json messageJson r)
            r messageJsons
  end.

(** [EventEmitter.emit(type, arg)]: the listeners that are registered
    for the event when it is emitted run in registration order; a
    listener added while they run is not among them.  A listener added
    with [once] is removed when it runs; the running listeners read the
    registry only to add a listener behind the others, so removing those
    added with [once] before the first one runs gives the same result.
    An event that is left without listeners has no entry. *)
Definition emit (type : string) (arg : EventArg) (r : Ros) : Ros :=
  match events r !! type with
  | None => r
  | Some listeners =>
      let staying := filter (λ l, added_with_on l) listeners in
      let events' :=
        match staying with
        | [] => delete type (events r)
        | _ => <[type := staying]> (events r)
        end in
      foldl (λ r l, run_listener l arg r) (set_events events' r) listeners
  end.

(** Sends the message over the WebSocket, but queues the message up if
    not yet connected (Ros.js 128-144). *)
Definition callOnConnection (message : Operation) (r : Ros) : Ros :=
  callOnConnection_json (JSON_stringify message) r.

(** Modelled from the spec: the socket adapter (core/SocketAdapter.js)
    is not among the sources.  Section 4.1: "Connecting→Connected on
    transport open"; section 6 lists [connection] among the events
    exposed.  On transport open the connection is marked connected and
    the ['connection'] event is emitted. *)
Definition onopen (r : Ros) : Ros :=
  emit "connection" connection_event (set_isConnected true r).

(** Modelled from the spec: section 4.1, "any→Disconnected on transport
    close"; the ['close'] event is emitted. *)
Definition onclose (r : Ros) : Ros :=
  emit "close" connection_event (set_isConnected false r).

(** Modelled from the spec: section 6, "service-call result keyed by
    original id", and section 4.1, "all listeners registered under that
    key fire once, in registration order".  An inbound service response
    is emitted under its id. *)
Definition onmessage (m : ServiceResponseFrame) (r : Ros) : Ros :=
  emit (response_id m) (frame m) r.

(** A ROS service client: the fields that [callService] reads. *)
Record Service := {
  name : string;
  serviceType : string;
  isAdvertised : bool
}.

(** ['call_service:' + this.name + ':' + n] *)
Definition serviceCallId (this : Service) (n : N) : string :=
  "call_service:" +:+ name this +:+ ":" +:+ pretty n.

(** Calls the service.  Does nothing if this service is currently
    advertised (Service.js 126-153). *)
Definition callService (this : Service) (request : Payload)
    (callback failedCallback : Callback) (r : Ros) : Ros :=
  if isAdvertised this then r
  else
    let r := set_idCounter (idCounter r + 1) r in
    let serviceCallId := serviceCallId this (idCounter r) in
    let r :=
      if truthy callback || truthy failedCallback
      then once serviceCallId (service_reply callback failedCallback) r
      else r in
    let call :=
      call_service serviceCallId (name this) (serviceType this) request in
    callOnConnection call r.

(** What the application and the transport do to a connection:
    [listens messages] is
    [ros.on('connection', () => { ros.callOnConnection(m1); ... })]. *)
Inductive Action :=
| call (message : Operation)
| listens (messages : list Operation)
| transport_open
| transport_close.

Definition step (r : Ros) (a : Action) : Ros :=
  match a with
  | call message => callOnConnection message r
  | listens messages =>
      on "connection" (application_listener (JSON_stringify <$> messages)) r
  | transport_open => onopen r
  | transport_close => onclose r
  end.

Definition run (actions : list Action) (r : Ros) : Ros :=
  foldl step r actions.

(** The connections that the calls below produce from a new one: the
    application calls [callOnConnection] and [callService], the transport
    opens and closes and delivers service responses; the application adds
    no listeners of its own. *)
Inductive reachable : Ros → Prop :=
| reachable_new t :
    reachable (new_Ros t)
| reachable_callOnConnection message r :
    reachable r → reachable (callOnConnection message r)
| reachable_callService this request callback failedCallback r :
    reachable r →
    reachable (callService this request callback failedCallback r)
| reachable_onopen r :
    reachable r → reachable (onopen r)
| reachable_onclose r :
    reachable r → reachable (onclose r)
| reachable_onmessage m r :
    reachable r → reachable (onmessage m r).

(** The event names that have listeners are ['connection'] and call ids
    made from counter values that were handed out. *)
Definition registered_names_ok (r : Ros) : Prop :=
  ∀ type : string, is_Some (events r !! type) →
    type = "connection"
    ∨ ∃ (this : Service) (n : N),
        type = serviceCallId this n ∧ (n ≤ idCounter r)%N.

(** What happens to a connection, service calls and inbound responses
    included. *)
Inductive Happening :=
| calls_onConnection (message : Operation)
| calls_service (this : Service) (request : Payload)
                (callback failedCallback : Callback)
| opens
| closes
| receives (m : ServiceResponseFrame).

Definition happen (r : Ros) (h : Happening) : Ros :=
  match h with
  | calls_onConnection message => callOnConnection message r
  | calls_service this request callback failedCallback =>
      callService this request callback failedCallback r
  | opens => onopen r
  | closes => onclose r
  | receives m => onmessage m r
  end.

Definition happen_all (hs : list Happening) (r : Ros) : Ros :=
  foldl happen r hs.

(** The happening is a response that carries the given id. *)
Definition answers (id : string) (h : Happening) : Prop :=
  match h with
  | receives m => response_id m = id
  | _ => False
  end.

(** The listeners of ['connection']: the messages still waiting for the
    connection, and the listeners of the application. *)
Definition queued (r : Ros) : list Listener :=
  default [] (events r !! "connection").

(** A message on the socket: its JSON, sent as it is, or as an
    ['operation'] event when the transport is socket.io. *)
Definition frame_of (socket_io : bool) (messageJson : string) : SocketCall :=
  if socket_io then socket_emit "operation" messageJson
  else socket_send messageJson.

(** The messages that wait among the listeners, as they will be on the
    socket. *)
Definition sends (listeners : list Listener) : list SocketCall :=
  omap (λ l, match l with
             | queued_send socket_io messageJson =>
                 Some (frame_of socket_io messageJson)
             | _ => None
             end) listeners.

(** What running the listeners puts on the socket of a connection that
    is up: the waiting messages, and the messages that the listeners of
    the application pass, each at the turn of its listener. *)
Definition flushed (socket_io : bool) (listeners : list Listener)
  : list SocketCall :=
  listeners ≫= λ l,
    match l with
    | queued_send socket_io' messageJson => [frame_of socket_io' messageJson]
    | service_reply _ _ => []
    | application_listener messageJsons => frame_of socket_io <$> messageJsons
    end.

(** The messages that the listeners of the application pass when they
    run. *)
Definition listener_messages (listeners : list Listener) : list string :=
  listeners ≫= λ l,
    match l with
    | application_listener messageJsons => messageJsons
    | _ => []
    end.

(** The messages that a trace hands to [callOnConnection] itself, in
    order, and those that the listeners it adds will pass. *)
Definition calls (actions : list Action) : list Operation :=
  omap (λ a, match a with
             | call message => Some message
             | _ => None
             end) actions.

Definition listened (actions : list Action) : list Operation :=
  actions ≫= λ a,
    match a with
    | listens messages => messages
    | _ => []
    end.

(** Whether the transport is open at the end of a trace. *)
Definition ends_connected (actions : list Action) : bool :=
  foldl (λ b a, match a with
                | transport_open => true
                | transport_close => false
                | _ => b
                end) false actions.

(** Every listener was added by the library, with [once]. *)
Definition library_listeners_only (r : Ros) : Prop :=
  ∀ (type : string) (ls : list Listener),
    events r !! type = Some ls → Forall (λ l, added_with_on l = false) ls.


(** What a message looks like on the socket of this connection. *)
Definition on_wire (t : TransportLibrary) (message : Operation)
  : SocketCall :=
  frame_of (uses_socket_io t) (JSON_stringify message).

End ros.

Arguments Operation : clear implicits.
Arguments EventArg : clear implicits.
Arguments ServiceResponseFrame : clear implicits.
Arguments Invocation : clear implicits.
Arguments Ros : clear implicits.
Arguments Happening : clear implicits.

(** A serialisation of operations, for examples. *)
Definition show (o : Operation string) : string :=
  match o with
  | call_service id service type args =>
      "{op:call_service,id:" +:+ id +:+ ",service:" +:+ service
      +:+ ",type:" +:+ type +:+ ",args:" +:+ args +:+ "}"
  | operation body => body
  end.

End Ros.

(** ** The TF client *)

Module TFClient.

(** A subscriber callback: a function, compared by identity ([===]). *)
Definition Callback := nat.

(** "remove leading slash, if it's there":
    [if (frameID[0] === '/') frameID = frameID.substring(1)]. *)
Definition strip_slash (frameID : string) : string :=
  match frameID with
  | String "/"%char rest => rest
  | _ => frameID
  end.

(** The names that an object literal inherits from [Object.prototype];
    [this.frameInfos = {}] (line 120) has them from the start. *)
Definition Object_prototype : list string :=
  ["constructor"; "__defineGetter__"; "__defineSetter__"; "hasOwnProperty";
   "__lookupGetter__"; "__lookupSetter__"; "isPrototypeOf";
   "propertyIsEnumerable"; "toString"; "valueOf"; "__proto__";
   "toLocaleString"].

Definition inherited (key : string) : bool :=
  existsb (String.eqb key) Object_prototype.

Arguments inherited : simpl never.

Section tf.
(** The numbers of the republisher settings, and [math/Transform]. *)
Context {Num Transform : Type}.

(** An entry of [frameInfos]: [{transform, cbs}]; [transform] is absent
    until the first update for the frame arrives. *)
Record FrameInfo := { transform : option Transform; cbs : list Callback }.

(** The goal message of [updateGoal]; [timeout] is set on the service
    path only. *)
Record GoalMessage := {
  source_frames : list string;
  target_frame : string;
  angular_thres : Num;
  trans_thres : Num;
  rate : Num;
  timeout : option Time
}.

(** What the client asks of the republisher: cancelling and sending a
    goal of its action client (goals are numbered as they are created),
    or calling its service client. *)
Inductive Upstream :=
| goal_cancel (goal : nat)
| goal_send (goal : nat) (goalMessage : GoalMessage)
| callService (request : GoalMessage).

(** The settings fixed by the constructor (TFClient.js 104-118), and
    [this.ros.groovyCompatibility]. *)
Record Settings := {
  groovyCompatibility : bool;
  fixedFrame : string;
  angularThres : Num;
  transThres : Num;
  rateSetting : Num;
  updateDelay : N;             (* ms *)
  topicTimeout : Time
}.

(** The client and the world it acts on.  [frameInfos] is a JavaScript
    object used as a map from frame ids to entries: the map holds its own
    properties, and reading [this.frameInfos[frameID]] for a name that is
    [inherited] and has no entry gives the member of [Object.prototype],
    a function or object that is truthy and has neither [transform] nor
    [cbs].  The order in which [Object.keys] lists the own properties is
    not modelled. *)
Record TFClient := {
  settings : Settings;
  currentGoal : option nat;           (* false, or the goal *)
  frameInfos : gmap string FrameInfo;
  republisherUpdateRequested : bool;
  (* the world *)
  now : N;                  (* the clock, ms *)
  timeouts : list N;        (* due times of the pending
                               setTimeout(this.updateGoal, ...) *)
  goals : nat;              (* Goal objects created so far *)
  upstream : list Upstream; (* requests to the republisher, oldest first *)
  called : list (Callback * Transform)  (* callbacks run, oldest first *)
}.

(** The fields as the constructor leaves them (TFClient.js 120-124). *)
Definition new_TFClient (options : Settings) : TFClient :=
  {| settings := options; currentGoal := None; frameInfos := ∅;
     republisherUpdateRequested := false;
     now := 0; timeouts := []; goals := 0; upstream := []; called := [] |}.

Definition set_currentGoal (g : option nat) (c : TFClient) : TFClient :=
  {| settings := settings c; currentGoal := g; frameInfos := frameInfos c;
     republisherUpdateRequested := republisherUpdateRequested c;
     now := now c; timeouts := timeouts c; goals := goals c;
     upstream := upstream c; called := called c |}.

Definition set_frameInfos (m : gmap string FrameInfo) (c : TFClient)
  : TFClient :=
  {| settings := settings c; currentGoal := currentGoal c; frameInfos := m;
     republisherUpdateRequested := republisherUpdateRequested c;
     now := now c; timeouts := timeouts c; goals := goals c;
     upstream := upstream c; called := called c |}.

Definition set_republisherUpdateRequested (b : bool) (c : TFClient)
  : TFClient :=
  {| settings := settings c; currentGoal := currentGoal c;
     frameInfos := frameInfos c; republisherUpdateRequested := b;
     now := now c; timeouts := timeouts c; goals := goals c;
     upstream := upstream c; called := called c |}.

Definition set_clock (t : N) (pending : list N) (c : TFClient) : TFClient :=
  {| settings := settings c; currentGoal := currentGoal c;
     frameInfos := frameInfos c;
     republisherUpdateRequested := republisherUpdateRequested c;
     now := t; timeouts := pending; goals := goals c;
     upstream := upstream c; called := called c |}.

Definition set_goals (n : nat) (c : TFClient) : TFClient :=
  {| settings := settings c; currentGoal := currentGoal c;
     frameInfos := frameInfos c;
     republisherUpdateRequested := republisherUpdateRequested c;
     now := now c; timeouts := timeouts c; goals := n;
     upstream := upstream c; called := called c |}.

Definition request (u : Upstream) (c : TFClient) : TFClient :=
  {| settings := settings c; currentGoal := currentGoal c;
     frameInfos := frameInfos c;
     republisherUpdateRequested := republisherUpdateRequested c;
     now := now c; timeouts := timeouts c; goals := goals c;
     upstream := upstream c ++ [u]; called := called c |}.

Definition call_back (cb : Callback) (t : Transform) (c : TFClient)
  : TFClient :=
  {| settings := settings c; currentGoal := currentGoal c;
     frameInfos := frameInfos c;
     republisherUpdateRequested := republisherUpdateRequested c;
     now := now c; timeouts := timeouts c; goals := goals c;
     upstream := upstream c; called := called c ++ [(cb, t)] |}.

(** [setTimeout(this.updateGoal.bind(this), delay)] *)
Definition setTimeout_updateGoal (delay : N) (c : TFClient) : TFClient :=
  set_clock (now c) (timeouts c ++ [(now c + timer_delay delay)%N]) c.

(** Create and send a new goal (or service request) to the
    tf2_web_republisher based on the current list of TFs
    (TFClient.js 173-207). *)
Definition updateGoal (c : TFClient) : TFClient :=
  let goalMessage :=
    {| source_frames := (map_to_list (frameInfos c)).*1;
       target_frame := fixedFrame (settings c);
       angular_thres := angularThres (settings c);
       trans_thres := transThres (settings c);
       rate := rateSetting (settings c);
       timeout := None |} in
  let c :=
    if groovyCompatibility (settings c) then
      let c :=
        match currentGoal c with
        | Some g => request (goal_cancel g) c
        | None => c
        end in
      let g := goals c in
      let c := set_currentGoal (Some g) (set_goals (S g) c) in
      request (goal_send g goalMessage) c
    else
      let request_ :=
        {| source_frames := source_frames goalMessage;
           target_frame := target_frame goalMessage;
           angular_thres := angular_thres goalMessage;
           trans_thres := trans_thres goalMessage;
           rate := rate goalMessage;
           timeout := Some (topicTimeout (settings c)) |} in
      request (callService request_) c in
  set_republisherUpdateRequested false c.

(** Process the incoming TF message and send them out using the
    callback functions (TFClient.js 149-167); a TF message is the list
    of its [child_frame_id]s with the transform built for each.  The
    frames that a TF message names are those of the robot; a
    [child_frame_id] that is an inherited name is not among them. *)
Definition processTFArray (tf : list (string * Transform)) (c : TFClient)
  : TFClient :=
  foldl (λ c '(child_frame_id, t),
           let frameID := strip_slash child_frame_id in
           match frameInfos c !! frameID with
           | Some info =>
               let info := {| transform := Some t; cbs := cbs info |} in
               let c := set_frameInfos (<[frameID := info]> (frameInfos c)) c in
               foldl (λ c cb, call_back cb t c) c (cbs info)
           | None => c
           end) c tf.

(** Reading [cbs] of a member of [Object.prototype] gives [undefined];
    line 258 then calls [push] on it. *)
Definition no_cbs : JsError :=
  TypeError "Cannot read properties of undefined (reading 'push')".

(** Subscribe to the given TF frame (TFClient.js 238-259).

    For an inherited name that has no entry, the test on line 245 reads
    the member of [Object.prototype], which is truthy: no entry is made
    and no timeout is set; line 254 finds no transform on it; line 258
    raises the TypeError. *)
Definition subscribe (frameID : string) (callback : Callback) (c : TFClient)
  : TFClient * option JsError :=
  let frameID := strip_slash frameID in
  let c :=
    match frameInfos c !! frameID with
    | None =>
        if inherited frameID then c
        else
          let c :=
            set_frameInfos
              (<[frameID := {| transform := None; cbs := [] |}]>
                 (frameInfos c)) c in
          if negb (republisherUpdateRequested c) then
            let c := setTimeout_updateGoal (updateDelay (settings c)) c in
            set_republisherUpdateRequested true c
          else c
    | Some info =>
        match transform info with
        | Some t => call_back callback t c
        | None => c
        end
    end in
  match frameInfos c !! frameID with
  | Some info =>
      (set_frameInfos
         (<[frameID := {| transform := transform info;
                          cbs := cbs info ++ [callback] |}]> (frameInfos c))
         c, None)
  | None => (c, Some no_cbs)
  end.

(** [cbs[idx] === callback]; an index out of range and a callback that
    is not given both read as [undefined]. *)
Definition same_function (f : option Callback) (callback : option Callback)
  : bool :=
  match f, callback with
  | Some f, Some g => Nat.eqb f g
  | None, None => true
  | _, _ => false
  end.

(** The loop of [unsubscribe] (lines 274-278):
    [for (idx = cbs.length; idx--;) if (cbs[idx] === callback)
     cbs.splice(idx, 1)], with [idx] counting down from [n]. *)
Fixpoint splice_matching (callback : option Callback) (cbs : list Callback)
    (n : nat) : list Callback :=
  match n with
  | O => cbs
  | S idx =>
      let cbs :=
        if same_function (cbs !! idx) callback
        then take idx cbs ++ drop (S idx) cbs
        else cbs in
      splice_matching callback cbs idx
  end.

(** Unsubscribe from the given TF frame (TFClient.js 267-282).

    The loop declares [cbs] with [let] in its head, so the name is bound
    inside the loop only.  Line 279, [!callback || cbs.length === 0],
    stands after the loop: when [callback] is given, [cbs] is evaluated
    there, names nothing, and a ReferenceError is raised before the
    entry can be deleted. *)
Definition unsubscribe (frameID : string) (callback : option Callback)
    (c : TFClient) : TFClient * option JsError :=
  let frameID := strip_slash frameID in
  let info := frameInfos c !! frameID in
  let c :=
    match info with
    | Some info =>
        let cbs' := splice_matching callback (cbs info) (length (cbs info)) in
        set_frameInfos
          (<[frameID := {| transform := transform info; cbs := cbs' |}]>
             (frameInfos c)) c
    | None => c
    end in
  match callback with
  | None => (set_frameInfos (delete frameID (frameInfos c)) c, None)
  | Some _ => (c, Some (ReferenceError "cbs"))
  end.

(** The clock moves on by [ms]; the timeouts that are due run. *)
Definition elapse (ms : N) (c : TFClient) : TFClient :=
  let t := (now c + ms)%N in
  let due := filter (λ d, (d ≤ t)%N) (timeouts c) in
  let c := set_clock t (filter (λ d, (t < d)%N) (timeouts c)) c in
  foldl (λ c _, updateGoal c) c due.

(** What reaches the client: calls of [subscribe] and [unsubscribe], TF
    messages from the republisher, and time passing. *)
Inductive Input :=
| call_subscribe (frameID : string) (callback : Callback)
| call_unsubscribe (frameID : string) (callback : option Callback)
| tf_message (tf : list (string * Transform))
| time_passes (ms : N).

(** The client after one input; [subscribe] and [unsubscribe] leave the
    client as it was when they raised. *)
Definition handle (c : TFClient) (i : Input) : TFClient :=
  match i with
  | call_subscribe frameID callback => (subscribe frameID callback c).1
  | call_unsubscribe frameID callback => (unsubscribe frameID callback c).1
  | tf_message tf => processTFArray tf c
  | time_passes ms => elapse ms c
  end.

Definition handle_all (inputs : list Input) (c : TFClient) : TFClient :=
  foldl handle c inputs.

(** The goals that were sent, and those that were cancelled, oldest
    first. *)
Definition goals_sent (c : TFClient) : list nat :=
  omap (λ u, match u with goal_send g _ => Some g | _ => None end)
       (upstream c).

Definition goals_cancelled (c : TFClient) : list nat :=
  omap (λ u, match u with goal_cancel g => Some g | _ => None end)
       (upstream c).

(** One update is pending exactly while the flag is set. *)
Definition update_pending (c : TFClient) : Prop :=
  (republisherUpdateRequested c = false ∧ timeouts c = [])
  ∨ (republisherUpdateRequested c = true ∧ ∃ due, timeouts c = [due]).

(** The goals sent are numbered as created, all but the last are
    cancelled, and the last one is the current goal. *)
Definition goals_in_order (c : TFClient) : Prop :=
  goals_sent c = seq 0 (goals c)
  ∧ goals_cancelled c = seq 0 (goals c - 1)
  ∧ currentGoal c = match goals c with O => None | S n => Some n end.

(** The frames named by each request sent upstream, oldest first. *)
Definition requested_frames (c : TFClient) : list (list string) :=
  omap (λ u, match u with
             | goal_cancel _ => None
             | goal_send _ m => Some (source_frames m)
             | callService m => Some (source_frames m)
             end) (upstream c).

End tf.

Arguments FrameInfo : clear implicits.
Arguments GoalMessage : clear implicits.
Arguments Upstream : clear implicits.
Arguments Settings : clear implicits.
Arguments TFClient : clear implicits.
Arguments Input : clear implicits.
Arguments subscribe : simpl never.

(** Settings as the constructor defaults them, for examples. *)
Definition example_settings (groovy : bool) : Settings string :=
  {| groovyCompatibility := groovy; fixedFrame := "/base_link";
     angularThres := "2.0"; transThres := "0.01"; rateSetting := "10.0";
     updateDelay := 50; topicTimeout := {| secs := 2; nsecs := 0 |} |}.

End TFClient.

(** ** Services that are advertised *)

Module ServiceServer.
Import Ros.

Section server.
(** The JSON values of requests and responses. *)
Context {Value : Type}.

(** The operation objects that [advertise], [unadvertise] and
    [_serviceResponse] hand to [callOnConnection]; [id] is set on a
    response only when the request carried one. *)
Inductive Body :=
| advertise_service (type service : string)
| unadvertise_service (service : string)
| service_response (service : string) (values : Value) (result : bool)
                   (id : option string).

(** [JSON.stringify] on these objects. *)
Context (JSON_stringify : Body → string).

(** What a listener receives: the properties [args] and [id] of it, an
    absent one being [None].  An inbound [call_service] frame may carry
    both; the event object of ['connection'] carries neither. *)
Record Request := { args : option Value; id : option string }.

(** The callback given to [advertise]: it reads the request, fills the
    response object and returns whether it succeeded. *)
Definition Handler := option Value → Value * bool.

(** A [Service] object: the fields of [Ros.Service] and
    [_serviceCallback], [None] while it is [null]. *)
Record ServiceObject := {
  fields : Service;
  _serviceCallback : option Handler
}.

(** The listeners registered on the connection by the code below. *)
Inductive Registered :=
| (* Ros.js 138-140, added with [once] *)
  once_send (socket_io : bool) (messageJson : string)
| (* Service.js 172: this._serviceResponse.bind(this), added with [on];
     the service object is referred to by its index *)
  on_request (this : nat).

(** The connection with its event listeners, per event name in
    registration order, and the service objects that refer to it. *)
Record Connection := {
  isConnected : bool;
  transportLibrary : TransportLibrary;
  listeners : gmap string (list Registered);
  socket : list SocketCall;        (* calls on this.socket, oldest first *)
  services : list ServiceObject
}.

Definition new_Connection (t : TransportLibrary) : Connection :=
  {| isConnected := false; transportLibrary := t; listeners := ∅;
     socket := []; services := [] |}.

Definition set_isConnected (b : bool) (c : Connection) : Connection :=
  {| isConnected := b; transportLibrary := transportLibrary c;
     listeners := listeners c; socket := socket c;
     services := services c |}.

Definition set_listeners (l : gmap string (list Registered))
    (c : Connection) : Connection :=
  {| isConnected := isConnected c; transportLibrary := transportLibrary c;
     listeners := l; socket := socket c; services := services c |}.

Definition call_socket (s : SocketCall) (c : Connection) : Connection :=
  {| isConnected := isConnected c; transportLibrary := transportLibrary c;
     listeners := listeners c; socket := socket c ++ [s];
     services := services c |}.

Definition set_services (l : list ServiceObject) (c : Connection)
  : Connection :=
  {| isConnected := isConnected c; transportLibrary := transportLibrary c;
     listeners := listeners c; socket := socket c; services := l |}.

(** [EventEmitter.on] and [EventEmitter.once]: the listener goes behind
    the ones registered for the event. *)
Definition add_listener (type : string) (l : Registered) (c : Connection)
  : Connection :=
  set_listeners
    (<[type := default [] (listeners c !! type) ++ [l]]> (listeners c)) c.

(** Sends the message over the WebSocket, but queues the message up if
    not yet connected (Ros.js 128-144). *)
Definition callOnConnection (message : Body) (c : Connection) : Connection :=
  let messageJson := JSON_stringify message in
  let socket_io := uses_socket_io (transportLibrary c) in
  if negb (isConnected c)
  then add_listener "connection" (once_send socket_io messageJson) c
  else call_socket (emitter socket_io messageJson) c.

(** [new Service({ros, name, serviceType})] (Service.js 105-114); the
    result is the index of the new object. *)
Definition new_Service (name serviceType : string) (c : Connection)
  : nat * Connection :=
  (length (services c),
   set_services
     (services c
      ++ [{| fields := {| name := name; serviceType := serviceType;
                          isAdvertised := false |};
             _serviceCallback := None |}]) c).

(** Advertise the service (Service.js 166-179); [callback] is [None]
    when what is passed is not a function. *)
Definition advertise (this : nat) (callback : option Handler)
    (c : Connection) : Connection :=
  match services c !! this, callback with
  | Some o, Some f =>
      if isAdvertised (fields o) then c
      else
        let c := add_listener (name (fields o)) (on_request this) c in
        let c :=
          callOnConnection
            (advertise_service (serviceType (fields o)) (name (fields o))) c in
        set_services
          (<[this := {| fields := {| name := name (fields o);
                                     serviceType := serviceType (fields o);
                                     isAdvertised := true |};
                        _serviceCallback := Some f |}]> (services c)) c
  | _, _ => c
  end.

(** Service.js 181-190. *)
Definition unadvertise (this : nat) (c : Connection) : Connection :=
  match services c !! this with
  | Some o =>
      if negb (isAdvertised (fields o)) then c
      else
        let c := callOnConnection (unadvertise_service (name (fields o))) c in
        set_services
          (<[this := {| fields := {| name := name (fields o);
                                     serviceType := serviceType (fields o);
                                     isAdvertised := false |};
                        _serviceCallback := _serviceCallback o |}]>
             (services c)) c
  | None => c
  end.

(** [if (rosbridgeRequest.id) call.id = rosbridgeRequest.id]: an id that
    is absent or the empty string is not echoed. *)
Definition echoed (id : option string) : option string :=
  match id with
  | Some i => if String.eqb i "" then None else Some i
  | None => None
  end.

(** Service.js 192-208. *)
Definition _serviceResponse (this : nat) (rosbridgeRequest : Request)
    (c : Connection) : Connection * option JsError :=
  match services c !! this with
  | Some o =>
      match _serviceCallback o with
      | Some f =>
          let (response, success) := f (args rosbridgeRequest) in
          let call :=
            service_response (name (fields o)) response success
                             (echoed (id rosbridgeRequest)) in
          (callOnConnection call c, None)
      | None =>
          (c, Some (TypeError "this._serviceCallback is not a function"))
      end
  | None => (c, None)
  end.

Definition run_listener (l : Registered) (arg : Request) (c : Connection)
  : Connection * option JsError :=
  match l with
  | once_send socket_io messageJson =>
      (call_socket (emitter socket_io messageJson) c, None)
  | on_request this => _serviceResponse this arg c
  end.

(** The listeners run in order; an error raised by one ends the run. *)
Fixpoint run_listeners (ls : list Registered) (arg : Request)
    (c : Connection) : Connection * option JsError :=
  match ls with
  | [] => (c, None)
  | l :: ls =>
      match run_listener l arg c with
      | (c, None) => run_listeners ls arg c
      | (c, Some e) => (c, Some e)
      end
  end.

Definition added_with_on (l : Registered) : bool :=
  match l with once_send _ _ => false | on_request _ => true end.

(** [EventEmitter.emit(type, arg)]: the listeners registered for the
    event when it is emitted run in registration order; those added with
    [once] are removed, those added with [on] stay.  The listeners above
    add listeners but remove none, so that removing the [once] ones
    before the first listener runs leaves the same registry. *)
Definition emit (type : string) (arg : Request) (c : Connection)
  : Connection * option JsError :=
  match listeners c !! type with
  | None => (c, None)
  | Some ls =>
      let stay := List.filter added_with_on ls in
      let c :=
        set_listeners
          (match stay with
           | [] => delete type (listeners c)
           | _ => <[type := stay]> (listeners c)
           end) c in
      run_listeners ls arg c
  end.

(** Modelled from the spec: the socket adapter is not among the sources.
    Section 4.1: "Connecting→Connected on transport open". *)
Definition onopen (c : Connection) : Connection * option JsError :=
  emit "connection" {| args := None; id := None |} (set_isConnected true c).

(** Modelled from the spec: section 6, "incoming service request
    (service, args, optional id)"; section 4.3, "inbound requests route
    to handler".  An inbound request is emitted under the name of its
    service. *)
Definition onrequest (service : string) (request : Request) (c : Connection)
  : Connection * option JsError :=
  emit service request c.

(** The calls of [advertise] and [unadvertise] on one service. *)
Inductive Call :=
| call_advertise (callback : option Handler)
| call_unadvertise.

Definition do_call (this : nat) (c : Connection) (k : Call) : Connection :=
  match k with
  | call_advertise callback => advertise this callback c
  | call_unadvertise => unadvertise this c
  end.

Definition do_calls (this : nat) (ks : list Call) (c : Connection)
  : Connection :=
  foldl (do_call this) c ks.

(** The listeners of a service name that were added by [advertise]. *)
Definition request_listeners (service : string) (c : Connection)
  : list Registered :=
  default [] (listeners c !! service).

End server.

Arguments Body : clear implicits.
Arguments Request : clear implicits.
Arguments Handler : clear implicits.
Arguments ServiceObject : clear implicits.
Arguments Connection : clear implicits.
Arguments Call : clear implicits.

(** A serialisation of these operations, for examples. *)
Definition show (b : Body string) : string :=
  match b with
  | advertise_service type service =>
      "{op:advertise_service,type:" +:+ type +:+ ",service:" +:+ service
      +:+ "}"
  | unadvertise_service service =>
      "{op:unadvertise_service,service:" +:+ service +:+ "}"
  | service_response service values result id =>
      "{op:service_response,service:" +:+ service +:+ ",values:" +:+ values
      +:+ ",result:" +:+ (if result then "true" else "false")
      +:+ match id with Some i => ",id:" +:+ i | None => "" end +:+ "}"
  end.

(** A connection that is up, with one service object, for examples. *)
Definition example_connection : Connection string :=
  (onopen show
     (new_Service "/add_two_ints" "rospy_tutorials/AddTwoInts"
        (new_Connection (library "websocket"))).2).1.

End ServiceServer.

(** ** Decoding type definitions *)

Module TypeDefs.

(** An entry of the [typedefs] of rosapi, as [decodeTypeDefs] reads it:
    the name of the type and, per field, its name, its type and its
    array length ([-1] for a field that is no array). *)
Record TypeDef := {
  type : string;
  fieldnames : list string;
  fieldtypes : list string;
  fieldarraylen : list Z
}.

(** What [typeDefDict] holds for a field: [fieldType], [[fieldType]] or
    [[subResult]]. *)
#[warnings="-register-all"]
Inductive Decoded :=
| scalar (fieldType : string)
| array (fieldType : string)
| array_of (subResult : gmap string Decoded).

(** How a call ends when it does not return: a JavaScript error is
    raised, or ['error'] is emitted on a connection that has no listener
    for it, which makes the event emitter throw. *)
Inductive Failure :=
| raised (e : JsError)
| unhandled_error (message : string).

(** The dictionary returned or the failure, and the messages that the
    listeners of ['error'] have received. *)
Definition Outcome : Type := (gmap string Decoded + Failure) * list string.

(** [fieldType.indexOf('/') === -1] is [has_slash fieldType = false]. *)
Definition has_slash (fieldType : string) : bool :=
  match String.index 0 "/" fieldType with
  | Some _ => true
  | None => false
  end.

(** "lookup the name" (Ros.js 628-634): the first hint of that type. *)
Definition lookup_hint (fieldType : string) (hints : list TypeDef)
  : option TypeDef :=
  List.find (λ hint, String.eqb (type hint) fieldType) hints.

(** ['Cannot find ' + fieldType + ' in decodeTypeDefs'] *)
Definition cannot_find (fieldType : string) : string :=
  "Cannot find " +:+ fieldType +:+ " in decodeTypeDefs".

(** [arrayLen === -1]; an array length that is absent is [undefined]. *)
Definition no_array (arrayLen : option Z) : bool :=
  match arrayLen with
  | Some n => (n =? -1)%Z
  | None => false
  end.

(** The loop over the fields (Ros.js 614-647), from the indices that are
    left; [rec] is the recursive call, [error_listener] tells whether the
    connection has a listener for ['error']. *)
Fixpoint decode_fields (rec : TypeDef → list string → option Outcome)
    (error_listener : bool) (theType : TypeDef) (hints : list TypeDef)
    (indices : list nat) (typeDefDict : gmap string Decoded)
    (log : list string) : option Outcome :=
  match indices with
  | [] => Some (inl typeDefDict, log)
  | i :: indices =>
      let arrayLen := fieldarraylen theType !! i in
      match fieldnames theType !! i, fieldtypes theType !! i with
      | Some fieldName, Some fieldType =>
          if negb (has_slash fieldType) then
            let entry :=
              if no_array arrayLen then scalar fieldType
              else array fieldType in
            decode_fields rec error_listener theType hints indices
                          (<[fieldName := entry]> typeDefDict) log
          else
            match lookup_hint fieldType hints with
            | Some sub =>
                match rec sub log with
                | Some (inl subResult, log) =>
                    if no_array arrayLen then
                      decode_fields rec error_listener theType hints indices
                                    typeDefDict log
                    else
                      decode_fields rec error_listener theType hints indices
                                    (<[fieldName := array_of subResult]>
                                       typeDefDict) log
                | Some (inr failure, log) => Some (inr failure, log)
                | None => None
                end
            | None =>
                if error_listener then
                  decode_fields rec error_listener theType hints indices
                                typeDefDict (log ++ [cannot_find fieldType])
                else
                  Some (inr (unhandled_error (cannot_find fieldType)), log)
            end
      | _, _ =>
          (* fieldType is undefined: fieldType.indexOf raises *)
          Some (inr (raised (TypeError
                  "Cannot read properties of undefined (reading 'indexOf')")),
                log)
      end
  end.

(** [decodeTypeDefsRec] (Ros.js 612-649).  The recursion follows the
    hints and need not end; [fuel] bounds its depth, and [None] says that
    the bound was reached. *)
Fixpoint decodeTypeDefsRec (fuel : nat) (error_listener : bool)
    (hints : list TypeDef) (theType : TypeDef) (log : list string)
  : option Outcome :=
  match fuel with
  | O => None
  | S fuel =>
      decode_fields (decodeTypeDefsRec fuel error_listener hints)
                    error_listener theType hints
                    (seq 0 (length (fieldnames theType))) ∅ log
  end.

(** Decode a typedefs into a dictionary like `rosmsg show foo/bar`
    (Ros.js 610-652). *)
Definition decodeTypeDefs (fuel : nat) (error_listener : bool)
    (defs : list TypeDef) : option Outcome :=
  match defs !! 0 with
  | Some theType => decodeTypeDefsRec fuel error_listener defs theType []
  | None =>
      (* defs[0] is undefined: theType.fieldnames raises *)
      Some (inr (raised (TypeError
              "Cannot read properties of undefined (reading 'fieldnames')")),
            [])
  end.

(** The entry of a field whose type is no message type. *)
Definition plain_entry (fieldType : string) (arrayLen : Z) : Decoded :=
  if (arrayLen =? -1)%Z then scalar fieldType else array fieldType.

(** The dictionary of fields whose types are no message types: each
    field name with its entry, a later field replacing an earlier one of
    the same name. *)
Definition plain_dict (names types : list string) (lens : list Z)
  : gmap string Decoded :=
  foldl (λ d '(fieldName, entry), <[fieldName := entry]> d) ∅
        (zip names (zip_with plain_entry types lens)).

(** The fields from index [k] on are the plain fields [es], each a field
    name with its entry. *)
Definition plain_from (theType : TypeDef) (k : nat)
    (es : list (string * Decoded)) : Prop :=
  ∀ i fieldName entry, es !! i = Some (fieldName, entry) →
    ∃ fieldType arrayLen,
      fieldnames theType !! (k + i) = Some fieldName
      ∧ fieldtypes theType !! (k + i) = Some fieldType
      ∧ fieldarraylen theType !! (k + i) = Some arrayLen
      ∧ has_slash fieldType = false
      ∧ entry = plain_entry fieldType arrayLen.

(** The type with the fields [names], [types], [lens] followed by one
    more field. *)
Definition with_field (name : string) (names types : list string)
    (lens : list Z) (fieldName fieldType : string) (arrayLen : Z) : TypeDef :=
  {| type := name; fieldnames := names ++ [fieldName];
     fieldtypes := types ++ [fieldType];
     fieldarraylen := lens ++ [arrayLen] |}.

End TypeDefs.

(** ** The action client and its goals *)

Module ActionClient.

Section client.
(** The goal, feedback and result payloads of the action. *)
Context {Payload : Type}.

(** [actionlib_msgs/GoalStatus], as in the action server. *)
Local Abbreviation GoalStatus := SimpleActionServer.GoalStatus.

(** The events a goal emits to its listeners. *)
Inductive GoalEvent :=
| status_event (status : GoalStatus)
| feedback_event (feedback : Payload)
| result_event (result : Payload)
| timeout_event.

(** A [Goal] object (actionlib/index.js 182-221): its fields, and the
    events emitted on it, oldest first.  [status], [result] and
    [feedback] are absent until the first event of their kind. *)
Record Goal := {
  goalID : string;
  goal : Payload;
  isFinished : bool;
  status : option GoalStatus;
  result : option Payload;
  feedback : option Payload;
  emitted : list GoalEvent
}.

(** What is published on the goal and the cancel topic. *)
Inductive Published :=
| goal_message (goal_id : GoalID) (goal : Payload)
| cancel_message (id : option string).

(** The action client with the goal objects that refer to it and the
    world it acts on.  [goals] is the registry [this.goals], from goal
    ids to goal objects, which are referred to by their index. *)
Record ActionClient := {
  omitFeedback : bool;
  omitResult : bool;
  goals : gmap string nat;
  objects : list Goal;
  published : list Published;    (* oldest first *)
  now : N;                       (* the clock, ms *)
  timeouts : list (N * nat)      (* due time and goal of the pending
                                    timeouts of [send], in firing order *)
}.

(** [new ActionClient(options)] (lines 45-139) with [omitStatus] set, as
    the TF client sets it, and without a timeout: no callback is
    subscribed to the status topic (lines 96-106). *)
Definition new_ActionClient (omitFeedback omitResult : bool) : ActionClient :=
  {| omitFeedback := omitFeedback; omitResult := omitResult; goals := ∅;
     objects := []; published := []; now := 0; timeouts := [] |}.

Definition set_objects (l : list Goal) (c : ActionClient) : ActionClient :=
  {| omitFeedback := omitFeedback c; omitResult := omitResult c;
     goals := goals c; objects := l; published := published c;
     now := now c; timeouts := timeouts c |}.

Definition set_goals (m : gmap string nat) (c : ActionClient)
  : ActionClient :=
  {| omitFeedback := omitFeedback c; omitResult := omitResult c;
     goals := m; objects := objects c; published := published c;
     now := now c; timeouts := timeouts c |}.

Definition publish (p : Published) (c : ActionClient) : ActionClient :=
  {| omitFeedback := omitFeedback c; omitResult := omitResult c;
     goals := goals c; objects := objects c;
     published := published c ++ [p]; now := now c;
     timeouts := timeouts c |}.

Definition set_clock (t : N) (pending : list (N * nat)) (c : ActionClient)
  : ActionClient :=
  {| omitFeedback := omitFeedback c; omitResult := omitResult c;
     goals := goals c; objects := objects c; published := published c;
     now := t; timeouts := pending |}.

(** [goal.emit(...)]: the listeners that the constructor of the goal
    registered run first (lines 206-217): they store the status, the
    result (and mark the goal finished) or the feedback; then the
    listeners added later receive the event. *)
Definition emit (e : GoalEvent) (g : Goal) : Goal :=
  match e with
  | status_event s =>
      {| goalID := goalID g; goal := goal g; isFinished := isFinished g;
         status := Some s; result := result g; feedback := feedback g;
         emitted := emitted g ++ [e] |}
  | feedback_event f =>
      {| goalID := goalID g; goal := goal g; isFinished := isFinished g;
         status := status g; result := result g; feedback := Some f;
         emitted := emitted g ++ [e] |}
  | result_event r =>
      {| goalID := goalID g; goal := goal g; isFinished := true;
         status := status g; result := Some r; feedback := feedback g;
         emitted := emitted g ++ [e] |}
  | timeout_event =>
      {| goalID := goalID g; goal := goal g; isFinished := isFinished g;
         status := status g; result := result g; feedback := feedback g;
         emitted := emitted g ++ [e] |}
  end.

(** The goal object [this] changed by [f]. *)
Definition on_goal (this : nat) (f : Goal → Goal) (c : ActionClient)
  : ActionClient :=
  match objects c !! this with
  | Some g => set_objects (<[this := f g]> (objects c)) c
  | None => c
  end.

(** The callback subscribed to the feedback topic (lines
    110-116). *)
Definition feedbackListener_callback (status : GoalStatus)
    (feedback : Payload) (c : ActionClient) : ActionClient :=
  match goals c !! id (SimpleActionServer.status_goal_id status) with
  | Some this =>
      on_goal this (λ g, emit (feedback_event feedback)
                              (emit (status_event status) g)) c
  | None => c
  end.

(** The callback subscribed to the result topic (lines
    121-128). *)
Definition resultListener_callback (status : GoalStatus)
    (result : Payload) (c : ActionClient) : ActionClient :=
  match goals c !! id (SimpleActionServer.status_goal_id status) with
  | Some this =>
      on_goal this (λ g, emit (result_event result)
                              (emit (status_event status) g)) c
  | None => c
  end.

(** [new Goal({actionClient, goalMessage})] (lines 183-221); [goalID]
    is the id drawn from [Math.random()] and the date.  The result is the
    index of the new object. *)
Definition new_Goal (goalID : string) (goalMessage : Payload)
    (c : ActionClient) : nat * ActionClient :=
  let this := length (objects c) in
  (this,
   set_goals (<[goalID := this]> (goals c))
     (set_objects
        (objects c
         ++ [{| goalID := goalID; goal := goalMessage; isFinished := false;
                status := None; result := None; feedback := None;
                emitted := [] |}]) c)).

(** The timeout goes behind the pending ones that are due no later. *)
Fixpoint setTimeout (due : N) (this : nat) (pending : list (N * nat))
  : list (N * nat) :=
  match pending with
  | [] => [(due, this)]
  | (d, g) :: pending =>
      if (d <=? due)%N then (d, g) :: setTimeout due this pending
      else (due, this) :: (d, g) :: pending
  end.

(** Send the goal to the action server (lines 228-237); [timeout] is
    [None] when it is not given.  [setTimeout] keeps [timer_delay] of
    it. *)
Definition send (this : nat) (timeout : option N) (c : ActionClient)
  : ActionClient :=
  match objects c !! this with
  | Some g =>
      let c :=
        publish (goal_message {| stamp := {| secs := 0; nsecs := 0 |};
                                 id := goalID g |} (goal g)) c in
      match timeout with
      | Some t =>
          if (t =? 0)%N then c
          else
            set_clock (now c)
              (setTimeout (now c + timer_delay t) this (timeouts c)) c
      | None => c
      end
  | None => c
  end.

(** Cancel the current goal (lines 242-247). *)
Definition cancel (this : nat) (c : ActionClient) : ActionClient :=
  match objects c !! this with
  | Some g => publish (cancel_message (Some (goalID g))) c
  | None => c
  end.

(** Cancel all goals associated with this ActionClient (lines
    144-147): an empty message. *)
Definition cancel_all (c : ActionClient) : ActionClient :=
  publish (cancel_message None) c.

(** The callback that [send] hands to [setTimeout] (lines 231-235). *)
Definition timeout_callback (g : Goal) : Goal :=
  if isFinished g then g else emit timeout_event g.

Definition timeout_fires (this : nat) (c : ActionClient) : ActionClient :=
  on_goal this timeout_callback c.

(** The clock moves on by [ms]; the timeouts that are due fire. *)
Definition elapse (ms : N) (c : ActionClient) : ActionClient :=
  let t := (now c + ms)%N in
  let due := filter (λ p, (p.1 ≤ t)%N) (timeouts c) in
  let c := set_clock t (filter (λ p, (t < p.1)%N) (timeouts c)) c in
  foldl (λ c p, timeout_fires p.2 c) c due.

(** What reaches a client made with [omitStatus]: messages on the
    feedback and the result topic, calls of the application, and the
    passing of time. *)
Inductive Input :=
| feedback_message (status : GoalStatus) (feedback : Payload)
| result_message (status : GoalStatus) (result : Payload)
| call_new_Goal (goalID : string) (goalMessage : Payload)
| call_send (this : nat) (timeout : option N)
| call_cancel (this : nat)
| time_passes (ms : N).

(** Modelled from the spec: the topics (core/Topic.js) are not among the
    sources.  Section 4.2, "subscribe(cb): registers cb": a message on a
    topic is passed to the callback subscribed to it; the constructor
    subscribes to the feedback and the result topic unless they are
    omitted (lines 109, 120). *)
Definition handle (c : ActionClient) (i : Input) : ActionClient :=
  match i with
  | feedback_message status feedback =>
      if omitFeedback c then c
      else feedbackListener_callback status feedback c
  | result_message status result =>
      if omitResult c then c else resultListener_callback status result c
  | call_new_Goal goalID goalMessage => (new_Goal goalID goalMessage c).2
  | call_send this timeout => send this timeout c
  | call_cancel this => cancel this c
  | time_passes ms => elapse ms c
  end.

Definition handle_all (inputs : list Input) (c : ActionClient)
  : ActionClient :=
  foldl handle c inputs.

(** The statuses, feedbacks and results that a goal emitted, oldest
    first, and how often it emitted [timeout]. *)
Definition statuses (g : Goal) : list GoalStatus :=
  omap (λ e, match e with status_event s => Some s | _ => None end)
       (emitted g).

Definition feedbacks (g : Goal) : list Payload :=
  omap (λ e, match e with feedback_event f => Some f | _ => None end)
       (emitted g).

Definition results (g : Goal) : list Payload :=
  omap (λ e, match e with result_event r => Some r | _ => None end)
       (emitted g).

Definition timed_out (g : Goal) : nat :=
  length (omap (λ e, match e with timeout_event => Some () | _ => None end)
               (emitted g)).

(** The timeouts [due] fire, seen on the list of the goal objects. *)
Definition fire_all (due : list (N * nat)) (l : list Goal) : list Goal :=
  foldl (λ l p, alter timeout_callback p.2 l) l due.

(** What one input can do to the goal object [this]: nothing; or it
    takes a status with a feedback or with a result, which came for the
    id under which it is registered; or some of its timeouts fire. *)
Inductive evolves (c : ActionClient) (this : nat) (g : Goal) : Goal → Prop :=
| unchanged : evolves c this g g
| fed_back s f :
    omitFeedback c = false →
    goals c !! id (SimpleActionServer.status_goal_id s) = Some this →
    evolves c this g (emit (feedback_event f) (emit (status_event s) g))
| resulted s r :
    omitResult c = false →
    goals c !! id (SimpleActionServer.status_goal_id s) = Some this →
    evolves c this g (emit (result_event r) (emit (status_event s) g))
| timed n : evolves c this g (Nat.iter n timeout_callback g).

(** The registry leads to goal objects that bear the id under which they
    are registered, and the pending timeouts belong to goal objects. *)
Definition registry_ok (c : ActionClient) : Prop :=
  ∀ gid this, goals c !! gid = Some this →
    ∃ g, objects c !! this = Some g ∧ goalID g = gid.

Definition timeouts_ok (c : ActionClient) : Prop :=
  Forall (λ p, p.2 < length (objects c)) (timeouts c).

(** The fields of the goal hold the latest event of each kind, the goal
    is finished exactly when it emitted a result, and every status that
    it emitted bears its id. *)
Definition mirrors_events (g : Goal) : Prop :=
  status g = last (statuses g) ∧ feedback g = last (feedbacks g)
  ∧ result g = last (results g)
  ∧ isFinished g = bool_decide (results g ≠ [])
  ∧ Forall (λ s, id (SimpleActionServer.status_goal_id s) = goalID g)
           (statuses g).

End client.

Arguments GoalEvent : clear implicits.
Arguments Goal : clear implicits.
Arguments Published : clear implicits.
Arguments ActionClient : clear implicits.
Arguments Input : clear implicits.

End ActionClient.

(** * Properties *)

(** ** The simple action server *)

Module SimpleActionServerProofs.
Import SimpleActionServer.

Lemma isEarlier_true (t1 t2 : Time) :
  isEarlier t1 t2 = true
  ↔ (secs t1 < secs t2 ∨ (secs t1 = secs t2 ∧ nsecs t1 < nsecs t2))%Z.
Proof.
  unfold isEarlier.
  destruct (Z.gtb_spec (secs t1) (secs t2)); [split; [done | lia] |].
  destruct (Z.ltb_spec (secs t1) (secs t2)); [split; [lia | done] |].
  destruct (Z.ltb_spec (nsecs t1) (nsecs t2)); split; (done || lia).
Qed.

Lemma isEarlier_false (t1 t2 : Time) :
  isEarlier t1 t2 = false
  ↔ (secs t2 < secs t1 ∨ (secs t1 = secs t2 ∧ nsecs t2 ≤ nsecs t1))%Z.
Proof.
  destruct (isEarlier t1 t2) eqn:E.
  - apply isEarlier_true in E. split; [done | lia].
  - split; [intros _ | done].
    assert (¬ (secs t1 < secs t2
               ∨ (secs t1 = secs t2 ∧ nsecs t1 < nsecs t2))%Z) as H.
    { rewrite <- isEarlier_true. congruence. }
    lia.
Qed.

Lemma Time_eq (t1 t2 : Time) :
  secs t1 = secs t2 → nsecs t1 = nsecs t2 → t1 = t2.
Proof. destruct t1, t2; simpl; congruence. Qed.

(** C6: on time stamps with non-negative seconds and nanoseconds below
    1e9, [isEarlier] is the numeric order of [secs * 1e9 + nsecs], and it
    is a strict total order: irreflexive, transitive, and any two time
    stamps are equal or ordered one way. *)
Theorem isEarlier_strict_total_order (t1 t2 t3 : Time) :
  normalized t1 → normalized t2 → normalized t3 →
  (isEarlier t1 t2 = true ↔ (nanoseconds t1 < nanoseconds t2)%Z)
  ∧ isEarlier t1 t1 = false
  ∧ (isEarlier t1 t2 = true → isEarlier t2 t3 = true → isEarlier t1 t3 = true)
  ∧ (isEarlier t1 t2 = true ∨ t1 = t2 ∨ isEarlier t2 t1 = true).
Proof.
  unfold normalized, nanoseconds. intros N1 N2 N3.
  repeat split.
  - rewrite isEarlier_true. lia.
  - rewrite isEarlier_true. lia.
  - apply isEarlier_false. lia.
  - rewrite !isEarlier_true. lia.
  - destruct (isEarlier t1 t2) eqn:E12; [by left | right].
    destruct (isEarlier t2 t1) eqn:E21; [by right | left].
    apply isEarlier_false in E12, E21. apply Time_eq; lia.
Qed.

Lemma isEarlier_strict_total_order_witness :
  let t1 := {| secs := 1; nsecs := 999999999 |} in
  let t2 := {| secs := 2; nsecs := 0 |} in
  let t3 := {| secs := 2; nsecs := 1 |} in
  (normalized t1 ∧ normalized t2 ∧ normalized t3)
  ∧ (isEarlier t1 t2 = true ↔ (nanoseconds t1 < nanoseconds t2)%Z)
  ∧ isEarlier t1 t1 = false
  ∧ (isEarlier t1 t2 = true → isEarlier t2 t3 = true → isEarlier t1 t3 = true)
  ∧ (isEarlier t1 t2 = true ∨ t1 = t2 ∨ isEarlier t2 t1 = true).
Proof.
  intros t1 t2 t3.
  assert (normalized t1 ∧ normalized t2 ∧ normalized t3) as H.
  { unfold normalized; simpl; lia. }
  split; [exact H |].
  apply isEarlier_strict_total_order; apply H.
Defined.

Section server.
Context {Payload : Type}.
Implicit Types (s : Server Payload) (A B cur : GoalMessage Payload).

Lemma preempting_state A B :
  preempting A B =
  {| status_list := [{| status_goal_id := goal_id A; status := 1 |}];
     currentGoal := Some A; nextGoal := Some B;
     emitted := [goal_event (goal A); cancel_event];
     published := [] |}.
Proof. reflexivity. Qed.

(** C1: goal [A] is accepted, goal [B] arrives while [A] is active and
    is staged as [nextGoal] with a cancel event.  [setSucceeded] then
    publishes the status and result pair of [A], emits one goal event
    for [B], and makes [B] the current goal with [nextGoal] cleared.
    The status list, which was cleared on line 160, is left empty: it
    does not name [B]. *)
Theorem setSucceeded_after_preemption A B (result : Payload) :
  currentGoal (preempting A B) = Some A
  ∧ nextGoal (preempting A B) = Some B
  ∧ emitted (preempting A B) = [goal_event (goal A); cancel_event]
  ∧ setSucceeded result (preempting A B) =
    ({| status_list := [];
        currentGoal := Some B; nextGoal := None;
        emitted := [goal_event (goal A); cancel_event; goal_event (goal B)];
        published :=
          [Result {| status_goal_id := goal_id A; status := 3 |}
                  (Some result)] |}, None)
  ∧ status_ids (setSucceeded result (preempting A B)).1 ≠ [id (goal_id B)].
Proof. repeat split; done. Qed.

(** The goal listener puts the goal it accepts into the status list. *)
Lemma accepted_goal_in_status_list s A :
  currentGoal s = None →
  status_ids (goalListener_callback A s) = [id (goal_id A)].
Proof. intros Hidle. unfold goalListener_callback. by rewrite Hidle. Qed.

(** Each terminal operation promotes the next goal and leaves the status
    list empty. *)
Lemma promotion_leaves_status_list_empty s cur next (result : Payload) :
  currentGoal s = Some cur → nextGoal s = Some next →
  Forall (λ s', status_list s' = [] ∧ currentGoal s' = Some next
                ∧ nextGoal s' = None)
         [(setSucceeded result s).1; (setAborted result s).1;
          (setPreempted s).1].
Proof.
  intros Hcur Hnext. unfold setSucceeded, setAborted, setPreempted. simpl.
  rewrite Hcur. unfold promote_nextGoal. simpl. rewrite Hnext.
  repeat constructor.
Qed.

Lemma cancels_all_true (m : GoalID) :
  cancels_all m = true ↔ id m = "" ∧ secs (stamp m) = 0%Z.
Proof.
  unfold cancels_all. rewrite !andb_true_iff, String.eqb_eq, Z.eqb_eq.
  tauto.
Qed.

(** C2: the cancel message with an empty id and the time stamp
    [{secs: 0, nsecs: 5}] is not "both empty", yet the test on line 113
    holds for it and the cancel-all branch runs: with goal [A] current
    and goal [B] next, both created at [{0, 9}], [nextGoal] is cleared
    and a cancel event is emitted, where the handling by id and stamp
    would have changed nothing. *)
Theorem cancel_all_on_nonzero_nsecs (a b : Payload) :
  let m := {| stamp := {| secs := 0; nsecs := 5 |}; id := "" |} in
  let created := {| secs := 0; nsecs := 9 |} in
  let A := {| goal_id := {| stamp := created; id := "goal_A" |}; goal := a |} in
  let B := {| goal_id := {| stamp := created; id := "goal_B" |}; goal := b |} in
  ¬ both_empty m
  ∧ cancels_all m = true
  ∧ cancelListener_callback m (preempting A B) =
    cancel_all_goals (preempting A B)
  ∧ nextGoal (cancelListener_callback m (preempting A B)) = None
  ∧ emitted (cancelListener_callback m (preempting A B)) =
    emitted (preempting A B) ++ [cancel_event]
  ∧ cancel_by_id_and_stamp m (preempting A B) = preempting A B.
Proof.
  repeat split; try done.
  unfold both_empty. simpl. intros (_ & _ & ?). done.
Qed.

(** C9: a cancel message that carries the id of the current goal and a
    time stamp later than the one of the current goal, and for which
    the cancel-all test fails, makes the server emit the cancel event
    twice: once for the id (line 120), once for the stamp (line 132). *)
Theorem cancel_emitted_twice s cur (cancelMessage : GoalID) :
  currentGoal s = Some cur →
  id cancelMessage = id (goal_id cur) →
  isEarlier (stamp (goal_id cur)) (stamp cancelMessage) = true →
  cancels_all cancelMessage = false →
  emitted (cancelListener_callback cancelMessage s) =
  emitted s ++ [cancel_event; cancel_event].
Proof.
  intros Hcur Hid Hlater Hall.
  unfold cancelListener_callback, cancel_by_id_and_stamp.
  rewrite Hall, Hcur. simpl.
  rewrite Hid, String.eqb_refl. simpl.
  destruct (created_before cancelMessage (nextGoal s)); simpl;
    rewrite Hcur; simpl; rewrite Hlater; simpl;
    by rewrite <- app_assoc.
Qed.

(** *** Further properties of the server *)

(** What every server built from inputs satisfies: a goal is staged only
    behind a current goal, and the status list is empty or names the
    current goal as active. *)
Lemma handle_all_invariant (inputs : list (Input Payload)) :
  let s := handle_all inputs new_SimpleActionServer in
  (nextGoal s = None ∨ is_Some (currentGoal s))
  ∧ (status_list s = []
     ∨ ∃ cur, currentGoal s = Some cur
              ∧ status_list s =
                [{| status_goal_id := goal_id cur; status := 1 |}]).
Proof.
  induction inputs as [|i inputs IH] using rev_ind.
  { split; by left. }
  unfold handle_all in *. rewrite foldl_app. simpl.
  set (s := foldl handle _ inputs) in *. simpl in IH.
  destruct IH as [Hnext Hstatus].
  destruct i as [g | m | r | r | | f]; simpl.
  - unfold goalListener_callback.
    destruct (currentGoal s) as [cur|] eqn:Hcur; simpl.
    + rewrite Hcur. split; [right; eauto | done].
    + split; [| right; eauto].
      destruct Hnext as [-> | [? ?]]; [by left | done].
  - unfold cancelListener_callback, cancel_all_goals, cancel_by_id_and_stamp.
    destruct (cancels_all m); simpl.
    + destruct (currentGoal s) eqn:Hcur; simpl; rewrite ?Hcur;
        (split; [by left | done]).
    + destruct (id_matches m (currentGoal s)),
        (id_matches m (nextGoal s)); simpl;
        repeat match goal with
          | |- context [if ?b then _ else _] => destruct b; simpl
          end;
        (split; [tauto | done]).
  - unfold setSucceeded, promote_nextGoal.
    destruct (currentGoal s) as [cur|] eqn:Hcur; simpl;
      [| rewrite Hcur in *; split; assumption].
    destruct (nextGoal s) eqn:Hn; simpl; rewrite ?Hn; split; by left.
  - unfold setAborted, promote_nextGoal.
    destruct (currentGoal s) as [cur|] eqn:Hcur; simpl;
      [| rewrite Hcur in *; split; assumption].
    destruct (nextGoal s) eqn:Hn; simpl; rewrite ?Hn; split; by left.
  - unfold setPreempted, promote_nextGoal. simpl.
    destruct (currentGoal s) as [cur|] eqn:Hcur; simpl.
    + destruct (nextGoal s) eqn:Hn; simpl; rewrite ?Hn; split; by left.
    + rewrite Hcur. split; [done | by left].
  - unfold sendFeedback.
    destruct (currentGoal s) as [cur|] eqn:Hcur; simpl;
      rewrite Hcur in *; split; assumption.
Qed.

(** X1: whatever goal and cancel messages arrive and whatever methods
    are called, in any order, a goal is staged as [nextGoal] only while a
    current goal exists. *)
Theorem nextGoal_only_behind_currentGoal (inputs : list (Input Payload)) :
  let s := handle_all inputs new_SimpleActionServer in
  nextGoal s = None ∨ is_Some (currentGoal s).
Proof. apply handle_all_invariant. Qed.

(** X2: along any inputs, the status list is empty or holds exactly one
    entry: the id of the current goal with status 1.  It never names a
    staged or a finished goal. *)
Theorem status_list_names_currentGoal (inputs : list (Input Payload)) :
  let s := handle_all inputs new_SimpleActionServer in
  status_list s = []
  ∨ ∃ cur, currentGoal s = Some cur
           ∧ status_list s = [{| status_goal_id := goal_id cur; status := 1 |}].
Proof. apply handle_all_invariant. Qed.

(** X3: on a server that any inputs have left idle, every method that
    reports on the current goal raises a TypeError and leaves the server
    exactly as it was: nothing is published, nothing is emitted. *)
Theorem methods_raise_when_idle (inputs : list (Input Payload)) (p : Payload) :
  let s := handle_all inputs new_SimpleActionServer in
  currentGoal s = None →
  setSucceeded p s = (s, Some no_current_goal)
  ∧ setAborted p s = (s, Some no_current_goal)
  ∧ setPreempted s = (s, Some no_current_goal)
  ∧ sendFeedback p s = (s, Some no_current_goal).
Proof.
  intros s Hidle.
  unfold setSucceeded, setAborted, setPreempted, sendFeedback. simpl.
  rewrite Hidle. repeat split.
  destruct (handle_all_invariant inputs) as [_ [Hempty | (cur & Hcur & _)]].
  - fold s in Hempty. destruct s. simpl in *. by subst.
  - fold s in Hcur. congruence.
Qed.

(** X4: a goal that arrives while another goal is staged replaces the
    staged one.  With [A] current, [B] then [C] arriving raise one cancel
    event each; [setSucceeded] then publishes the result of [A] and makes
    [C] the current goal.  [B] gets no goal event and no result. *)
Theorem staged_goal_is_replaced s A B C (result : Payload) :
  currentGoal s = Some A →
  let s2 := goalListener_callback C (goalListener_callback B s) in
  let s3 := (setSucceeded result s2).1 in
  currentGoal s2 = Some A
  ∧ nextGoal s2 = Some C
  ∧ emitted s2 = emitted s ++ [cancel_event; cancel_event]
  ∧ currentGoal s3 = Some C
  ∧ nextGoal s3 = None
  ∧ emitted s3 = emitted s ++ [cancel_event; cancel_event; goal_event (goal C)]
  ∧ published s3 =
    published s ++ [Result {| status_goal_id := goal_id A; status := 3 |}
                           (Some result)].
Proof.
  intros Hcur. unfold goalListener_callback, setSucceeded, promote_nextGoal.
  rewrite Hcur. simpl. rewrite Hcur. simpl. rewrite Hcur. simpl.
  rewrite <- !app_assoc. done.
Qed.

(** X5: what a cancel message does depends on the listeners of
    ['cancel'], which run inside the handler.

    When they do not call back into the server, the message, whatever it
    carries, never changes the current goal, the status list or what was
    published, and never emits a goal event: it leaves the staged goal
    or clears it, and emits at most two cancel events, none when there is
    no current goal.

    When they answer with [setPreempted], and the listeners of ['goal']
    do not call back, a message that names the
    current goal [A] while [B] is staged publishes [A] with status 2 and
    makes [B] the current goal with a goal event, within the handler;
    and when [B] was created before the stamp of the message, the
    handler goes on to cancel [B]: [B] is preempted too and the server is
    left idle. *)
Theorem cancel_only_cancels s (cancelMessage : GoalID) s2 A B (m : GoalID) :
  currentGoal s2 = Some A → nextGoal s2 = Some B →
  cancels_all m = false → id m = id (goal_id A) →
  (let s' := cancelListener_callback_heard (λ s, s) cancelMessage s in
   s' = cancelListener_callback cancelMessage s
   ∧ currentGoal s' = currentGoal s
   ∧ status_list s' = status_list s
   ∧ published s' = published s
   ∧ (nextGoal s' = nextGoal s ∨ nextGoal s' = None)
   ∧ ∃ n, n ≤ 2 ∧ emitted s' = emitted s ++ replicate n cancel_event
          ∧ (is_Some (currentGoal s) ∨ n = 0))
  ∧ cancelListener_callback_heard preempt_on_cancel m s2 =
    let preempted (g : GoalMessage Payload) :=
      Result {| status_goal_id := goal_id g; status := 2 |} None in
    if isEarlier (stamp (goal_id B)) (stamp m)
    then {| status_list := []; currentGoal := None; nextGoal := None;
            emitted := emitted s2 ++ [cancel_event; goal_event (goal B);
                                      cancel_event];
            published := published s2 ++ [preempted A; preempted B] |}
    else {| status_list := []; currentGoal := Some B; nextGoal := None;
            emitted := emitted s2 ++ [cancel_event; goal_event (goal B)];
            published := published s2 ++ [preempted A] |}.
Proof.
  intros HA HB Hall Hid. split.
  - split; [reflexivity |].
    change (cancelListener_callback_heard (λ s, s) cancelMessage s)
      with (cancelListener_callback cancelMessage s).
    unfold cancelListener_callback, cancel_all_goals, cancel_by_id_and_stamp.
    destruct (currentGoal s) as [cur|] eqn:Hcur;
      repeat (repeat (simpl; rewrite Hcur); simpl;
              match goal with
              | |- context [if ?b then _ else _] =>
                  match type of b with bool => idtac end;
                  lazymatch b with
                  | context [if _ then _ else _] => fail
                  | _ => destruct b
                  end
              end);
      repeat (simpl; rewrite Hcur); simpl;
      (split; [done |]); (split; [done |]); (split; [done |]);
      (split; [tauto |]);
      first
        [ exists 0; split; [lia |]; split; [by rewrite app_nil_r |];
          first [by right | by left; eexists]
        | exists 1; split; [lia |]; split; [done |]; by left; eexists
        | exists 2; split; [lia |]; split; [by rewrite <- app_assoc |];
          by left; eexists ].
  - destruct s2 as [sl cur nxt em pub]. simpl in HA, HB. subst cur nxt.
    unfold cancelListener_callback_heard, cancel_by_id_and_stamp_heard.
    rewrite Hall.
    cbn [currentGoal nextGoal emit id_matches]. rewrite Hid, String.eqb_refl.
    unfold preempt_on_cancel, setPreempted, promote_nextGoal.
    cbn [currentGoal nextGoal emitted published status_list fst
         set_status_list set_currentGoal set_nextGoal publish emit
         created_before].
    destruct (isEarlier (stamp (goal_id B)) (stamp m));
      cbv [set_currentGoal set_nextGoal set_status_list publish emit
           status_list currentGoal nextGoal emitted published];
      rewrite <- ?app_assoc; reflexivity.
Qed.

(** X6: with a goal staged, each of the three terminal operations
    publishes the status of the current goal ([setSucceeded] 3,
    [setAborted] 4, [setPreempted] 2, the last without a result),
    promotes the staged goal with one goal event, and leaves the status
    list empty. *)
Theorem terminal_operations_promote s cur next (result : Payload) :
  currentGoal s = Some cur → nextGoal s = Some next →
  let after (code : Z) (r : option Payload) :=
    ({| status_list := []; currentGoal := Some next; nextGoal := None;
        emitted := emitted s ++ [goal_event (goal next)];
        published :=
          published s ++ [Result {| status_goal_id := goal_id cur;
                                    status := code |} r] |}, None) in
  setSucceeded result s = after 3%Z (Some result)
  ∧ setAborted result s = after 4%Z (Some result)
  ∧ setPreempted s = after 2%Z None.
Proof.
  intros Hcur Hnext. unfold setSucceeded, setAborted, setPreempted. simpl.
  rewrite Hcur. unfold promote_nextGoal. simpl. rewrite Hnext. done.
Qed.

End server.

Lemma cancel_emitted_twice_witness :
  let cur := {| goal_id := {| stamp := {| secs := 10; nsecs := 0 |};
                              id := "goal_A" |};
                goal := "a" |} in
  let s := goalListener_callback cur new_SimpleActionServer in
  let cancelMessage := {| stamp := {| secs := 10; nsecs := 1 |};
                          id := "goal_A" |} in
  (currentGoal s = Some cur
   ∧ id cancelMessage = id (goal_id cur)
   ∧ isEarlier (stamp (goal_id cur)) (stamp cancelMessage) = true
   ∧ cancels_all cancelMessage = false)
  ∧ emitted (cancelListener_callback cancelMessage s) =
    emitted s ++ [cancel_event; cancel_event].
Proof.
  intros cur s cancelMessage. split.
  - repeat split; reflexivity.
  - apply (cancel_emitted_twice s cur cancelMessage); reflexivity.
Defined.

Lemma methods_raise_when_idle_witness :
  let A := {| goal_id := {| stamp := {| secs := 10; nsecs := 0 |};
                            id := "goal_A" |};
              goal := "a" |} in
  let inputs := [goal_message A; call_sendFeedback "half";
                 call_setSucceeded "done"] in
  let s := handle_all inputs new_SimpleActionServer in
  currentGoal s = None
  ∧ setSucceeded "r" s = (s, Some no_current_goal)
  ∧ setAborted "r" s = (s, Some no_current_goal)
  ∧ setPreempted s = (s, Some no_current_goal)
  ∧ sendFeedback "r" s = (s, Some no_current_goal).
Proof.
  intros A inputs s. split; [reflexivity |].
  apply (methods_raise_when_idle inputs "r"). reflexivity.
Defined.

Lemma staged_goal_is_replaced_witness :
  let goal_of (n : string) :=
    {| goal_id := {| stamp := {| secs := 10; nsecs := 0 |}; id := n |};
       goal := n |} in
  let A := goal_of "A" in
  let B := goal_of "B" in
  let C := goal_of "C" in
  let s := goalListener_callback A new_SimpleActionServer in
  let s2 := goalListener_callback C (goalListener_callback B s) in
  let s3 := (setSucceeded "done" s2).1 in
  currentGoal s = Some A
  ∧ currentGoal s2 = Some A
  ∧ nextGoal s2 = Some C
  ∧ emitted s2 = emitted s ++ [cancel_event; cancel_event]
  ∧ currentGoal s3 = Some C
  ∧ nextGoal s3 = None
  ∧ emitted s3 = emitted s ++ [cancel_event; cancel_event; goal_event (goal C)]
  ∧ published s3 =
    published s ++ [Result {| status_goal_id := goal_id A; status := 3 |}
                           (Some "done")].
Proof.
  intros goal_of A B C s s2 s3. split; [reflexivity |].
  apply (staged_goal_is_replaced s A B C "done"). reflexivity.
Defined.

Lemma terminal_operations_promote_witness :
  let goal_of (n : string) :=
    {| goal_id := {| stamp := {| secs := 10; nsecs := 0 |}; id := n |};
       goal := n |} in
  let s := preempting (goal_of "A") (goal_of "B") in
  let after (code : Z) (r : option string) :=
    ({| status_list := []; currentGoal := Some (goal_of "B");
        nextGoal := None;
        emitted := emitted s ++ [goal_event "B"];
        published :=
          published s ++ [Result {| status_goal_id := goal_id (goal_of "A");
                                    status := code |} r] |}, None) in
  (currentGoal s = Some (goal_of "A") ∧ nextGoal s = Some (goal_of "B"))
  ∧ setSucceeded "done" s = after 3%Z (Some "done")
  ∧ setAborted "done" s = after 4%Z (Some "done")
  ∧ setPreempted s = after 2%Z None.
Proof.
  intros goal_of s after. split; [split; reflexivity |].
  apply (terminal_operations_promote s (goal_of "A") (goal_of "B") "done");
    reflexivity.
Defined.

Lemma cancel_only_cancels_witness :
  let A := {| goal_id := {| stamp := {| secs := 10; nsecs := 0 |};
                            id := "goal_A" |};
              goal := "a" |} in
  let B := {| goal_id := {| stamp := {| secs := 15; nsecs := 0 |};
                            id := "goal_B" |};
              goal := "b" |} in
  let s2 := preempting A B in
  let m := {| stamp := {| secs := 20; nsecs := 0 |}; id := "goal_A" |} in
  let preempted (g : GoalMessage string) :=
    Result {| status_goal_id := goal_id g; status := 2 |} None in
  (currentGoal s2 = Some A ∧ nextGoal s2 = Some B
   ∧ cancels_all m = false ∧ id m = id (goal_id A))
  ∧ cancelListener_callback_heard preempt_on_cancel m s2 =
    if isEarlier (stamp (goal_id B)) (stamp m)
    then {| status_list := []; currentGoal := None; nextGoal := None;
            emitted := emitted s2 ++ [cancel_event; goal_event (goal B);
                                      cancel_event];
            published := published s2 ++ [preempted A; preempted B] |}
    else {| status_list := []; currentGoal := Some B; nextGoal := None;
            emitted := emitted s2 ++ [cancel_event; goal_event (goal B)];
            published := published s2 ++ [preempted A] |}.
Proof.
  intros A B s2 m preempted.
  assert (currentGoal s2 = Some A ∧ nextGoal s2 = Some B
          ∧ cancels_all m = false ∧ id m = id (goal_id A)) as H.
  { repeat split; reflexivity. }
  split; [exact H |].
  apply (cancel_only_cancels s2 m s2 A B m); apply H.
Defined.

End SimpleActionServerProofs.

(** ** The connection and its service calls *)

Module RosProofs.
Import Ros.

Section ros.
Context {Payload : Type} (JSON_stringify : Operation Payload → string).
Implicit Types (r : Ros Payload) (l : Listener) (arg : EventArg Payload).
Implicit Types (message : Operation Payload) (ls : list Listener).

Local Abbreviation callOnConnection := (callOnConnection JSON_stringify).
Local Abbreviation run := (run JSON_stringify).
Local Abbreviation on_wire := (on_wire JSON_stringify).

(** *** Passing a message *)

Lemma callOnConnection_json_disconnected (messageJson : string) r :
  isConnected r = false →
  callOnConnection_json messageJson r =
  once "connection"
       (queued_send (uses_socket_io (transportLibrary r)) messageJson)
       (pass messageJson r).
Proof. intros Hr. unfold callOnConnection_json. simpl. by rewrite Hr. Qed.

Lemma callOnConnection_json_connected (messageJson : string) r :
  isConnected r = true →
  callOnConnection_json messageJson r =
  call_socket (frame_of (uses_socket_io (transportLibrary r)) messageJson)
              (pass messageJson r).
Proof. intros Hr. unfold callOnConnection_json. simpl. by rewrite Hr. Qed.

Lemma callOnConnection_json_fields (messageJson : string) r :
  idCounter (callOnConnection_json messageJson r) = idCounter r
  ∧ isConnected (callOnConnection_json messageJson r) = isConnected r
  ∧ transportLibrary (callOnConnection_json messageJson r)
    = transportLibrary r.
Proof.
  unfold callOnConnection_json. simpl.
  destruct (isConnected r) eqn:E; simpl; by rewrite ?E.
Qed.

Lemma passes_fields (messageJsons : list string) r :
  let r' := foldl (λ r j, callOnConnection_json j r) r messageJsons in
  idCounter r' = idCounter r
  ∧ isConnected r' = isConnected r
  ∧ transportLibrary r' = transportLibrary r.
Proof.
  revert r. induction messageJsons as [|j js IH]; intros r; simpl; [done |].
  destruct (IH (callOnConnection_json j r)) as (-> & -> & ->).
  apply callOnConnection_json_fields.
Qed.

(** On a connection that is up, the messages go to the socket at once
    and in order. *)
Lemma passes_connected (messageJsons : list string) r :
  isConnected r = true →
  let r' := foldl (λ r j, callOnConnection_json j r) r messageJsons in
  events r' = events r
  ∧ socket r' =
    socket r ++ (frame_of (uses_socket_io (transportLibrary r))
                   <$> messageJsons)
  ∧ passed r' = passed r ++ messageJsons.
Proof.
  revert r. induction messageJsons as [|j js IH]; intros r Hr; simpl.
  - by rewrite !app_nil_r.
  - rewrite callOnConnection_json_connected by done.
    destruct (IH (call_socket
                    (frame_of (uses_socket_io (transportLibrary r)) j)
                    (pass j r))) as (-> & -> & ->); [done |].
    simpl. by rewrite <- !app_assoc.
Qed.

(** *** Running listeners *)

Lemma run_listener_fields l arg r :
  idCounter (run_listener l arg r) = idCounter r
  ∧ isConnected (run_listener l arg r) = isConnected r
  ∧ transportLibrary (run_listener l arg r) = transportLibrary r.
Proof.
  destruct l as [k j | cb fcb | js]; simpl.
  - done.
  - destruct (result arg) as [[|]|], cb, fcb; done.
  - apply passes_fields.
Qed.

Lemma run_listeners_fields arg ls r :
  let r' := foldl (λ r l, run_listener l arg r) r ls in
  idCounter r' = idCounter r
  ∧ isConnected r' = isConnected r
  ∧ transportLibrary r' = transportLibrary r.
Proof.
  revert r. induction ls as [|l ls IH]; intros r; simpl; [done |].
  destruct (IH (run_listener l arg r)) as (-> & -> & ->).
  apply run_listener_fields.
Qed.

Lemma run_listeners_idCounter arg ls r :
  idCounter (foldl (λ r l, run_listener l arg r) r ls) = idCounter r.
Proof. apply run_listeners_fields. Qed.

Lemma run_listeners_isConnected arg ls r :
  isConnected (foldl (λ r l, run_listener l arg r) r ls) = isConnected r.
Proof. apply run_listeners_fields. Qed.

Lemma run_listeners_transportLibrary arg ls r :
  transportLibrary (foldl (λ r l, run_listener l arg r) r ls)
  = transportLibrary r.
Proof. apply run_listeners_fields. Qed.

(** The listeners of the library leave the registry as it is. *)
Lemma run_listeners_library arg ls r :
  Forall (λ l, added_with_on l = false) ls →
  let r' := foldl (λ r l, run_listener l arg r) r ls in
  events r' = events r
  ∧ socket r' = socket r ++ sends ls
  ∧ passed r' = passed r.
Proof.
  intros Hls. revert r.
  induction Hls as [|l ls Hl _ IH]; intros r; simpl.
  - by rewrite app_nil_r.
  - destruct (IH (run_listener l arg r)) as (-> & -> & ->).
    destruct l as [k j | cb fcb | js]; simpl; [| | done].
    + by rewrite <- app_assoc.
    + destruct (result arg) as [[|]|], cb, fcb; done.
Qed.

Lemma run_listeners_events arg ls r :
  Forall (λ l, added_with_on l = false) ls →
  events (foldl (λ r l, run_listener l arg r) r ls) = events r.
Proof. intros Hls. by apply run_listeners_library. Qed.

Lemma flushed_cons (socket_io : bool) l ls :
  flushed socket_io (l :: ls) = flushed socket_io [l] ++ flushed socket_io ls.
Proof. unfold flushed. simpl. by rewrite app_nil_r. Qed.

Lemma listener_messages_cons l ls :
  listener_messages (l :: ls)
  = listener_messages [l] ++ listener_messages ls.
Proof. unfold listener_messages. simpl. by rewrite app_nil_r. Qed.

Lemma sends_cons l ls : sends (l :: ls) = sends [l] ++ sends ls.
Proof. by destruct l. Qed.

(** On a connection that is up, the listeners of the application pass
    their messages straight to the socket, each at its turn. *)
Lemma run_listeners_connected arg ls r :
  isConnected r = true →
  let r' := foldl (λ r l, run_listener l arg r) r ls in
  events r' = events r
  ∧ socket r' = socket r ++ flushed (uses_socket_io (transportLibrary r)) ls
  ∧ passed r' = passed r ++ listener_messages ls.
Proof.
  revert r. induction ls as [|l ls IH]; intros r Hr.
  - simpl. by rewrite !app_nil_r.
  - cbv zeta. simpl foldl.
    destruct (run_listener_fields l arg r) as (_ & Hc & Ht).
    destruct (IH (run_listener l arg r)) as (-> & -> & ->);
      [by rewrite Hc |].
    rewrite Ht, flushed_cons, listener_messages_cons, !app_assoc.
    destruct l as [k j | cb fcb | js]; simpl.
    + rewrite ?app_nil_r. repeat split; reflexivity.
    + rewrite ?app_nil_r. destruct (result arg) as [[|]|], cb, fcb; done.
    + destruct (passes_connected js r Hr) as (-> & -> & ->).
      by rewrite ?app_nil_r.
Qed.

Lemma filter_added_with_on_library ls :
  Forall (λ l, added_with_on l = false) ls →
  filter (λ l, added_with_on l) ls = [].
Proof.
  induction 1 as [|l ls Hl _ IH]; [done |].
  rewrite filter_cons, IH. by rewrite decide_False by (rewrite Hl; auto).
Qed.

(** Where only the library has added listeners, emitting an event runs
    its listeners and leaves none. *)
Lemma emit_library (type : string) arg r ls :
  events r !! type = Some ls →
  Forall (λ l, added_with_on l = false) ls →
  emit type arg r =
  foldl (λ r l, run_listener l arg r)
        (set_events (delete type (events r)) r) ls.
Proof.
  intros Hreg Hls. unfold emit. rewrite Hreg.
  by rewrite filter_added_with_on_library.
Qed.

(** *** The queue of [callOnConnection] *)

Lemma queued_once l r : queued (once "connection" l r) = queued r ++ [l].
Proof. unfold queued, once. simpl. by rewrite lookup_insert_eq. Qed.

Lemma queued_on l r : queued (on "connection" l r) = queued r ++ [l].
Proof. unfold queued, on. simpl. by rewrite lookup_insert_eq. Qed.

Lemma sends_queued (t : TransportLibrary) (ms : list (Operation Payload)) :
  sends ((λ m, queued_send (uses_socket_io t) (JSON_stringify m)) <$> ms)
  = on_wire t <$> ms.
Proof. induction ms as [|m ms IH]; simpl; [done | by f_equal]. Qed.


Lemma run_snoc (a : Action) (actions : list Action) r :
  run (actions ++ [a]) r = step JSON_stringify (run actions r) a.
Proof. unfold Ros.run. by rewrite foldl_app. Qed.


Lemma callOnConnection_disconnected message r :
  isConnected r = false →
  callOnConnection message r =
  once "connection"
       (queued_send (uses_socket_io (transportLibrary r))
                    (JSON_stringify message))
       (pass (JSON_stringify message) r).
Proof. apply callOnConnection_json_disconnected. Qed.

Lemma callOnConnection_connected message r :
  isConnected r = true →
  callOnConnection message r =
  call_socket (on_wire (transportLibrary r) message)
              (pass (JSON_stringify message) r).
Proof. apply callOnConnection_json_connected. Qed.

(** What the listeners put on the socket when the transport opens: the
    waiting messages and the messages of the listeners of the
    application, and nothing else. *)
Lemma flushed_Permutation (socket_io : bool) ls :
  flushed socket_io ls
  ≡ₚ sends ls ++ (frame_of socket_io <$> listener_messages ls).
Proof.
  induction ls as [|l ls IH]; [done |].
  rewrite flushed_cons, listener_messages_cons, sends_cons, IH, fmap_app.
  destruct l as [k j | cb fcb | js]; simpl; [done | done |].
  rewrite !app_nil_r. apply Permutation_app_swap_app.
Qed.

Lemma flushed_no_messages (socket_io : bool) ls :
  listener_messages ls = [] → flushed socket_io ls = sends ls.
Proof.
  induction ls as [|l ls IH]; [done |].
  rewrite flushed_cons, listener_messages_cons, sends_cons.
  intros [Hl Hls]%app_eq_nil. rewrite IH by done.
  destruct l as [k j | cb fcb | js]; simpl in *; [done | done |].
  rewrite app_nil_r in Hl. by rewrite Hl.
Qed.

Lemma sends_staying ls : sends (filter (λ l, added_with_on l) ls) = [].
Proof.
  induction ls as [|l ls IH]; [done |].
  rewrite filter_cons. destruct l as [k j | cb fcb | js]; simpl; done.
Qed.

Lemma listener_messages_staying ls :
  listener_messages (filter (λ l, added_with_on l) ls) = listener_messages ls.
Proof.
  induction ls as [|l ls IH]; [done |].
  rewrite filter_cons, (listener_messages_cons l ls).
  destruct l as [k j | cb fcb | js]; simpl; [done | done |].
  by rewrite IH, app_nil_r.
Qed.

(** On transport open the listeners of ['connection'] run on a
    connection that is up: the waiting messages and those of the
    listeners of the application go to the socket, each at the turn of
    its listener, and only the listeners of the application stay. *)
Lemma onopen_flushes r :
  socket (onopen r) =
    socket r ++ flushed (uses_socket_io (transportLibrary r)) (queued r)
  ∧ passed (onopen r) = passed r ++ listener_messages (queued r)
  ∧ isConnected (onopen r) = true
  ∧ transportLibrary (onopen r) = transportLibrary r
  ∧ queued (onopen r) = filter (λ l, added_with_on l) (queued r)
  ∧ events (onopen r) !! "close" = events r !! "close"
  ∧ idCounter (onopen r) = idCounter r.
Proof.
  unfold onopen, emit, queued. simpl.
  destruct (events r !! "connection") as [ls|] eqn:E; simpl.
  - set (staying := filter _ ls).
    set (events' := match staying with [] => _ | _ => _ end).
    destruct (run_listeners_connected connection_event ls
                (set_events events' (set_isConnected true r)))
      as (He & Hs & Hp); [done |].
    destruct (run_listeners_fields connection_event ls
                (set_events events' (set_isConnected true r)))
      as (Hi & Hc & Ht).
    rewrite He, Hs, Hp, Hi, Hc, Ht. simpl.
    repeat split; try done.
    + unfold events'. destruct staying as [|l' staying'] eqn:Hst.
      * by rewrite lookup_delete_eq.
      * by rewrite lookup_insert_eq.
    + unfold events'. destruct staying as [|l' staying'].
      * by rewrite lookup_delete_ne.
      * by rewrite lookup_insert_ne.
  - rewrite E. simpl. by rewrite !app_nil_r.
Qed.


Lemma calls_snoc (a : Action) (actions : list Action) :
  calls (actions ++ [a]) =
  calls actions
  ++ match a return list (Operation Payload) with
     | call message => [message]
     | _ => []
     end.
Proof. unfold calls. rewrite omap_app. by destruct a. Qed.

Lemma listened_snoc (a : Action) (actions : list Action) :
  listened (actions ++ [a]) =
  listened actions
  ++ match a return list (Operation Payload) with
     | listens messages => messages
     | _ => []
     end.
Proof.
  unfold listened. rewrite bind_app. simpl. destruct a; by rewrite ?app_nil_r.
Qed.

Lemma ends_connected_snoc (a : @Action Payload) (actions : list Action) :
  ends_connected (actions ++ [a]) =
  match a with
  | transport_open => true
  | transport_close => false
  | _ => ends_connected actions
  end.
Proof. unfold ends_connected. by rewrite foldl_app. Qed.

(** The invariant of the traces from a new connection.  Whatever the
    listeners of the application pass, every message that was passed to
    [callOnConnection] is on the socket or waiting, once; when no
    listener passes a message, the socket followed by the waiting
    messages is what the trace called, in call order; nothing waits
    while the connection is up. *)
Lemma run_wire_order (t : TransportLibrary) (actions : list Action) :
  let r := run actions (new_Ros t) in
  socket r ++ sends (queued r) ≡ₚ frame_of (uses_socket_io t) <$> passed r
  ∧ (listened actions = [] →
     socket r ++ sends (queued r) = on_wire t <$> calls actions
     ∧ passed r = JSON_stringify <$> calls actions)
  ∧ (isConnected r = true → sends (queued r) = [])
  ∧ listener_messages (queued r) = JSON_stringify <$> listened actions
  ∧ transportLibrary r = t
  ∧ events r !! "close" = None
  ∧ isConnected r = ends_connected actions.
Proof.
  induction actions as [|a actions IH] using rev_ind.
  { cbv zeta. simpl. unfold queued. simpl. rewrite lookup_empty. simpl.
    repeat split; done. }
  cbv zeta in *. rewrite run_snoc, calls_snoc, listened_snoc,
    ends_connected_snoc.
  set (r := run actions (new_Ros t)) in *.
  destruct IH as (Hperm & Horder & Hup & Hlm & Ht & Hcl & Hc).
  destruct a as [m | ms | |]; simpl.
  - (* a call *)
    rewrite app_nil_r.
    destruct (isConnected r) eqn:Hr.
    + rewrite callOnConnection_connected by done.
      unfold queued in *. simpl. rewrite Hup in * by done.
      rewrite app_nil_r in *. rewrite !fmap_app, Ht. simpl. rewrite ?Hr.
      split; [by rewrite Hperm |].
      split; [| done].
      intros Hl. destruct (Horder Hl) as [-> ->]. done.
    + rewrite callOnConnection_disconnected by done.
      rewrite queued_once. unfold sends at 1 2 3. rewrite omap_app.
      fold (sends (queued (pass (JSON_stringify m) r))).
      change (queued (pass (JSON_stringify m) r)) with (queued r).
      unfold once; simpl. rewrite !fmap_app, Ht, !app_assoc. simpl.
      rewrite ?Hr.
      split; [by rewrite Hperm |].
      split.
      { intros Hl. destruct (Horder Hl) as [-> ->]. done. }
      split; [done |].
      split.
      { change (listener_messages (queued r ++ [queued_send ?k ?j]))
          with (listener_messages (queued r ++ [queued_send k j])).
        unfold listener_messages in *. rewrite bind_app. simpl.
        by rewrite app_nil_r. }
      split; [done |]. split; [| done].
      by rewrite lookup_insert_ne.
  - (* the application adds a listener *)
    rewrite queued_on. unfold sends at 1 2 3. rewrite omap_app. simpl.
    fold (sends (queued r)). rewrite app_nil_r.
    split; [done |].
    split.
    { intros [Hl Hms]%app_eq_nil. rewrite app_nil_r. by apply Horder. }
    split; [done |].
    split.
    { unfold listener_messages in *. rewrite bind_app, Hlm, fmap_app.
      simpl. by rewrite app_nil_r. }
    split; [done |]. split; [| done].
    by rewrite lookup_insert_ne.
  - (* the transport opens *)
    rewrite app_nil_r.
    destruct (onopen_flushes r) as (Hs & Hp & Hup' & Ht' & Hq & Hcl' & _).
    rewrite Hs, Hp, Hq, Ht', Hcl', sends_staying, listener_messages_staying.
    rewrite app_nil_r, Ht.
    split.
    { rewrite flushed_Permutation, app_assoc, Hperm, fmap_app. done. }
    split.
    { intros Hl. rewrite Hl in Hlm. simpl in Hlm.
      rewrite flushed_no_messages, Hlm, ?app_nil_r by done.
      by apply Horder. }
    done.
  - (* the transport closes *)
    rewrite !app_nil_r. unfold onclose, emit. simpl. rewrite Hcl.
    change (queued (set_isConnected false r)) with (queued r). simpl.
    split; [done |]. split; [done |]. split; [done |]. done.
Qed.







(** *** Only the library adds listeners *)

Lemma once_library_only (type : string) l r :
  added_with_on l = false →
  library_listeners_only r → library_listeners_only (once type l r).
Proof.
  intros Hl Hr key ls. unfold once. simpl.
  destruct (decide (type = key)) as [<- | Hne].
  - rewrite lookup_insert_eq. intros [= <-]. apply Forall_app. split.
    + destruct (events r !! type) as [ls0|] eqn:E; simpl; [| done].
      by apply (Hr type).
    + by constructor.
  - rewrite lookup_insert_ne by done. apply Hr.
Qed.

Lemma callOnConnection_library_only message r :
  library_listeners_only r → library_listeners_only (callOnConnection message r).
Proof.
  intros Hr. unfold Ros.callOnConnection, callOnConnection_json. simpl.
  destruct (isConnected r); simpl.
  - exact Hr.
  - by apply once_library_only.
Qed.

Lemma emit_library_only (type : string) arg r :
  library_listeners_only r → library_listeners_only (emit type arg r).
Proof.
  intros Hr. destruct (events r !! type) as [ls|] eqn:E.
  - rewrite (emit_library type arg r ls) by (done || by apply (Hr type)).
    intros key ls'.
    rewrite run_listeners_events by (by apply (Hr type)). simpl.
    destruct (decide (type = key)) as [<- | Hne].
    + by rewrite lookup_delete_eq.
    + rewrite lookup_delete_ne by done. apply Hr.
  - unfold emit. by rewrite E.
Qed.

Lemma callService_library_only (this : Service) (request : Payload)
    (callback failedCallback : Callback) r :
  library_listeners_only r →
  library_listeners_only
    (Ros.callService JSON_stringify this request callback failedCallback r).
Proof.
  intros Hr. unfold Ros.callService. destruct (isAdvertised this); [done |].
  apply callOnConnection_library_only.
  destruct (truthy callback || truthy failedCallback).
  - by apply once_library_only.
  - exact Hr.
Qed.

Lemma reachable_library_only r :
  reachable JSON_stringify r → library_listeners_only r.
Proof.
  induction 1 as [t | message r _ IH | this request cb fcb r _ IH
                 | r _ IH | r _ IH | m r _ IH].
  - intros key ls. simpl. by rewrite lookup_empty.
  - by apply callOnConnection_library_only.
  - by apply callService_library_only.
  - unfold onopen. by apply emit_library_only.
  - unfold onclose. by apply emit_library_only.
  - unfold onmessage. by apply emit_library_only.
Qed.

Lemma happen_library_only (h : Happening Payload) r :
  library_listeners_only r →
  library_listeners_only (happen JSON_stringify r h).
Proof.
  intros Hr. destruct h as [message | this request cb fcb | | | m]; simpl.
  - by apply callOnConnection_library_only.
  - by apply callService_library_only.
  - unfold onopen. by apply emit_library_only.
  - unfold onclose. by apply emit_library_only.
  - unfold onmessage. by apply emit_library_only.
Qed.

Lemma emit_other_name (type key : string) arg r :
  library_listeners_only r →
  type ≠ key → events (emit type arg r) !! key = events r !! key.
Proof.
  intros Hr Hne. destruct (events r !! type) as [ls|] eqn:E.
  - rewrite (emit_library type arg r ls) by (done || by apply (Hr type)).
    rewrite run_listeners_events by (by apply (Hr type)). simpl.
    by rewrite lookup_delete_ne.
  - unfold emit. by rewrite E.
Qed.

(** *** Service calls *)

Lemma serviceCallId_not_connection (this : Service) (n : N) :
  serviceCallId this n ≠ "connection".
Proof. unfold serviceCallId. simpl. discriminate. Qed.

(** [callService] registers its listener under the fresh id. *)
Lemma callService_registers (this : Service) (request : Payload)
    (cb : string) (failedCallback : Callback) r :
  isAdvertised this = false →
  events r !! serviceCallId this (idCounter r + 1) = None →
  events (Ros.callService JSON_stringify this request (Some cb) failedCallback r)
    !! serviceCallId this (idCounter r + 1)
  = Some [service_reply (Some cb) failedCallback].
Proof.
  intros Hadv Hfresh. unfold Ros.callService. rewrite Hadv. simpl.
  set (sid := serviceCallId this (idCounter r + 1)) in *.
  unfold Ros.callOnConnection, callOnConnection_json. simpl.
  destruct (isConnected r); simpl.
  - rewrite lookup_insert_eq, Hfresh. done.
  - rewrite lookup_insert_ne by (symmetry; apply serviceCallId_not_connection).
    rewrite lookup_insert_eq, Hfresh. done.
Qed.




(** A response whose id has no listener changes nothing. *)
Lemma onmessage_unmapped (m : ServiceResponseFrame Payload) r :
  events r !! response_id m = None → onmessage m r = r.
Proof. intros Hreg. unfold onmessage, emit. by rewrite Hreg. Qed.



(** *** Call ids are fresh *)

Lemma colon_in_middle (a p : string) :
  ":"%char ∈ String.list_ascii_of_string (a +:+ ":" +:+ p).
Proof.
  induction a as [|c a IH]; simpl; [apply list_elem_of_here |].
  by apply list_elem_of_further.
Qed.

(** What follows the last colon of a string is determined by the
    string. *)
Lemma after_last_colon (a b p1 p2 : string) :
  ":"%char ∉ String.list_ascii_of_string p1 →
  ":"%char ∉ String.list_ascii_of_string p2 →
  a +:+ ":" +:+ p1 = b +:+ ":" +:+ p2 → p1 = p2.
Proof.
  intros Hp1 Hp2. revert b.
  induction a as [|c a IH]; intros [|c' b] Heq.
  - change (String ":" p1 = String ":" p2) in Heq. by injection Heq.
  - change (String ":" p1 = String c' (b +:+ ":" +:+ p2)) in Heq.
    injection Heq as _ ->. destruct Hp1. apply colon_in_middle.
  - change (String c (a +:+ ":" +:+ p1) = String ":" p2) in Heq.
    injection Heq as _ <-. destruct Hp2. apply colon_in_middle.
  - change (String c (a +:+ ":" +:+ p1) = String c' (b +:+ ":" +:+ p2))
      in Heq.
    injection Heq as _ Heq. by apply (IH b).
Qed.

Lemma pretty_N_go_no_colon (x : N) (s : string) :
  ":"%char ∉ String.list_ascii_of_string s →
  ":"%char ∉ String.list_ascii_of_string (pretty_N_go x s).
Proof.
  revert s. induction (N.lt_wf_0 x) as [x _ IH]; intros s Hs.
  assert (x = 0 ∨ 0 < x)%N as [-> | Hx] by lia.
  - by rewrite pretty_N_go_0.
  - rewrite pretty_N_go_step by done. apply IH.
    { by apply N.div_lt. }
    simpl. apply not_elem_of_cons. split; [| done].
    unfold pretty_N_char. by repeat case_match.
Qed.

Lemma pretty_N_no_colon (n : N) :
  ":"%char ∉ String.list_ascii_of_string (pretty n).
Proof.
  unfold pretty, pretty_N. case_decide.
  - simpl. apply not_elem_of_cons. split; [done | apply not_elem_of_nil].
  - apply pretty_N_go_no_colon. simpl. apply not_elem_of_nil.
Qed.

(** Two call ids that are equal were made from the same counter value. *)
Lemma serviceCallId_counter (this1 this2 : Service) (n1 n2 : N) :
  serviceCallId this1 n1 = serviceCallId this2 n2 → n1 = n2.
Proof.
  unfold serviceCallId. intros Heq.
  apply (inj (String.app "call_service:")) in Heq.
  apply after_last_colon in Heq; auto using pretty_N_no_colon.
  by apply (inj pretty).
Qed.

Lemma emit_names_ok (type : string) arg r :
  library_listeners_only r →
  registered_names_ok r → registered_names_ok (emit type arg r).
Proof.
  intros Hlib Hok key. destruct (events r !! type) as [ls|] eqn:E.
  - rewrite (emit_library type arg r ls) by (done || by apply (Hlib type)).
    rewrite run_listeners_events by (by apply (Hlib type)).
    rewrite run_listeners_idCounter. simpl.
    intros Hkey. apply Hok.
    destruct (decide (type = key)) as [-> | Hne].
    + rewrite lookup_delete_eq in Hkey. by destruct Hkey.
    + by rewrite lookup_delete_ne in Hkey.
  - unfold emit. rewrite E. apply Hok.
Qed.

Lemma once_names_ok (type : string) l r :
  (type = "connection"
   ∨ ∃ (this : Service) (n : N),
       type = serviceCallId this n ∧ (n ≤ idCounter r)%N) →
  registered_names_ok r → registered_names_ok (once type l r).
Proof.
  intros Htype Hok key. unfold once. simpl.
  destruct (decide (type = key)) as [<- | Hne]; [done |].
  rewrite lookup_insert_ne by done. apply Hok.
Qed.

Lemma callOnConnection_names_ok message r :
  registered_names_ok r → registered_names_ok (callOnConnection message r).
Proof.
  intros Hok. unfold Ros.callOnConnection, callOnConnection_json. simpl.
  destruct (isConnected r); simpl; [done |].
  apply (once_names_ok _ _ (pass (JSON_stringify message) r));
    [by left | done].
Qed.

Lemma reachable_names_ok r :
  reachable JSON_stringify r → registered_names_ok r.
Proof.
  induction 1 as [t | message r _ IH | this request cb fcb r _ IH
                 | r Hr IH | r Hr IH | m r Hr IH].
  - intros key. simpl. rewrite lookup_empty. by intros [? ?].
  - by apply callOnConnection_names_ok.
  - unfold Ros.callService. destruct (isAdvertised this); [done |].
    apply callOnConnection_names_ok.
    assert (registered_names_ok (set_idCounter (idCounter r + 1) r)) as Hok.
    { intros key Hkey. destruct (IH key Hkey) as [-> | (svc & n & -> & Hn)];
        [by left | right]. exists svc, n. simpl. split; [done | lia]. }
    destruct (truthy cb || truthy fcb); [| done].
    apply once_names_ok; [| done].
    right. exists this, (idCounter r + 1)%N. simpl. split; [done | lia].
  - unfold onopen. apply emit_names_ok.
    + apply (reachable_library_only r Hr).
    + intros key Hkey. by apply IH.
  - unfold onclose. apply emit_names_ok.
    + apply (reachable_library_only r Hr).
    + intros key Hkey. by apply IH.
  - unfold onmessage. apply emit_names_ok; [| done].
    by apply reachable_library_only.
Qed.

(** No listener waits under the id that the next call will use. *)
Lemma next_serviceCallId_fresh (this : Service) r :
  reachable JSON_stringify r →
  events r !! serviceCallId this (idCounter r + 1) = None.
Proof.
  intros Hr. apply eq_None_not_Some. intros Hsome.
  destruct (reachable_names_ok r Hr _ Hsome) as [Hc | (svc & n & Heq & Hn)].
  - by apply serviceCallId_not_connection in Hc.
  - apply serviceCallId_counter in Heq. lia.
Qed.


(** *** Further properties of the connection *)

(** X7: across any calls, listeners added to ['connection'], opens and
    closes of a new connection, every message that was passed to
    [callOnConnection], by the application or by one of its listeners,
    is on the socket or waiting, once: a close loses no waiting message,
    a reopen sends none twice.  When no listener passes a message, what
    is on the socket followed by what is waiting is what the application
    called, in call order.  Nothing waits while the connection is up. *)
Theorem wire_order_across_reconnects (t : TransportLibrary)
    (actions : list Action) :
  let r := run actions (new_Ros t) in
  socket r ++ sends (queued r) ≡ₚ frame_of (uses_socket_io t) <$> passed r
  ∧ (listened actions ≠ []
     ∨ (socket r ++ sends (queued r) = on_wire t <$> calls actions
        ∧ passed r = JSON_stringify <$> calls actions))
  ∧ (isConnected r = false ∨ sends (queued r) = []).
Proof.
  destruct (run_wire_order t actions) as (Hperm & Horder & Hq & _).
  cbv zeta in *. split; [exact Hperm |]. split.
  - destruct (listened actions) as [|m ms]; [right; by apply Horder | by left].
  - destruct (isConnected (run actions (new_Ros t)));
      [right; by apply Hq | by left].
Qed.

Lemma callOnConnection_idCounter message r :
  idCounter (callOnConnection message r) = idCounter r.
Proof. apply callOnConnection_json_fields. Qed.

Lemma emit_idCounter (type : string) arg r :
  idCounter (emit type arg r) = idCounter r.
Proof.
  unfold emit. destruct (events r !! type); [| done].
  by rewrite run_listeners_idCounter.
Qed.

Lemma callService_idCounter (this : Service) (request : Payload)
    (callback failedCallback : Callback) r :
  idCounter (Ros.callService JSON_stringify this request callback
                             failedCallback r)
  = if isAdvertised this then idCounter r else (idCounter r + 1)%N.
Proof.
  unfold Ros.callService. destruct (isAdvertised this); [done |].
  rewrite callOnConnection_idCounter.
  by destruct (truthy callback || truthy failedCallback).
Qed.

(** The counter never goes back. *)
Lemma happen_all_idCounter (hs : list (Happening Payload)) r :
  (idCounter r ≤ idCounter (happen_all JSON_stringify hs r))%N.
Proof.
  revert r. induction hs as [|h hs IH]; intros r; simpl; [done |].
  etrans; [| apply IH].
  destruct h as [message | this request cb fcb | | | m]; simpl.
  - by rewrite callOnConnection_idCounter.
  - rewrite callService_idCounter. destruct (isAdvertised this); lia.
  - unfold onopen. by rewrite emit_idCounter.
  - unfold onclose. by rewrite emit_idCounter.
  - unfold onmessage. by rewrite emit_idCounter.
Qed.

(** X8: the id of a service call is not used again while the counter
    is below 2^53, where [++] on a JavaScript number adds one: whatever
    happens to the connection after a call, the id that a later call
    would get, on this or another service, differs from it. *)
Theorem call_ids_never_repeat (this1 this2 : Service) (request : Payload)
    (callback failedCallback : Callback) r (hs : list (Happening Payload)) :
  isAdvertised this1 = false →
  let r1 := Ros.callService JSON_stringify this1 request callback
                            failedCallback r in
  let r2 := happen_all JSON_stringify hs r1 in
  (idCounter r2 < 2 ^ 53)%N →
  serviceCallId this2 (idCounter r2 + 1) ≠ serviceCallId this1 (idCounter r + 1).
Proof.
  intros Hadv r1 r2 _ Heq. apply serviceCallId_counter in Heq.
  pose proof (happen_all_idCounter hs r1) as Hmono. fold r2 in Hmono.
  unfold r1 in Hmono at 1. rewrite callService_idCounter, Hadv in Hmono. lia.
Qed.

Lemma serviceCallId_not_close (this : Service) (n : N) :
  serviceCallId this n ≠ "close".
Proof. unfold serviceCallId. simpl. discriminate. Qed.

Lemma callOnConnection_other_name message (key : string) r :
  key ≠ "connection" →
  events (callOnConnection message r) !! key = events r !! key.
Proof.
  intros Hne. unfold Ros.callOnConnection, callOnConnection_json. simpl.
  destruct (isConnected r); simpl; [done |].
  by rewrite lookup_insert_ne.
Qed.

(** A happening that is not the answer leaves the listener of a call
    made from an earlier counter value in place. *)
Lemma happen_keeps_listener (this : Service) (n : N)
    (h : Happening Payload) (ls : list Listener) r :
  library_listeners_only r →
  (n ≤ idCounter r)%N →
  ¬ answers (serviceCallId this n) h →
  events r !! serviceCallId this n = Some ls →
  events (happen JSON_stringify r h) !! serviceCallId this n = Some ls.
Proof.
  intros Hlib Hn Hh Hreg.
  destruct h as [message | this' request cb fcb | | | m]; simpl.
  - rewrite callOnConnection_other_name; [done |].
    apply serviceCallId_not_connection.
  - unfold Ros.callService. destruct (isAdvertised this'); [done |].
    rewrite callOnConnection_other_name
      by apply serviceCallId_not_connection.
    destruct (truthy cb || truthy fcb); simpl; [| done].
    rewrite lookup_insert_ne; [done |].
    intros Heq. apply serviceCallId_counter in Heq. lia.
  - unfold onopen. rewrite emit_other_name; [done | done |].
    intros Heq. by apply (serviceCallId_not_connection this n).
  - unfold onclose. rewrite emit_other_name; [done | done |].
    intros Heq. by apply (serviceCallId_not_close this n).
  - unfold onmessage. rewrite emit_other_name; [done | done |].
    intros Heq. by apply Hh.
Qed.

(** X9: the listener of a service call stays registered until the
    response with its id arrives: further calls, other responses, and
    the transport closing and opening again all leave it in place. *)
Theorem pending_call_survives (this : Service) (request : Payload)
    (cb : string) (failedCallback : Callback) r
    (hs : list (Happening Payload)) :
  reachable JSON_stringify r →
  isAdvertised this = false →
  let sid := serviceCallId this (idCounter r + 1) in
  Forall (λ h, ¬ answers sid h) hs →
  let r1 := Ros.callService JSON_stringify this request (Some cb)
                            failedCallback r in
  events (happen_all JSON_stringify hs r1) !! sid
  = Some [service_reply (Some cb) failedCallback].
Proof.
  intros Hr Hadv sid Hhs r1.
  assert (events r1 !! sid = Some [service_reply (Some cb) failedCallback])
    as Hreg.
  { apply callService_registers; [done |].
    by apply next_serviceCallId_fresh. }
  assert (idCounter r + 1 ≤ idCounter r1)%N as Hn.
  { unfold r1. rewrite callService_idCounter, Hadv. lia. }
  assert (library_listeners_only r1) as Hlib.
  { by apply callService_library_only, reachable_library_only. }
  clearbody r1. revert r1 Hreg Hn Hlib.
  induction Hhs as [|h hs Hh _ IH]; intros r1 Hreg Hn Hlib; simpl; [done |].
  apply IH.
  - by apply happen_keeps_listener.
  - etrans; [exact Hn |]. apply (happen_all_idCounter [h]).
  - by apply happen_library_only.
Qed.

Lemma emit_isConnected (type : string) arg r :
  isConnected (emit type arg r) = isConnected r.
Proof.
  unfold emit. destruct (events r !! type); [| done].
  by rewrite run_listeners_isConnected.
Qed.

Lemma callOnConnection_isConnected message r :
  isConnected (callOnConnection message r) = isConnected r.
Proof. apply callOnConnection_json_fields. Qed.

(** Nothing is queued on a connection that is up. *)
Lemma reachable_connected_queue_empty r :
  reachable JSON_stringify r → isConnected r = true →
  events r !! "connection" = None.
Proof.
  induction 1 as [t | message r _ IH | this request cb fcb r _ IH
                 | r Hr IH | r Hr IH | m r Hr IH].
  - done.
  - rewrite callOnConnection_isConnected. intros Hc.
    rewrite callOnConnection_connected by done. simpl. by apply IH.
  - unfold Ros.callService. destruct (isAdvertised this); [done |].
    rewrite callOnConnection_isConnected.
    destruct (truthy cb || truthy fcb); simpl; intros Hc;
      rewrite callOnConnection_connected by done; simpl.
    + rewrite lookup_insert_ne by apply serviceCallId_not_connection.
      by apply IH.
    + by apply IH.
  - intros _. unfold onopen.
    pose proof (reachable_library_only r Hr) as Hlib.
    destruct (events r !! "connection") as [ls|] eqn:E.
    + rewrite (emit_library "connection" _ _ ls) by (done || by apply (Hlib "connection")).
      rewrite run_listeners_events by (by apply (Hlib "connection")).
      simpl. apply lookup_delete_eq.
    + unfold emit. simpl. by rewrite E.
  - unfold onclose. by rewrite emit_isConnected.
  - unfold onmessage. rewrite emit_isConnected. intros Hc.
    pose proof (reachable_library_only r Hr) as Hlib.
    destruct (decide (response_id m = "connection")) as [-> | Hne].
    + destruct (events r !! "connection") as [ls|] eqn:E;
        [| unfold emit; by rewrite E].
      rewrite (emit_library "connection" _ _ ls) by (done || by apply (Hlib "connection")).
      rewrite run_listeners_events by (by apply (Hlib "connection")).
      simpl. apply lookup_delete_eq.
    + rewrite emit_other_name by done. by apply IH.
Qed.

(** X10: a call made without any callback still takes an id and hands
    its operation on, but registers no listener: the response that
    carries its id finds nothing to run and changes nothing. *)
Theorem reply_without_callbacks_is_dropped (this : Service)
    (request : Payload) r (m : ServiceResponseFrame Payload) :
  reachable JSON_stringify r →
  isAdvertised this = false →
  response_id m = serviceCallId this (idCounter r + 1) →
  let r1 := Ros.callService JSON_stringify this request None None r in
  idCounter r1 = (idCounter r + 1)%N
  ∧ socket r1 ++ sends (queued r1) =
    (socket r ++ sends (queued r))
    ++ [on_wire (transportLibrary r)
          (call_service (response_id m) (name this) (serviceType this)
                        request)]
  ∧ onmessage m r1 = r1.
Proof.
  intros Hr Hadv Hm r1.
  split; [unfold r1; by rewrite callService_idCounter, Hadv |].
  unfold r1, Ros.callService. rewrite Hadv, Hm. simpl.
  set (op := call_service _ _ _ _).
  set (r' := set_idCounter _ _).
  split.
  - destruct (isConnected r) eqn:Hc.
    + rewrite callOnConnection_connected by done. simpl.
      unfold queued. simpl.
      rewrite (reachable_connected_queue_empty r) by done. simpl.
      by rewrite !app_nil_r.
    + rewrite callOnConnection_disconnected by done.
      rewrite queued_once. unfold sends. rewrite omap_app. simpl.
      by rewrite <- !app_assoc.
  - apply onmessage_unmapped. rewrite Hm.
    rewrite callOnConnection_other_name
      by apply serviceCallId_not_connection.
    simpl. by apply next_serviceCallId_fresh.
Qed.

(** C8: on a service that is advertised, [callService] returns at once:
    the connection is as before, so nothing was sent to the socket or
    queued, no listener was registered and the id counter stands. *)
Theorem callService_advertised_noop (this : Service) (request : Payload)
    (callback failedCallback : Callback) r :
  isAdvertised this = true →
  let r' := Ros.callService JSON_stringify this request callback
                            failedCallback r in
  r' = r
  ∧ socket r' = socket r
  ∧ events r' = events r
  ∧ idCounter r' = idCounter r.
Proof. intros Hadv. unfold Ros.callService. by rewrite Hadv. Qed.

End ros.





Lemma callService_advertised_noop_witness :
  let this := {| name := "/add_two_ints";
                 serviceType := "rospy_tutorials/AddTwoInts";
                 isAdvertised := true |} in
  let r : Ros string := onopen (new_Ros (library "websocket")) in
  let r' := callService show this "{a:1,b:2}" (Some "onSuccess") None r in
  isAdvertised this = true
  ∧ r' = r
  ∧ socket r' = socket r
  ∧ events r' = events r
  ∧ idCounter r' = idCounter r.
Proof.
  intros this r r'. split; [reflexivity |].
  apply (callService_advertised_noop show this "{a:1,b:2}"
           (Some "onSuccess") None r). reflexivity.
Defined.

Lemma call_ids_never_repeat_witness :
  let this1 := {| name := "/add_two_ints";
                  serviceType := "rospy_tutorials/AddTwoInts";
                  isAdvertised := false |} in
  let this2 := {| name := "/rosapi/topics"; serviceType := "rosapi/Topics";
                  isAdvertised := false |} in
  let r : Ros string := new_Ros (library "websocket") in
  let hs := [opens; closes; calls_onConnection (operation "{op:auth}");
             calls_service this2 "{}" None None; opens] in
  let r1 := callService show this1 "{a:1,b:2}" (Some "onSuccess") None r in
  let r2 := happen_all show hs r1 in
  (isAdvertised this1 = false ∧ (idCounter r2 < 2 ^ 53)%N)
  ∧ serviceCallId this2 (idCounter r2 + 1)
    ≠ serviceCallId this1 (idCounter r + 1).
Proof.
  intros this1 this2 r hs r1 r2.
  assert (isAdvertised this1 = false ∧ (idCounter r2 < 2 ^ 53)%N) as H.
  { split; [reflexivity | vm_compute; reflexivity]. }
  split; [exact H |].
  apply (call_ids_never_repeat show this1 this2 "{a:1,b:2}"
           (Some "onSuccess") None r hs); apply H.
Defined.

Lemma pending_call_survives_witness :
  let this := {| name := "/add_two_ints";
                 serviceType := "rospy_tutorials/AddTwoInts";
                 isAdvertised := false |} in
  let r : Ros string := onopen (new_Ros (library "websocket")) in
  let sid := serviceCallId this (idCounter r + 1) in
  let hs := [closes; calls_service this "{a:3,b:4}" (Some "other") None;
             opens;
             receives {| response_id := "call_service:/add_two_ints:2";
                         frame := {| values := Some "7";
                                     result := Some true |} |}] in
  let r1 := callService show this "{a:1,b:2}" (Some "onSuccess")
                        (Some "onFailure") r in
  (reachable show r
   ∧ isAdvertised this = false
   ∧ Forall (λ h, ¬ answers sid h) hs)
  ∧ events (happen_all show hs r1) !! sid
    = Some [service_reply (Some "onSuccess") (Some "onFailure")].
Proof.
  intros this r sid hs r1.
  assert (reachable show r
          ∧ isAdvertised this = false
          ∧ Forall (λ h, ¬ answers sid h) hs) as H.
  { split; [apply reachable_onopen, reachable_new |].
    split; [reflexivity |].
    repeat constructor; simpl; try tauto.
    vm_compute. discriminate. }
  split; [exact H |].
  apply (pending_call_survives show this "{a:1,b:2}" "onSuccess"
           (Some "onFailure") r hs); apply H.
Defined.

Lemma reply_without_callbacks_is_dropped_witness :
  let this := {| name := "/rosapi/set_param";
                 serviceType := "rosapi/SetParam";
                 isAdvertised := false |} in
  let r : Ros string := onopen (new_Ros (library "websocket")) in
  let m := {| response_id := "call_service:/rosapi/set_param:1";
              frame := {| values := Some "{}"; result := Some true |} |} in
  let r1 := callService show this "{name:x,value:1}" None None r in
  (reachable show r
   ∧ isAdvertised this = false
   ∧ response_id m = serviceCallId this (idCounter r + 1))
  ∧ idCounter r1 = (idCounter r + 1)%N
  ∧ socket r1 ++ sends (queued r1) =
    (socket r ++ sends (queued r))
    ++ [on_wire show (transportLibrary r)
          (call_service (response_id m) (name this) (serviceType this)
                        "{name:x,value:1}")]
  ∧ onmessage m r1 = r1.
Proof.
  intros this r m r1.
  assert (reachable show r
          ∧ isAdvertised this = false
          ∧ response_id m = serviceCallId this (idCounter r + 1)) as H.
  { split; [apply reachable_onopen, reachable_new |].
    split; [reflexivity | vm_compute; reflexivity]. }
  split; [exact H |].
  apply (reply_without_callbacks_is_dropped show this "{name:x,value:1}"
           r m); apply H.
Defined.

End RosProofs.

(** ** The TF client *)

Module TFClientProofs.
Import TFClient.

(** The delay that [setTimeout] keeps is the delay asked for when that
    is from 1 to 2147483647 ms, and 1 ms otherwise. *)
Lemma timer_delay_kept (delay : N) :
  (1 ≤ delay ≤ 2147483647)%N → timer_delay delay = delay.
Proof.
  intros [Hlo Hhi]. unfold timer_delay.
  destruct (N.ltb_spec delay 1); [lia |].
  destruct (N.ltb_spec 2147483647 delay); [lia | done].
Qed.

Lemma timer_delay_reset (delay : N) :
  (delay < 1 ∨ 2147483647 < delay)%N → timer_delay delay = 1%N.
Proof.
  intros H. unfold timer_delay.
  destruct (N.ltb_spec delay 1); [done |].
  destruct (N.ltb_spec 2147483647 delay); [done | lia].
Qed.

Section tf.
Context {Num Transform : Type}.
Implicit Types (c : TFClient Num Transform) (info : FrameInfo Transform).
Implicit Types (o : Settings Num) (callback cb : Callback).

(** *** Subscribing *)

(** C10: subscribing to a frame whose entry holds a transform calls the
    new callback with that transform and appends it to the subscribers of
    the frame; no timeout is set, no update is requested, nothing is sent
    upstream. *)
Theorem subscribe_cached_transform c (frameID : string) callback info
    (t : Transform) :
  frameInfos c !! strip_slash frameID = Some info →
  transform info = Some t →
  let c' := (subscribe frameID callback c).1 in
  called c' = called c ++ [(callback, t)]
  ∧ frameInfos c' =
    <[strip_slash frameID := {| transform := Some t;
                                cbs := cbs info ++ [callback] |}]>
      (frameInfos c)
  ∧ timeouts c' = timeouts c
  ∧ republisherUpdateRequested c' = republisherUpdateRequested c
  ∧ upstream c' = upstream c
  ∧ (subscribe frameID callback c).2 = None.
Proof.
  intros Hinfo Ht. unfold subscribe. rewrite Hinfo, Ht. simpl.
  rewrite Hinfo, Ht. done.
Qed.

(** Subscribing to a frame that has no entry and whose name is not an
    inherited one. *)
Lemma subscribe_unwatched c (frameID : string) callback :
  frameInfos c !! strip_slash frameID = None →
  inherited (strip_slash frameID) = false →
  subscribe frameID callback c =
  ({| settings := settings c; currentGoal := currentGoal c;
      frameInfos :=
        <[strip_slash frameID := {| transform := None; cbs := [callback] |}]>
          (frameInfos c);
      republisherUpdateRequested := true;
      now := now c;
      timeouts :=
        if republisherUpdateRequested c then timeouts c
        else timeouts c ++ [(now c + timer_delay (updateDelay (settings c)))%N];
      goals := goals c; upstream := upstream c; called := called c |}, None).
Proof.
  intros Hnone Hown. unfold subscribe. rewrite Hnone, Hown. simpl.
  destruct (republisherUpdateRequested c) eqn:E; simpl;
    rewrite lookup_insert_eq; unfold set_frameInfos; simpl;
    rewrite insert_insert_eq, ?E; done.
Qed.

(** Subscribing to an inherited name that has no entry raises and
    leaves the client as it was. *)
Lemma subscribe_inherited c (frameID : string) callback :
  frameInfos c !! strip_slash frameID = None →
  inherited (strip_slash frameID) = true →
  subscribe frameID callback c = (c, Some no_cbs).
Proof.
  intros Hnone Hin. unfold subscribe. rewrite Hnone, Hin. simpl.
  by rewrite Hnone.
Qed.

(** *** Unsubscribing *)

(** The loop removes every occurrence of the callback. *)
Lemma splice_matching_filter callback (l : list Callback) (n : nat) :
  n ≤ length l →
  splice_matching (Some callback) l n =
  filter (λ f, f ≠ callback) (take n l) ++ drop n l.
Proof.
  revert l. induction n as [|idx IH]; intros l Hn; simpl; [done |].
  destruct (lookup_lt_is_Some_2 l idx) as [f Hf]; [lia |].
  rewrite Hf. simpl.
  rewrite (take_S_r l idx f Hf), filter_app, filter_cons, filter_nil.
  destruct (Nat.eqb_spec f callback) as [-> | Hne].
  - rewrite decide_False by (intros H; by apply H).
    rewrite IH by (rewrite length_app, length_take, length_drop; lia).
    rewrite take_app_length', drop_app_length'
      by (rewrite length_take; lia).
    by rewrite app_nil_r.
  - rewrite decide_True by done.
    rewrite IH by lia.
    rewrite <- app_assoc. simpl.
    by rewrite <- (drop_S l f idx Hf).
Qed.

(** C5: the client subscribes one callback to a frame and unsubscribes
    it again.  The loop removes the callback from the entry; the test
    that follows reads [cbs] outside the loop that declares it and
    raises a ReferenceError, so the entry stays, with no subscriber
    left.  No timeout is set and nothing is sent upstream.  (Under an
    inherited name [subscribe] has made no entry, and none is there
    afterwards; the ReferenceError is raised all the same.) *)
Theorem unsubscribe_last_callback_keeps_entry o (frameID : string) callback :
  let c : TFClient Num Transform :=
    (subscribe frameID callback (new_TFClient o)).1 in
  let after := unsubscribe frameID (Some callback) c in
  frameInfos c !! strip_slash frameID =
    (if inherited (strip_slash frameID) then None
     else Some {| transform := None; cbs := [callback] |})
  ∧ after.2 = Some (ReferenceError "cbs")
  ∧ frameInfos after.1 !! strip_slash frameID =
    (if inherited (strip_slash frameID) then None
     else Some {| transform := None; cbs := [] |})
  ∧ timeouts after.1 = timeouts c
  ∧ upstream after.1 = upstream c.
Proof.
  intros c after. unfold after, c.
  destruct (inherited (strip_slash frameID)) eqn:Hin.
  - rewrite subscribe_inherited by (done || apply lookup_empty).
    unfold unsubscribe. simpl. rewrite lookup_empty. done.
  - rewrite subscribe_unwatched by (done || apply lookup_empty).
    unfold unsubscribe. simpl. rewrite !lookup_insert_eq. simpl.
    rewrite Nat.eqb_refl. simpl. rewrite lookup_insert_eq. done.
Qed.

(** With a callback given, [unsubscribe] always ends in that error, and
    the frames that have an entry are the same as before. *)
Lemma unsubscribe_callback_raises c (frameID : string) callback :
  (unsubscribe frameID (Some callback) c).2 = Some (ReferenceError "cbs")
  ∧ dom (frameInfos (unsubscribe frameID (Some callback) c).1)
    = dom (frameInfos c).
Proof.
  unfold unsubscribe. simpl. split; [done |].
  destruct (frameInfos c !! strip_slash frameID) as [info|] eqn:E; [| done].
  simpl. by apply dom_insert_lookup_L.
Qed.

(** Without a callback, [unsubscribe] deletes the entry. *)
Lemma unsubscribe_all_deletes c (frameID : string) :
  (unsubscribe frameID None c).2 = None
  ∧ frameInfos (unsubscribe frameID None c).1 !! strip_slash frameID = None.
Proof.
  unfold unsubscribe. simpl. split; [done |]. apply lookup_delete_eq.
Qed.

(** *** The debounced update *)

(** No pending timeout is due yet. *)
Lemma elapse_early c (ms : N) :
  Forall (λ d, (now c + ms < d)%N) (timeouts c) →
  elapse ms c = set_clock (now c + ms) (timeouts c) c.
Proof.
  intros Hlate. unfold elapse.
  assert (filter (λ d, (d ≤ now c + ms)%N) (timeouts c) = []) as ->.
  { induction Hlate as [|d ds Hd _ IH]; [done |].
    rewrite filter_cons, decide_False by lia. done. }
  assert (filter (λ d, (now c + ms < d)%N) (timeouts c) = timeouts c) as ->.
  { induction Hlate as [|d ds Hd _ IH]; [done |].
    rewrite filter_cons, decide_True by done. by f_equal. }
  done.
Qed.

(** The one pending timeout is due: [updateGoal] runs. *)
Lemma elapse_due c (ms d : N) :
  timeouts c = [d] → (d ≤ now c + ms)%N →
  elapse ms c = updateGoal (set_clock (now c + ms) [] c).
Proof.
  intros Hd Hdue. unfold elapse. rewrite Hd.
  rewrite !filter_cons, !filter_nil.
  repeat case_decide; (done || lia).
Qed.

(** The keys of a map with one more entry. *)
Lemma keys_insert (m : gmap string (FrameInfo Transform)) (k : string) info :
  m !! k = None →
  (map_to_list (<[k := info]> m)).*1 ≡ₚ k :: (map_to_list m).*1.
Proof. intros Hk. by rewrite map_to_list_insert. Qed.

(** What [updateGoal] asks for, on either interface. *)
Lemma updateGoal_requested c :
  requested_frames (updateGoal c) =
  requested_frames c ++ [(map_to_list (frameInfos c)).*1]
  ∧ frameInfos (updateGoal c) = frameInfos c
  ∧ republisherUpdateRequested (updateGoal c) = false
  ∧ timeouts (updateGoal c) = timeouts c
  ∧ now (updateGoal c) = now c
  ∧ settings (updateGoal c) = settings c.
Proof.
  unfold updateGoal, requested_frames.
  destruct (groovyCompatibility (settings c)); simpl.
  - destruct (currentGoal c); simpl; rewrite !omap_app; simpl;
      by rewrite ?app_nil_r.
  - rewrite omap_app. done.
Qed.

(** Computing with the fields of a client, leaving the calls in place. *)
Ltac tf_simpl := cbn -[elapse subscribe updateGoal timer_delay inherited].

(** Three distinct frames with ordinary names, none watched before, are
    subscribed within one debounce window: the second and third
    subscription come before the timeout set by the first is due.  When
    it is due, one request goes upstream and names those three frames.  A
    fourth frame subscribed after that sets a new timeout; when that is
    due, one more request goes upstream and names all four frames. *)
Lemma debounced_updateGoal_ordinary_names o (f1 f2 f3 f4 : string)
    (cb1 cb2 cb3 cb4 : Callback) (d1 d2 d3 d4 : N) :
  NoDup (strip_slash <$> [f1; f2; f3; f4]) →
  Forall (λ f, inherited (strip_slash f) = false) [f1; f2; f3; f4] →
  (d1 + d2 < timer_delay (updateDelay o))%N →
  (timer_delay (updateDelay o) ≤ d1 + d2 + d3)%N →
  (timer_delay (updateDelay o) ≤ d4)%N →
  let c3 : TFClient Num Transform :=
    (subscribe f3 cb3
       (elapse d2 (subscribe f2 cb2
          (elapse d1 (subscribe f1 cb1 (new_TFClient o)).1)).1)).1 in
  let c3' := elapse d3 c3 in
  let c4 := elapse d4 (subscribe f4 cb4 c3').1 in
  requested_frames c3 = []
  ∧ Forall2 (≡ₚ) (requested_frames c3') [strip_slash <$> [f1; f2; f3]]
  ∧ Forall2 (≡ₚ) (requested_frames c4)
      [strip_slash <$> [f1; f2; f3]; strip_slash <$> [f1; f2; f3; f4]].
Proof.
  intros Hnd Hown Hwin Hdue3 Hdue4. cbv zeta.
  rewrite !fmap_cons, fmap_nil in Hnd.
  apply Forall_cons in Hown as [O1 Hown]. apply Forall_cons in Hown as [O2 Hown].
  apply Forall_cons in Hown as [O3 Hown]. apply Forall_cons in Hown as [O4 _].
  set (k1 := strip_slash f1) in *. set (k2 := strip_slash f2) in *.
  set (k3 := strip_slash f3) in *. set (k4 := strip_slash f4) in *.
  assert (k1 ≠ k2 ∧ k1 ≠ k3 ∧ k1 ≠ k4 ∧ k2 ≠ k3 ∧ k2 ≠ k4 ∧ k3 ≠ k4)
    as (N12 & N13 & N14 & N23 & N24 & N34).
  { apply NoDup_cons in Hnd as [H1 Hnd]. apply NoDup_cons in Hnd as [H2 Hnd].
    apply NoDup_cons in Hnd as [H3 _].
    apply not_elem_of_cons in H1 as [? H1].
    apply not_elem_of_cons in H1 as [? H1].
    apply not_elem_of_cons in H1 as [? _].
    apply not_elem_of_cons in H2 as [? H2].
    apply not_elem_of_cons in H2 as [? _].
    apply not_elem_of_cons in H3 as [? _]. done. }
  rewrite (subscribe_unwatched (new_TFClient o)) by (done || apply lookup_empty).
  tf_simpl.
  rewrite (elapse_early _ d1) by (apply Forall_singleton; tf_simpl; lia).
  unfold set_clock; tf_simpl.
  rewrite (subscribe_unwatched _ f2 cb2)
    by (done || (tf_simpl; fold k2; by rewrite lookup_insert_ne)).
  tf_simpl. fold k2.
  rewrite (elapse_early _ d2) by (apply Forall_singleton; tf_simpl; lia).
  unfold set_clock; tf_simpl.
  rewrite (subscribe_unwatched _ f3 cb3)
    by (done || (tf_simpl; fold k3; by rewrite !lookup_insert_ne)).
  tf_simpl. fold k3.
  split; [done |].
  rewrite (elapse_due _ d3 (timer_delay (updateDelay o))) by (tf_simpl; (done || lia)).
  unfold set_clock; tf_simpl.
  set (c := {| settings := o |}).
  destruct (updateGoal_requested c) as (Hreq & Hfi & Hrur & Hto & Hnow & Hset).
  assert ((map_to_list (frameInfos c)).*1 ≡ₚ [k1; k2; k3]) as Hk3.
  { unfold c; tf_simpl.
    rewrite !keys_insert, map_to_list_empty
      by (rewrite ?lookup_insert_ne by done; apply lookup_empty).
    tf_simpl. symmetry. apply (Permutation_rev [k1; k2; k3]). }
  assert (requested_frames c = []) as Hc by done.
  split.
  { rewrite Hreq, Hc. by constructor. }
  rewrite (subscribe_unwatched _ f4 cb4)
    by (done || (fold k4; rewrite Hfi; unfold c; tf_simpl;
                 by rewrite !lookup_insert_ne)).
  tf_simpl. fold k4. rewrite Hfi, Hrur, Hto, Hnow, Hset. tf_simpl.
  rewrite (elapse_due _ d4 (d1 + d2 + d3 + timer_delay (updateDelay o))%N)
    by (unfold c; tf_simpl; (done || lia)).
  set (c' := set_clock _ _ _).
  destruct (updateGoal_requested c') as (Hreq' & _).
  rewrite Hreq'.
  change (requested_frames c') with (requested_frames (updateGoal c)).
  rewrite Hreq, Hc.
  constructor; [done |]. constructor; [| done].
  unfold c', c; tf_simpl.
  rewrite !keys_insert, map_to_list_empty
    by (rewrite ?lookup_insert_ne by done; apply lookup_empty).
  tf_simpl. symmetry. apply (Permutation_rev [k1; k2; k3; k4]).
Qed.

(** C7: three distinct frames, none watched before, are subscribed
    within one debounce window, and the name of the first is one that
    [frameInfos] inherits (['constructor'], ['toString'], ...).  The
    first subscription raises a TypeError and leaves the client as it
    was: no entry, no timeout.  The second subscription sets the timeout;
    when it is due, the one request that goes upstream names the second
    and the third frame only, not all three. *)
Theorem debounced_updateGoal_inherited_name o (f1 f2 f3 : string)
    (cb1 cb2 cb3 : Callback) (d1 d2 d3 : N) :
  NoDup (strip_slash <$> [f1; f2; f3]) →
  inherited (strip_slash f1) = true →
  inherited (strip_slash f2) = false →
  inherited (strip_slash f3) = false →
  (d2 < timer_delay (updateDelay o))%N →
  (timer_delay (updateDelay o) ≤ d2 + d3)%N →
  let c0 : TFClient Num Transform := new_TFClient o in
  let c3 :=
    (subscribe f3 cb3
       (elapse d2 (subscribe f2 cb2
          (elapse d1 (subscribe f1 cb1 c0).1)).1)).1 in
  let c3' := elapse d3 c3 in
  subscribe f1 cb1 c0 = (c0, Some no_cbs)
  ∧ requested_frames c3 = []
  ∧ Forall2 (≡ₚ) (requested_frames c3') [strip_slash <$> [f2; f3]].
Proof.
  intros Hnd I1 O2 O3 Hwin Hdue. cbv zeta.
  rewrite !fmap_cons, fmap_nil in Hnd.
  set (k2 := strip_slash f2) in *. set (k3 := strip_slash f3) in *.
  assert (k2 ≠ k3) as N23.
  { apply NoDup_cons in Hnd as [_ Hnd]. apply NoDup_cons in Hnd as [H2 _].
    apply not_elem_of_cons in H2 as [? _]. done. }
  rewrite (subscribe_inherited (new_TFClient o)) by (done || apply lookup_empty).
  split; [done |]. tf_simpl.
  rewrite (elapse_early _ d1) by constructor.
  unfold set_clock; tf_simpl.
  rewrite (subscribe_unwatched _ f2 cb2) by (done || apply lookup_empty).
  tf_simpl. fold k2.
  rewrite (elapse_early _ d2) by (apply Forall_singleton; tf_simpl; lia).
  unfold set_clock; tf_simpl.
  rewrite (subscribe_unwatched _ f3 cb3)
    by (done || (tf_simpl; fold k3; by rewrite !lookup_insert_ne)).
  tf_simpl. fold k3.
  split; [done |].
  rewrite (elapse_due _ d3 (d1 + timer_delay (updateDelay o))%N) by (tf_simpl; (done || lia)).
  unfold set_clock; tf_simpl.
  set (c := {| settings := o |}).
  destruct (updateGoal_requested c) as (Hreq & _).
  rewrite Hreq. constructor; [| done].
  unfold c; tf_simpl.
  rewrite !keys_insert, map_to_list_empty
    by (rewrite ?lookup_insert_ne by done; apply lookup_empty).
  tf_simpl. symmetry. apply (Permutation_rev [k2; k3]).
Qed.

(** *** Further properties of the TF client *)

Lemma processTFArray_cons (child : string) (t : Transform)
    (tf : list (string * Transform)) c :
  processTFArray ((child, t) :: tf) c =
  processTFArray tf
    match frameInfos c !! strip_slash child with
    | Some info =>
        foldl (λ c cb, call_back cb t c)
              (set_frameInfos
                 (<[strip_slash child :=
                      {| transform := Some t; cbs := cbs info |}]>
                    (frameInfos c)) c) (cbs info)
    | None => c
    end.
Proof. reflexivity. Qed.

Lemma call_backs_fields (l : list Callback) (t : Transform) c :
  let c' := foldl (λ c cb, call_back cb t c) c l in
  frameInfos c' = frameInfos c ∧ timeouts c' = timeouts c
  ∧ republisherUpdateRequested c' = republisherUpdateRequested c
  ∧ upstream c' = upstream c ∧ goals c' = goals c
  ∧ currentGoal c' = currentGoal c ∧ settings c' = settings c
  ∧ now c' = now c
  ∧ called c' = called c ++ ((λ cb, (cb, t)) <$> l).
Proof.
  revert c. induction l as [|cb l IH]; intros c; simpl.
  - by rewrite app_nil_r.
  - destruct (IH (call_back cb t c))
      as (-> & -> & -> & -> & -> & -> & -> & -> & ->).
    simpl. by rewrite <- app_assoc.
Qed.

Lemma processTFArray_fields (tf : list (string * Transform)) c :
  cbs <$> frameInfos (processTFArray tf c) = cbs <$> frameInfos c
  ∧ timeouts (processTFArray tf c) = timeouts c
  ∧ republisherUpdateRequested (processTFArray tf c)
    = republisherUpdateRequested c
  ∧ upstream (processTFArray tf c) = upstream c
  ∧ goals (processTFArray tf c) = goals c
  ∧ currentGoal (processTFArray tf c) = currentGoal c
  ∧ settings (processTFArray tf c) = settings c
  ∧ now (processTFArray tf c) = now c.
Proof.
  revert c. induction tf as [|[child t] tf IH]; intros c; [done |].
  rewrite processTFArray_cons.
  destruct (frameInfos c !! strip_slash child) as [info|] eqn:Hinfo; [| apply IH].
  set (c0 := set_frameInfos _ c).
  destruct (IH (foldl (λ c cb, call_back cb t c) c0 (cbs info)))
    as (-> & -> & -> & -> & -> & -> & -> & ->).
  destruct (call_backs_fields (cbs info) t c0)
    as (-> & -> & -> & -> & -> & -> & -> & -> & _).
  unfold c0. simpl. repeat split.
  rewrite fmap_insert. simpl. apply insert_id. by rewrite lookup_fmap, Hinfo.
Qed.



(** X21: on a frame that has an entry, or whose name is not an inherited
    one, [subscribe] raises nothing and appends the callback to the
    subscribers of the stripped frame id, behind those already there; it
    keeps the transform of the frame and touches no other frame. *)
Theorem subscribe_appends (frameID : string) callback c :
  inherited (strip_slash frameID) = false
  ∨ is_Some (frameInfos c !! strip_slash frameID) →
  let k := strip_slash frameID in
  let c' := (subscribe frameID callback c).1 in
  (subscribe frameID callback c).2 = None
  ∧ frameInfos c' !! k =
    Some {| transform := frameInfos c !! k ≫= transform;
            cbs := default [] (cbs <$> frameInfos c !! k) ++ [callback] |}
  ∧ delete k (frameInfos c') = delete k (frameInfos c).
Proof.
  intros Hk. cbv zeta. unfold subscribe.
  destruct (frameInfos c !! strip_slash frameID) as [info|] eqn:Hinfo; simpl.
  - destruct (transform info) eqn:Ht; simpl; rewrite Hinfo; simpl;
      rewrite lookup_insert_eq, delete_insert_eq, ?Ht; done.
  - destruct Hk as [Hk | [? Hk]]; [| done]. rewrite Hk.
    destruct (republisherUpdateRequested c); simpl;
      rewrite lookup_insert_eq; simpl;
      rewrite lookup_insert_eq, !delete_insert_eq; done.
Qed.

Lemma splice_matching_none (l : list Callback) (n : nat) :
  splice_matching None l n = l.
Proof.
  revert l. induction n as [|idx IH]; intros l; simpl; [done |].
  destruct (l !! idx) eqn:Hidx; simpl; [apply IH |].
  rewrite IH. apply lookup_ge_None in Hidx.
  rewrite take_ge, drop_ge by lia. apply app_nil_r.
Qed.

(** X22: [unsubscribe] with a callback removes every occurrence of that
    callback from the subscribers of the frame, keeps the others in
    their order, and then raises the ReferenceError; the entry stays,
    however few subscribers are left. *)
Theorem unsubscribe_removes_every_occurrence (frameID : string) callback
    info c :
  frameInfos c !! strip_slash frameID = Some info →
  unsubscribe frameID (Some callback) c =
  (set_frameInfos
     (<[strip_slash frameID :=
          {| transform := transform info;
             cbs := filter (λ f, f ≠ callback) (cbs info) |}]>
        (frameInfos c)) c,
   Some (ReferenceError "cbs")).
Proof.
  intros Hinfo. unfold unsubscribe. rewrite Hinfo.
  rewrite splice_matching_filter by done.
  by rewrite firstn_all, drop_all, app_nil_r.
Qed.

(** X23: [unsubscribe] without a callback deletes the entry of the frame
    with all its subscribers and raises nothing.  Whether or not the
    frame was watched, no other frame changes, a pending timeout stays
    pending and nothing is sent upstream. *)
Theorem unsubscribe_without_callback (frameID : string) c :
  unsubscribe frameID None c =
  (set_frameInfos (delete (strip_slash frameID) (frameInfos c)) c, None).
Proof.
  unfold unsubscribe.
  destruct (frameInfos c !! strip_slash frameID) as [info|] eqn:Hinfo; [| done].
  rewrite splice_matching_none. unfold set_frameInfos. simpl.
  by rewrite delete_insert_eq.
Qed.

(** X24: the update that a subscription has scheduled is not called off
    when the frame is unsubscribed: when the timeout is due, a request
    goes upstream all the same, and names no frame.  (The frame has an
    ordinary name; under an inherited one the subscription raises and
    schedules nothing.) *)
Theorem update_fires_after_unsubscribe o (frameID : string) callback :
  inherited (strip_slash frameID) = false →
  let c0 : TFClient Num Transform :=
    (unsubscribe frameID None
       (subscribe frameID callback (new_TFClient o)).1).1 in
  let c := elapse (timer_delay (updateDelay o)) c0 in
  frameInfos c0 = ∅
  ∧ timeouts c0 = [timer_delay (updateDelay o)]
  ∧ requested_frames c = [[]]
  ∧ timeouts c = [].
Proof.
  intros Hown c0 c. unfold c, c0.
  rewrite subscribe_unwatched by (done || apply lookup_empty).
  rewrite unsubscribe_without_callback. tf_simpl.
  rewrite delete_insert_eq, delete_empty.
  split; [done |]. split; [done |].
  rewrite (elapse_due _ _ (timer_delay (updateDelay o)))
    by (tf_simpl; (done || lia)).
  match goal with
  | |- context [updateGoal ?c1] =>
      destruct (updateGoal_requested c1) as (Hreq & _ & _ & Hto & _)
  end.
  split; [| done].
  rewrite Hreq. tf_simpl. by rewrite map_to_list_empty.
Qed.

Lemma updateGoal_goals_in_order c :
  goals_in_order c → goals_in_order (updateGoal c).
Proof.
  unfold goals_in_order, goals_sent, goals_cancelled, updateGoal.
  intros (Hsent & Hcanc & Hcur).
  destruct (groovyCompatibility (settings c)); simpl.
  - destruct (goals c) as [|n] eqn:Hg; rewrite Hcur; simpl;
      rewrite !omap_app, Hsent, Hcanc, ?Hg; simpl; rewrite ?Hg.
    + done.
    + rewrite !app_nil_r, Nat.sub_0_r.
      split; [| split]; [| | done].
      * change (0 :: 1 :: seq 2 n) with (0 :: seq 1 (S n)).
        by rewrite (seq_S n 1).
      * change (0 :: seq 1 n) with (seq 0 (S n)). by rewrite (seq_S n 0).
  - rewrite !omap_app, Hsent, Hcanc. simpl. by rewrite !app_nil_r.
Qed.

Lemma updateGoals_goals_in_order (due : list N) c :
  goals_in_order c → goals_in_order (foldl (λ c _, updateGoal c) c due).
Proof.
  revert c. induction due as [|d due IH]; intros c Hc; simpl; [done |].
  by apply IH, updateGoal_goals_in_order.
Qed.

Lemma handle_all_goals_invariant o (inputs : list (Input Transform)) :
  let c : TFClient Num Transform := handle_all inputs (new_TFClient o) in
  update_pending c ∧ goals_in_order c.
Proof.
  induction inputs as [|i inputs IH] using rev_ind.
  { split; [by left | done]. }
  unfold handle_all in *. rewrite foldl_app. simpl.
  set (c := foldl handle _ inputs) in *. simpl in IH.
  destruct IH as [Hpending Hgoals].
  destruct i as [f cb | f cb | tf | ms]; simpl.
  - split.
    + unfold update_pending, subscribe.
      destruct (frameInfos c !! strip_slash f) as [info|] eqn:Hinfo; simpl.
      * destruct (transform info); simpl; rewrite Hinfo; simpl; exact Hpending.
      * destruct (inherited (strip_slash f));
          [rewrite Hinfo; exact Hpending |].
        destruct Hpending as [[Hr Ht] | [Hr Ht]]; rewrite Hr; simpl;
          rewrite lookup_insert_eq; simpl.
        -- right. rewrite Ht. eauto.
        -- right. by rewrite Hr.
    + unfold goals_in_order, goals_sent, goals_cancelled, subscribe.
      destruct (frameInfos c !! strip_slash f) as [info|] eqn:Hinfo; simpl.
      * destruct (transform info); simpl; rewrite Hinfo; simpl; exact Hgoals.
      * destruct (inherited (strip_slash f));
          [rewrite Hinfo; exact Hgoals |].
        destruct (republisherUpdateRequested c); simpl;
          rewrite lookup_insert_eq; simpl; exact Hgoals.
  - unfold unsubscribe.
    destruct (frameInfos c !! strip_slash f), cb; simpl; by split.
  - destruct (processTFArray_fields tf c)
      as (_ & Ht & Hr & Hu & Hg & Hcur & _).
    unfold update_pending, goals_in_order, goals_sent, goals_cancelled.
    rewrite Ht, Hr, Hu, Hg, Hcur. by split.
  - split.
    + destruct Hpending as [[Hr Ht] | [Hr [d Ht]]].
      * rewrite elapse_early by (rewrite Ht; constructor).
        left. simpl. by rewrite Hr, Ht.
      * destruct (decide (d ≤ now c + ms)%N) as [Hdue | Hlate].
        -- rewrite (elapse_due c ms d) by done.
           destruct (updateGoal_requested (set_clock (now c + ms) [] c))
             as (_ & _ & Hr' & Ht' & _).
           left. by rewrite Hr', Ht'.
        -- rewrite elapse_early
             by (rewrite Ht; apply Forall_singleton; lia).
           right. simpl. rewrite Hr, Ht. eauto.
    + unfold elapse. by apply updateGoals_goals_in_order.
Qed.

(** X25: however subscriptions, unsubscriptions, TF messages and the
    passing of time interleave, at most one update is pending: the flag
    [republisherUpdateRequested] is set exactly while one timeout is
    waiting, and no second timeout is ever set beside it. *)
Theorem one_update_pending o (inputs : list (Input Transform)) :
  let c : TFClient Num Transform := handle_all inputs (new_TFClient o) in
  (republisherUpdateRequested c = false ∧ timeouts c = [])
  ∨ (republisherUpdateRequested c = true ∧ ∃ due, timeouts c = [due]).
Proof. apply handle_all_goals_invariant. Qed.

(** X26: on the action interface no goal is left running beside the
    current one.  Along any inputs the goals sent to the republisher are
    sent in the order they were created; every goal but the last has
    been cancelled, exactly once; the last one is [currentGoal]. *)
Theorem earlier_goals_are_cancelled o (inputs : list (Input Transform)) :
  let c : TFClient Num Transform := handle_all inputs (new_TFClient o) in
  goals_sent c = seq 0 (goals c)
  ∧ goals_cancelled c = seq 0 (goals c - 1)
  ∧ currentGoal c = match goals c with O => None | S n => Some n end.
Proof. apply handle_all_goals_invariant. Qed.

End tf.

Lemma subscribe_cached_transform_witness :
  let o := {| groovyCompatibility := true; fixedFrame := "/base_link";
              angularThres := "2.0"; transThres := "0.01";
              rateSetting := "10.0"; updateDelay := 50;
              topicTimeout := {| secs := 2; nsecs := 0 |} |} in
  let c : TFClient string string :=
    processTFArray [("/turtle1", "T1")]
      (elapse 50 (subscribe "/turtle1" 1 (new_TFClient o)).1) in
  let info := {| transform := Some "T1"; cbs := [1] |} in
  let c' := (subscribe "turtle1" 2 c).1 in
  (frameInfos c !! strip_slash "turtle1" = Some info
   ∧ transform info = Some "T1")
  ∧ called c' = called c ++ [(2, "T1")]
  ∧ frameInfos c' =
    <[strip_slash "turtle1" := {| transform := Some "T1";
                                  cbs := cbs info ++ [2] |}]>
      (frameInfos c)
  ∧ timeouts c' = timeouts c
  ∧ republisherUpdateRequested c' = republisherUpdateRequested c
  ∧ upstream c' = upstream c
  ∧ (subscribe "turtle1" 2 c).2 = None.
Proof.
  intros o c info c'.
  assert (frameInfos c !! strip_slash "turtle1" = Some info
          ∧ transform info = Some "T1") as H.
  { split; [vm_compute; reflexivity | reflexivity]. }
  split; [exact H |].
  apply (subscribe_cached_transform c "turtle1" 2 info "T1"); apply H.
Defined.

Lemma debounced_updateGoal_inherited_name_witness :
  let o := {| groovyCompatibility := false; fixedFrame := "/base_link";
              angularThres := "2.0"; transThres := "0.01";
              rateSetting := "10.0"; updateDelay := 50;
              topicTimeout := {| secs := 2; nsecs := 0 |} |} in
  let c0 : TFClient string string := new_TFClient o in
  let c3 :=
    (subscribe "b" 3
       (elapse 20 (subscribe "/a" 2
          (elapse 10 (subscribe "constructor" 1 c0).1)).1)).1 in
  let c3' := elapse 30 c3 in
  (NoDup (strip_slash <$> ["constructor"; "/a"; "b"])
   ∧ inherited (strip_slash "constructor") = true
   ∧ inherited (strip_slash "/a") = false
   ∧ inherited (strip_slash "b") = false
   ∧ (20 < timer_delay (updateDelay o))%N
   ∧ (timer_delay (updateDelay o) ≤ 20 + 30)%N)
  ∧ subscribe "constructor" 1 c0 = (c0, Some no_cbs)
  ∧ requested_frames c3 = []
  ∧ Forall2 (≡ₚ) (requested_frames c3') [strip_slash <$> ["/a"; "b"]].
Proof.
  intros o c0 c3 c3'.
  assert (NoDup (strip_slash <$> ["constructor"; "/a"; "b"])
          ∧ inherited (strip_slash "constructor") = true
          ∧ inherited (strip_slash "/a") = false
          ∧ inherited (strip_slash "b") = false
          ∧ (20 < timer_delay (updateDelay o))%N
          ∧ (timer_delay (updateDelay o) ≤ 20 + 30)%N) as H.
  { split; [apply (bool_decide_unpack _); vm_compute; exact I |].
    split; [reflexivity |]. split; [reflexivity |]. split; [reflexivity |].
    vm_compute. split; [reflexivity | discriminate]. }
  split; [exact H |].
  apply (debounced_updateGoal_inherited_name o "constructor" "/a" "b"
           1 2 3 10 20 30); apply H.
Defined.


Lemma subscribe_appends_witness :
  let c : TFClient string string :=
    (subscribe "/turtle1" 1 (new_TFClient (example_settings true))).1 in
  let k := strip_slash "turtle1" in
  let c' := (subscribe "turtle1" 2 c).1 in
  (inherited (strip_slash "turtle1") = false
   ∨ is_Some (frameInfos c !! strip_slash "turtle1"))
  ∧ (subscribe "turtle1" 2 c).2 = None
  ∧ frameInfos c' !! k =
    Some {| transform := frameInfos c !! k ≫= transform;
            cbs := default [] (cbs <$> frameInfos c !! k) ++ [2] |}
  ∧ delete k (frameInfos c') = delete k (frameInfos c).
Proof.
  intros c k c'.
  assert (inherited (strip_slash "turtle1") = false
          ∨ is_Some (frameInfos c !! strip_slash "turtle1")) as H.
  { left. reflexivity. }
  split; [exact H |].
  apply (subscribe_appends "turtle1" 2 c). exact H.
Defined.

Lemma unsubscribe_removes_every_occurrence_witness :
  let c : TFClient string string :=
    (subscribe "a" 1
       (subscribe "/a" 2
          (subscribe "a" 1 (new_TFClient (example_settings false))).1).1).1 in
  let info : FrameInfo string := {| transform := None; cbs := [1; 2; 1] |} in
  frameInfos c !! strip_slash "/a" = Some info
  ∧ unsubscribe "/a" (Some 1) c =
    (set_frameInfos
       (<[strip_slash "/a" :=
            {| transform := transform info;
               cbs := filter (λ f, f ≠ 1) (cbs info) |}]>
          (frameInfos c)) c,
     Some (ReferenceError "cbs")).
Proof.
  intros c info.
  assert (frameInfos c !! strip_slash "/a" = Some info) as H.
  { vm_compute. reflexivity. }
  split; [exact H |].
  apply (unsubscribe_removes_every_occurrence "/a" 1 info c). exact H.
Defined.

Lemma update_fires_after_unsubscribe_witness :
  let o := example_settings true in
  let c0 : TFClient string string :=
    (unsubscribe "/turtle1" None
       (subscribe "/turtle1" 1 (new_TFClient o)).1).1 in
  let c := elapse (timer_delay (updateDelay o)) c0 in
  inherited (strip_slash "/turtle1") = false
  ∧ frameInfos c0 = ∅
  ∧ timeouts c0 = [timer_delay (updateDelay o)]
  ∧ requested_frames c = [[]]
  ∧ timeouts c = [].
Proof.
  intros o c0 c. split; [reflexivity |].
  apply (update_fires_after_unsubscribe o "/turtle1" 1). reflexivity.
Defined.

End TFClientProofs.

(** ** Services that are advertised *)

Module ServiceServerProofs.
Import Ros ServiceServer.

Section server.
Context {Value : Type} (JSON_stringify : Body Value → string).
Implicit Types (c : Connection Value) (o : ServiceObject Value).
Implicit Types (f g : Handler Value) (request : Request Value).

Local Abbreviation advertise := (ServiceServer.advertise JSON_stringify).
Local Abbreviation unadvertise := (ServiceServer.unadvertise JSON_stringify).
Local Abbreviation onrequest := (ServiceServer.onrequest JSON_stringify).

(** What an operation looks like on the socket of the connection. *)
Local Abbreviation wire c message :=
  (emitter (uses_socket_io (ServiceServer.transportLibrary c))
           (JSON_stringify message)).

(** The object of a service after [advertise] with [f]. *)
Local Abbreviation advertised o f :=
  {| fields := {| name := name (fields o);
                  serviceType := serviceType (fields o);
                  isAdvertised := true |};
     _serviceCallback := Some f |}.

Lemma eta c :
  {| ServiceServer.isConnected := ServiceServer.isConnected c;
     ServiceServer.transportLibrary := ServiceServer.transportLibrary c;
     listeners := listeners c; ServiceServer.socket := ServiceServer.socket c;
     services := services c |} = c.
Proof. by destruct c. Qed.

(** [advertise] on a connection that is up. *)
Lemma advertise_connected (this : nat) o f c :
  ServiceServer.isConnected c = true →
  services c !! this = Some o →
  isAdvertised (fields o) = false →
  advertise this (Some f) c =
  {| ServiceServer.isConnected := true;
     ServiceServer.transportLibrary := ServiceServer.transportLibrary c;
     listeners :=
       <[name (fields o) :=
           request_listeners (name (fields o)) c ++ [on_request this]]>
         (listeners c);
     ServiceServer.socket :=
       ServiceServer.socket c
       ++ [wire c (advertise_service (serviceType (fields o))
                                     (name (fields o)))];
     services := <[this := advertised o f]> (services c) |}.
Proof.
  intros Hc Ho Hadv. unfold ServiceServer.advertise.
  rewrite Ho, Hadv. unfold ServiceServer.callOnConnection. simpl.
  rewrite Hc. simpl. unfold set_services. simpl. by rewrite Hc.
Qed.

(** [unadvertise] on a connection that is up. *)
Lemma unadvertise_connected (this : nat) o c :
  ServiceServer.isConnected c = true →
  services c !! this = Some o →
  isAdvertised (fields o) = true →
  unadvertise this c =
  {| ServiceServer.isConnected := true;
     ServiceServer.transportLibrary := ServiceServer.transportLibrary c;
     listeners := listeners c;
     ServiceServer.socket :=
       ServiceServer.socket c
       ++ [wire c (unadvertise_service (name (fields o)))];
     services :=
       <[this := {| fields := {| name := name (fields o);
                                 serviceType := serviceType (fields o);
                                 isAdvertised := false |};
                    _serviceCallback := _serviceCallback o |}]>
         (services c) |}.
Proof.
  intros Hc Ho Hadv. unfold ServiceServer.unadvertise.
  rewrite Ho, Hadv. unfold ServiceServer.callOnConnection. simpl.
  rewrite Hc. simpl. unfold set_services. simpl. by rewrite Hc.
Qed.

(** A request emitted to [n] listeners of one service on a connection
    that is up: each sends the response that the handler gives. *)
Lemma run_request_listeners (n : nat) (this : nat) o f request c :
  ServiceServer.isConnected c = true →
  services c !! this = Some o →
  _serviceCallback o = Some f →
  run_listeners JSON_stringify (replicate n (on_request this)) request c =
  ({| ServiceServer.isConnected := true;
      ServiceServer.transportLibrary := ServiceServer.transportLibrary c;
      listeners := listeners c;
      ServiceServer.socket :=
        ServiceServer.socket c
        ++ replicate n
             (wire c (service_response (name (fields o))
                        (f (args request)).1 (f (args request)).2
                        (echoed (id request))));
      services := services c |}, None).
Proof.
  intros Hc Ho Hf. revert c Hc Ho.
  induction n as [|n IH]; intros c Hc Ho; simpl.
  - rewrite app_nil_r, <- Hc. by rewrite eta.
  - unfold ServiceServer._serviceResponse. rewrite Ho, Hf.
    destruct (f (args request)) as [response success] eqn:Hfr.
    unfold ServiceServer.callOnConnection. rewrite Hc. simpl.
    rewrite IH by done. simpl. by rewrite <- app_assoc.
Qed.

(** Emitting an event whose listeners were all added with [on]. *)
Lemma emit_request_listeners (n : nat) (this : nat) (service : string)
    request c :
  listeners c !! service = Some (replicate (S n) (on_request this)) →
  ServiceServer.emit JSON_stringify service request c =
  run_listeners JSON_stringify (replicate (S n) (on_request this)) request c.
Proof.
  intros Hl. unfold ServiceServer.emit. rewrite Hl.
  assert (List.filter added_with_on (replicate (S n) (on_request this))
          = replicate (S n) (on_request this : Registered)) as ->.
  { generalize (S n). intros k. induction k as [|k IH]; simpl; by f_equal. }
  simpl replicate at 1. cbv iota.
  rewrite insert_id by done. unfold set_listeners. by rewrite eta.
Qed.

Lemma advertise_services (this : nat) o f c :
  services c !! this = Some o →
  isAdvertised (fields o) = false →
  services (advertise this (Some f) c) = <[this := advertised o f]> (services c).
Proof.
  intros Ho Hadv. unfold ServiceServer.advertise. rewrite Ho, Hadv.
  unfold ServiceServer.callOnConnection. simpl.
  by destruct (ServiceServer.isConnected c).
Qed.

(** X11: a call in the wrong mode does nothing.  On a service that is
    not advertised, [unadvertise] changes nothing, and so does
    [advertise] with something that is not a function.  On a service
    that is advertised, a second [advertise] changes nothing: the first
    handler stays, no second operation is sent, no second listener is
    added. *)
Theorem advertise_in_wrong_mode (this : nat) o f g c :
  services c !! this = Some o →
  isAdvertised (fields o) = false →
  unadvertise this c = c
  ∧ advertise this None c = c
  ∧ advertise this (Some g) (advertise this (Some f) c)
    = advertise this (Some f) c.
Proof.
  intros Ho Hadv. split; [| split].
  - unfold ServiceServer.unadvertise. by rewrite Ho, Hadv.
  - unfold ServiceServer.advertise. by rewrite Ho.
  - set (c1 := advertise this (Some f) c).
    unfold ServiceServer.advertise at 1. fold c1.
    unfold c1 at 1. rewrite (advertise_services this o f c) by done.
    rewrite list_lookup_insert_eq by (by eapply lookup_lt_Some). done.
Qed.

(** X12: a request for an advertised service is answered with one
    [service_response]: it names the service, carries what the handler
    put into the response as [values] and what it returned as [result],
    and the id of the request unless that is absent or empty. *)
Theorem advertised_service_answers (this : nat) o f request c :
  ServiceServer.isConnected c = true →
  services c !! this = Some o →
  isAdvertised (fields o) = false →
  listeners c !! name (fields o) = None →
  let c1 := advertise this (Some f) c in
  ServiceServer.socket c1 =
    ServiceServer.socket c
    ++ [wire c (advertise_service (serviceType (fields o)) (name (fields o)))]
  ∧ onrequest (name (fields o)) request c1 =
    (ServiceServer.call_socket
       (wire c (service_response (name (fields o))
                  (f (args request)).1 (f (args request)).2
                  (echoed (id request)))) c1, None).
Proof.
  intros Hc Ho Hadv Hl c1. unfold c1.
  rewrite (advertise_connected this o f c) by done.
  split; [done |].
  unfold ServiceServer.onrequest, request_listeners. rewrite Hl. simpl.
  rewrite (emit_request_listeners 0 this) by (simpl; apply lookup_insert_eq).
  rewrite (run_request_listeners 1 this (advertised o f) f); try done.
  simpl. apply list_lookup_insert_eq. by eapply lookup_lt_Some.
Qed.

(** X13: [unadvertise] sends its operation and clears the flag, but the
    listener that [advertise] added stays: a request that arrives after
    it is still passed to the handler and answered. *)
Theorem unadvertised_service_still_answers (this : nat) o f request c :
  ServiceServer.isConnected c = true →
  services c !! this = Some o →
  isAdvertised (fields o) = false →
  listeners c !! name (fields o) = None →
  let c2 := unadvertise this (advertise this (Some f) c) in
  (isAdvertised ∘ fields) <$> services c2 !! this = Some false
  ∧ ServiceServer.socket c2 =
    ServiceServer.socket c
    ++ [wire c (advertise_service (serviceType (fields o)) (name (fields o)));
        wire c (unadvertise_service (name (fields o)))]
  ∧ onrequest (name (fields o)) request c2 =
    (ServiceServer.call_socket
       (wire c (service_response (name (fields o))
                  (f (args request)).1 (f (args request)).2
                  (echoed (id request)))) c2, None).
Proof.
  intros Hc Ho Hadv Hl c2. unfold c2.
  assert (this < length (services c)) as Hlt by (by eapply lookup_lt_Some).
  rewrite (advertise_connected this o f c) by done.
  rewrite (unadvertise_connected this (advertised o f))
    by (try done; simpl; by apply list_lookup_insert_eq).
  simpl. rewrite list_insert_insert_eq.
  split; [by rewrite list_lookup_insert_eq |].
  split; [by rewrite <- app_assoc |].
  unfold ServiceServer.onrequest, request_listeners. rewrite Hl. simpl.
  rewrite (emit_request_listeners 0 this) by (simpl; apply lookup_insert_eq).
  rewrite (run_request_listeners 1 this
             {| fields := {| name := name (fields o);
                             serviceType := serviceType (fields o);
                             isAdvertised := false |};
                _serviceCallback := Some f |} f); try done.
  simpl. by apply list_lookup_insert_eq.
Qed.

(** X14: advertising again after [unadvertise] adds a second listener
    beside the first: every request is then passed to the new handler
    twice and answered twice. *)
Theorem readvertised_service_answers_twice (this : nat) o f g request c :
  ServiceServer.isConnected c = true →
  services c !! this = Some o →
  isAdvertised (fields o) = false →
  listeners c !! name (fields o) = None →
  let c3 :=
    advertise this (Some g) (unadvertise this (advertise this (Some f) c)) in
  let response :=
    wire c (service_response (name (fields o))
              (g (args request)).1 (g (args request)).2
              (echoed (id request))) in
  request_listeners (name (fields o)) c3 = [on_request this; on_request this]
  ∧ onrequest (name (fields o)) request c3 =
    (ServiceServer.call_socket response
       (ServiceServer.call_socket response c3), None).
Proof.
  intros Hc Ho Hadv Hl c3 response. unfold c3, response.
  assert (this < length (services c)) as Hlt by (by eapply lookup_lt_Some).
  rewrite (advertise_connected this o f c) by done.
  rewrite (unadvertise_connected this (advertised o f))
    by (try done; simpl; by apply list_lookup_insert_eq).
  simpl. rewrite list_insert_insert_eq.
  erewrite advertise_connected;
    [| done | simpl; by apply list_lookup_insert_eq | done].
  unfold request_listeners. simpl.
  rewrite Hl, !lookup_insert_eq, list_insert_insert_eq, insert_insert_eq. simpl.
  split; [done |].
  unfold ServiceServer.onrequest.
  rewrite (emit_request_listeners 1 this) by (simpl; apply lookup_insert_eq).
  rewrite (run_request_listeners 2 this
             {| fields := {| name := name (fields o);
                             serviceType := serviceType (fields o);
                             isAdvertised := true |};
                _serviceCallback := Some g |} g); try done.
  - unfold ServiceServer.call_socket. simpl. by rewrite <- !app_assoc.
  - simpl. by apply list_lookup_insert_eq.
Qed.

End server.

Lemma advertise_in_wrong_mode_witness :
  let c := example_connection in
  let o := {| fields := {| name := "/add_two_ints";
                           serviceType := "rospy_tutorials/AddTwoInts";
                           isAdvertised := false |};
              _serviceCallback := None |} in
  let f : Handler string := λ _, ("{sum:3}", true) in
  let g : Handler string := λ _, ("{}", false) in
  (services c !! 0 = Some o ∧ isAdvertised (fields o) = false)
  ∧ unadvertise show 0 c = c
  ∧ advertise show 0 None c = c
  ∧ advertise show 0 (Some g) (advertise show 0 (Some f) c)
    = advertise show 0 (Some f) c.
Proof.
  intros c o f g. split; [split; reflexivity |].
  apply (advertise_in_wrong_mode show 0 o f g c); reflexivity.
Defined.

Lemma advertised_service_answers_witness :
  let c := example_connection in
  let o := {| fields := {| name := "/add_two_ints";
                           serviceType := "rospy_tutorials/AddTwoInts";
                           isAdvertised := false |};
              _serviceCallback := None |} in
  let f : Handler string := λ _, ("{sum:3}", true) in
  let request := {| args := Some "{a:1,b:2}"; id := Some "" |} in
  let c1 := advertise show 0 (Some f) c in
  (ServiceServer.isConnected c = true
   ∧ services c !! 0 = Some o
   ∧ isAdvertised (fields o) = false
   ∧ listeners c !! name (fields o) = None)
  ∧ ServiceServer.socket c1 =
    ServiceServer.socket c
    ++ [emitter (uses_socket_io (ServiceServer.transportLibrary c))
          (show (advertise_service (serviceType (fields o))
                                   (name (fields o))))]
  ∧ onrequest show (name (fields o)) request c1 =
    (ServiceServer.call_socket
       (emitter (uses_socket_io (ServiceServer.transportLibrary c))
          (show (service_response (name (fields o))
                   (f (args request)).1 (f (args request)).2
                   (echoed (id request))))) c1, None).
Proof.
  intros c o f request c1.
  assert (ServiceServer.isConnected c = true
          ∧ services c !! 0 = Some o
          ∧ isAdvertised (fields o) = false
          ∧ listeners c !! name (fields o) = None) as H.
  { repeat split; vm_compute; reflexivity. }
  split; [exact H |].
  apply (advertised_service_answers show 0 o f request c); apply H.
Defined.

Lemma unadvertised_service_still_answers_witness :
  let c := example_connection in
  let o := {| fields := {| name := "/add_two_ints";
                           serviceType := "rospy_tutorials/AddTwoInts";
                           isAdvertised := false |};
              _serviceCallback := None |} in
  let f : Handler string := λ _, ("{sum:3}", true) in
  let request := {| args := Some "{a:1,b:2}"; id := Some "call:7" |} in
  let c2 := unadvertise show 0 (advertise show 0 (Some f) c) in
  (ServiceServer.isConnected c = true
   ∧ services c !! 0 = Some o
   ∧ isAdvertised (fields o) = false
   ∧ listeners c !! name (fields o) = None)
  ∧ (isAdvertised ∘ fields) <$> services c2 !! 0 = Some false
  ∧ ServiceServer.socket c2 =
    ServiceServer.socket c
    ++ [emitter (uses_socket_io (ServiceServer.transportLibrary c))
          (show (advertise_service (serviceType (fields o))
                                   (name (fields o))));
        emitter (uses_socket_io (ServiceServer.transportLibrary c))
          (show (unadvertise_service (name (fields o))))]
  ∧ onrequest show (name (fields o)) request c2 =
    (ServiceServer.call_socket
       (emitter (uses_socket_io (ServiceServer.transportLibrary c))
          (show (service_response (name (fields o))
                   (f (args request)).1 (f (args request)).2
                   (echoed (id request))))) c2, None).
Proof.
  intros c o f request c2.
  assert (ServiceServer.isConnected c = true
          ∧ services c !! 0 = Some o
          ∧ isAdvertised (fields o) = false
          ∧ listeners c !! name (fields o) = None) as H.
  { repeat split; vm_compute; reflexivity. }
  split; [exact H |].
  apply (unadvertised_service_still_answers show 0 o f request c); apply H.
Defined.

Lemma readvertised_service_answers_twice_witness :
  let c := example_connection in
  let o := {| fields := {| name := "/add_two_ints";
                           serviceType := "rospy_tutorials/AddTwoInts";
                           isAdvertised := false |};
              _serviceCallback := None |} in
  let f : Handler string := λ _, ("{sum:3}", true) in
  let g : Handler string := λ _, ("{}", false) in
  let request := {| args := Some "{a:1,b:2}"; id := Some "call:7" |} in
  let c3 :=
    advertise show 0 (Some g)
      (unadvertise show 0 (advertise show 0 (Some f) c)) in
  let response :=
    emitter (uses_socket_io (ServiceServer.transportLibrary c))
      (show (service_response (name (fields o))
               (g (args request)).1 (g (args request)).2
               (echoed (id request)))) in
  (ServiceServer.isConnected c = true
   ∧ services c !! 0 = Some o
   ∧ isAdvertised (fields o) = false
   ∧ listeners c !! name (fields o) = None)
  ∧ request_listeners (name (fields o)) c3 = [on_request 0; on_request 0]
  ∧ onrequest show (name (fields o)) request c3 =
    (ServiceServer.call_socket response
       (ServiceServer.call_socket response c3), None).
Proof.
  intros c o f g request c3 response.
  assert (ServiceServer.isConnected c = true
          ∧ services c !! 0 = Some o
          ∧ isAdvertised (fields o) = false
          ∧ listeners c !! name (fields o) = None) as H.
  { repeat split; vm_compute; reflexivity. }
  split; [exact H |].
  apply (readvertised_service_answers_twice show 0 o f g request c); apply H.
Defined.

End ServiceServerProofs.

(** ** Decoding type definitions *)

Module TypeDefsProofs.
Import TypeDefs.

(** The loop over plain fields assigns their entries and goes on. *)
Lemma decode_plain_run rec (l : bool) (theType : TypeDef)
    (hints : list TypeDef) (es : list (string * Decoded)) (k : nat)
    (rest : list nat) (d : gmap string Decoded) (log : list string) :
  plain_from theType k es →
  decode_fields rec l theType hints (seq k (length es) ++ rest) d log =
  decode_fields rec l theType hints rest
    (foldl (λ d '(fieldName, entry), <[fieldName := entry]> d) d es) log.
Proof.
  revert k d. induction es as [|[nm e] es IH]; intros k d Hes; [done |].
  destruct (Hes 0 nm e) as (ty & a & Hn & Ht & Ha & Hs & ->); [done |].
  rewrite Nat.add_0_r in Hn, Ht, Ha.
  simpl. rewrite Hn, Ht, Ha, Hs. simpl.
  rewrite IH; [done |].
  intros i nm' e' Hi. destruct (Hes (S i) nm' e' Hi) as (ty' & a' & H).
  exists ty', a'. by rewrite Nat.add_succ_comm.
Qed.

(** The fields of a well-formed type whose field types are all plain. *)
Lemma plain_from_zip (theType : TypeDef) :
  Forall (λ t, has_slash t = false) (fieldtypes theType) →
  plain_from theType 0
    (zip (fieldnames theType)
         (zip_with plain_entry (fieldtypes theType) (fieldarraylen theType))).
Proof.
  intros Hplain i nm e Hi. simpl.
  apply lookup_zip_with_Some in Hi as (nm' & e' & [= <- <-] & Hn & He).
  apply lookup_zip_with_Some in He as (ty & a & -> & Ht & Ha).
  exists ty, a. repeat split; try done.
  by apply (Forall_lookup_1 _ _ _ _ Hplain Ht).
Qed.

Lemma zip_plain_length (names types : list string) (lens : list Z) :
  length types = length names → length lens = length names →
  length (zip names (zip_with plain_entry types lens)) = length names.
Proof. intros Ht Hl. rewrite !length_zip_with. lia. Qed.

(** A type whose fields are all plain, decoded. *)
Lemma decodeTypeDefsRec_plain (fuel : nat) (l : bool) (hints : list TypeDef)
    (theType : TypeDef) (log : list string) :
  Forall (λ t, has_slash t = false) (fieldtypes theType) →
  length (fieldtypes theType) = length (fieldnames theType) →
  length (fieldarraylen theType) = length (fieldnames theType) →
  decodeTypeDefsRec (S fuel) l hints theType log =
  Some (inl (plain_dict (fieldnames theType) (fieldtypes theType)
                        (fieldarraylen theType)), log).
Proof.
  intros Hplain Ht Hl. simpl.
  rewrite <- (zip_plain_length _ (fieldtypes theType) (fieldarraylen theType))
    by done.
  rewrite <- (app_nil_r (seq _ _)).
  rewrite decode_plain_run by (by apply plain_from_zip). done.
Qed.

(** X15: a type definition whose fields all have plain types (no [/] in
    the type name) decodes, whatever the hints are, to the dictionary
    that maps each field name to its type, or to the type in an array
    when the array length is not -1; of two fields with one name the
    later one counts.  No error is reported. *)
Theorem plain_typedef_decoded (fuel : nat) (l : bool) (theType : TypeDef)
    (others : list TypeDef) :
  Forall (λ t, has_slash t = false) (fieldtypes theType) →
  length (fieldtypes theType) = length (fieldnames theType) →
  length (fieldarraylen theType) = length (fieldnames theType) →
  decodeTypeDefs (S fuel) l (theType :: others) =
  Some (inl (plain_dict (fieldnames theType) (fieldtypes theType)
                        (fieldarraylen theType)), []).
Proof. intros. unfold decodeTypeDefs. simpl. by apply decodeTypeDefsRec_plain. Qed.

Lemma plain_from_with_field (name : string) (names types : list string)
    (lens : list Z) (fieldName fieldType : string) (arrayLen : Z) :
  Forall (λ t, has_slash t = false) types →
  plain_from (with_field name names types lens fieldName fieldType arrayLen)
    0 (zip names (zip_with plain_entry types lens)).
Proof.
  intros Hplain i nm e Hi. simpl.
  apply lookup_zip_with_Some in Hi as (nm' & e' & [= <- <-] & Hn & He).
  apply lookup_zip_with_Some in He as (ty & a & -> & Ht & Ha).
  exists ty, a. rewrite !lookup_app_l by (by eapply lookup_lt_Some).
  repeat split; try done.
  by apply (Forall_lookup_1 _ _ _ _ Hplain Ht).
Qed.

(** The loop of a type with plain fields and one more field: the plain
    fields are assigned, then the last field is looked at. *)
Lemma decode_with_field rec (l : bool) (hints : list TypeDef)
    (name : string) (names types : list string) (lens : list Z)
    (fieldName fieldType : string) (arrayLen : Z) (log : list string) :
  Forall (λ t, has_slash t = false) types →
  length types = length names → length lens = length names →
  let theType :=
    with_field name names types lens fieldName fieldType arrayLen in
  decode_fields rec l theType hints (seq 0 (length (fieldnames theType)))
                ∅ log =
  decode_fields rec l theType hints [length names]
                (plain_dict names types lens) log.
Proof.
  intros Hplain Ht Hl theType.
  change (fieldnames theType) with (names ++ [fieldName]).
  rewrite length_app, seq_app. simpl.
  rewrite <- (zip_plain_length names types lens) at 1 by done.
  unfold theType. rewrite decode_plain_run by (by apply plain_from_with_field).
  done.
Qed.

Lemma with_field_last (name : string) (names types : list string)
    (lens : list Z) (fieldName fieldType : string) (arrayLen : Z) :
  length types = length names → length lens = length names →
  let theType :=
    with_field name names types lens fieldName fieldType arrayLen in
  fieldnames theType !! length names = Some fieldName
  ∧ fieldtypes theType !! length names = Some fieldType
  ∧ fieldarraylen theType !! length names = Some arrayLen.
Proof.
  intros Ht Hl. simpl. split; [| split].
  - by apply list_lookup_middle.
  - by apply list_lookup_middle.
  - by apply list_lookup_middle.
Qed.

(** X16: a field whose type is a message type found among the hints is
    decoded through the hint.  When the field is an array, its entry is
    the decoded hint in an array; when it is no array (array length -1),
    the decoded hint is thrown away and the field is missing from the
    dictionary. *)
Theorem message_field_decoded (fuel : nat) (l : bool) (name : string)
    (names types : list string) (lens : list Z)
    (fieldName fieldType : string) (arrayLen : Z)
    (sub : TypeDef) (others : list TypeDef) :
  let theType :=
    with_field name names types lens fieldName fieldType arrayLen in
  Forall (λ t, has_slash t = false) types →
  length types = length names → length lens = length names →
  has_slash fieldType = true →
  lookup_hint fieldType (theType :: others) = Some sub →
  Forall (λ t, has_slash t = false) (fieldtypes sub) →
  length (fieldtypes sub) = length (fieldnames sub) →
  length (fieldarraylen sub) = length (fieldnames sub) →
  decodeTypeDefs (S (S fuel)) l (theType :: others) =
  Some (inl (if (arrayLen =? -1)%Z then plain_dict names types lens
             else <[fieldName :=
                      array_of (plain_dict (fieldnames sub) (fieldtypes sub)
                                           (fieldarraylen sub))]>
                    (plain_dict names types lens)), []).
Proof.
  intros theType Hplain Ht Hl Hslash Hsub Hsp Hst Hsl.
  unfold decodeTypeDefs.
  change ((theType :: others) !! 0) with (Some theType). cbv beta iota.
  change (decodeTypeDefsRec (S (S fuel)) l (theType :: others) theType [])
    with (decode_fields (decodeTypeDefsRec (S fuel) l (theType :: others))
            l theType (theType :: others)
            (seq 0 (length (fieldnames theType))) ∅ []).
  unfold theType in *. rewrite decode_with_field by done.
  destruct (with_field_last name names types lens fieldName fieldType
              arrayLen Ht Hl) as (Hn & Hty & Ha).
  cbn [decode_fields]. rewrite Hn, Hty, Ha, Hslash, Hsub.
  rewrite decodeTypeDefsRec_plain by done. simpl.
  by destruct (arrayLen =? -1)%Z.
Qed.

(** X17: a field whose type is a message type that no hint has is left
    out of the dictionary, and ['error'] is emitted with the message
    [Cannot find <type> in decodeTypeDefs].  A connection with a
    listener for ['error'] gets the dictionary of the other fields; on a
    connection without one the emit throws and nothing is returned. *)
Theorem unknown_type_reported (fuel : nat) (name : string)
    (names types : list string) (lens : list Z)
    (fieldName fieldType : string) (arrayLen : Z) (others : list TypeDef) :
  let theType :=
    with_field name names types lens fieldName fieldType arrayLen in
  Forall (λ t, has_slash t = false) types →
  length types = length names → length lens = length names →
  has_slash fieldType = true →
  lookup_hint fieldType (theType :: others) = None →
  decodeTypeDefs (S fuel) true (theType :: others) =
    Some (inl (plain_dict names types lens), [cannot_find fieldType])
  ∧ decodeTypeDefs (S fuel) false (theType :: others) =
    Some (inr (unhandled_error (cannot_find fieldType)), []).
Proof.
  intros theType Hplain Ht Hl Hslash Hsub.
  destruct (with_field_last name names types lens fieldName fieldType
              arrayLen Ht Hl) as (Hn & Hty & Ha).
  unfold decodeTypeDefs.
  change ((theType :: others) !! 0) with (Some theType). cbv beta iota.
  split.
  - change (decodeTypeDefsRec (S fuel) true (theType :: others) theType [])
      with (decode_fields (decodeTypeDefsRec fuel true (theType :: others))
              true theType (theType :: others)
              (seq 0 (length (fieldnames theType))) ∅ []).
    unfold theType in *. rewrite decode_with_field by done.
    cbn [decode_fields]. by rewrite Hn, Hty, Hslash, Hsub.
  - change (decodeTypeDefsRec (S fuel) false (theType :: others) theType [])
      with (decode_fields (decodeTypeDefsRec fuel false (theType :: others))
              false theType (theType :: others)
              (seq 0 (length (fieldnames theType))) ∅ []).
    unfold theType in *. rewrite decode_with_field by done.
    cbn [decode_fields]. by rewrite Hn, Hty, Hslash, Hsub.
Qed.

(** A type that has a field of its own type is decoded through itself. *)
Lemma decodeTypeDefsRec_self (fuel : nat) (l : bool) (name : string)
    (names types : list string) (lens : list Z) (fieldName : string)
    (arrayLen : Z) (others : list TypeDef) (log : list string) :
  let theType := with_field name names types lens fieldName name arrayLen in
  Forall (λ t, has_slash t = false) types →
  length types = length names → length lens = length names →
  has_slash name = true →
  decodeTypeDefsRec fuel l (theType :: others) theType log = None.
Proof.
  intros theType Hplain Ht Hl Hslash.
  destruct (with_field_last name names types lens fieldName name
              arrayLen Ht Hl) as (Hn & Hty & Ha).
  induction fuel as [|fuel IH]; [done |].
  change (decodeTypeDefsRec (S fuel) l (theType :: others) theType log)
    with (decode_fields (decodeTypeDefsRec fuel l (theType :: others))
            l theType (theType :: others)
            (seq 0 (length (fieldnames theType))) ∅ log).
  unfold theType in *. rewrite decode_with_field by done.
  cbn [decode_fields]. rewrite Hn, Hty, Hslash.
  unfold lookup_hint. simpl. rewrite String.eqb_refl.
  by rewrite IH.
Qed.

(** X18: a message type with a field of its own type, array or not, is
    never decoded: the recursion follows the field into the same type
    again, and no recursion depth is enough for the call to return. *)
Theorem self_reference_never_returns (fuel : nat) (l : bool) (name : string)
    (names types : list string) (lens : list Z) (fieldName : string)
    (arrayLen : Z) (others : list TypeDef) :
  Forall (λ t, has_slash t = false) types →
  length types = length names → length lens = length names →
  has_slash name = true →
  decodeTypeDefs fuel l
    (with_field name names types lens fieldName name arrayLen :: others)
  = None.
Proof.
  intros. unfold decodeTypeDefs.
  cbn [lookup list_lookup]. by apply decodeTypeDefsRec_self.
Qed.

Lemma plain_typedef_decoded_witness :
  let point := {| type := "geometry_msgs/Point";
                  fieldnames := ["x"; "y"; "covariance"];
                  fieldtypes := ["float64"; "float64"; "float64"];
                  fieldarraylen := [-1; -1; 9]%Z |} in
  (Forall (λ t, has_slash t = false) (fieldtypes point)
   ∧ length (fieldtypes point) = length (fieldnames point)
   ∧ length (fieldarraylen point) = length (fieldnames point))
  ∧ decodeTypeDefs 1 false [point] =
    Some (inl (plain_dict (fieldnames point) (fieldtypes point)
                          (fieldarraylen point)), []).
Proof.
  intros point.
  assert (Forall (λ t, has_slash t = false) (fieldtypes point)
          ∧ length (fieldtypes point) = length (fieldnames point)
          ∧ length (fieldarraylen point) = length (fieldnames point)) as H.
  { split; [repeat constructor | split; reflexivity]. }
  split; [exact H |].
  apply (plain_typedef_decoded 0 false point []); apply H.
Defined.

Lemma message_field_decoded_witness :
  let point := {| type := "geometry_msgs/Point";
                  fieldnames := ["x"; "y"; "z"];
                  fieldtypes := ["float64"; "float64"; "float64"];
                  fieldarraylen := [-1; -1; -1]%Z |} in
  let pose :=
    with_field "geometry_msgs/Pose" ["frame"] ["string"] [(-1)%Z]
               "position" "geometry_msgs/Point" (-1)%Z in
  (Forall (λ t, has_slash t = false) ["string"]
   ∧ length ["string"] = length ["frame"]
   ∧ length [(-1)%Z] = length ["frame"]
   ∧ has_slash "geometry_msgs/Point" = true
   ∧ lookup_hint "geometry_msgs/Point" [pose; point] = Some point
   ∧ Forall (λ t, has_slash t = false) (fieldtypes point)
   ∧ length (fieldtypes point) = length (fieldnames point)
   ∧ length (fieldarraylen point) = length (fieldnames point))
  ∧ decodeTypeDefs 2 false [pose; point] =
    Some (inl (if (-1 =? -1)%Z then plain_dict ["frame"] ["string"] [(-1)%Z]
               else <["position" :=
                        array_of (plain_dict (fieldnames point)
                                    (fieldtypes point)
                                    (fieldarraylen point))]>
                      (plain_dict ["frame"] ["string"] [(-1)%Z])), []).
Proof.
  intros point pose.
  assert (Forall (λ t, has_slash t = false) ["string"]
   ∧ length ["string"] = length ["frame"]
   ∧ length [(-1)%Z] = length ["frame"]
   ∧ has_slash "geometry_msgs/Point" = true
   ∧ lookup_hint "geometry_msgs/Point" [pose; point] = Some point
   ∧ Forall (λ t, has_slash t = false) (fieldtypes point)
   ∧ length (fieldtypes point) = length (fieldnames point)
   ∧ length (fieldarraylen point) = length (fieldnames point)) as H.
  { split; [repeat constructor |]. split; [reflexivity |].
    split; [reflexivity |]. split; [reflexivity |].
    split; [reflexivity |]. split; [repeat constructor |].
    split; reflexivity. }
  split; [exact H |].
  apply (message_field_decoded 0 false "geometry_msgs/Pose" ["frame"]
           ["string"] [(-1)%Z] "position" "geometry_msgs/Point" (-1)%Z
           point [point]); apply H.
Defined.

Lemma unknown_type_reported_witness :
  let pose :=
    with_field "geometry_msgs/Pose" ["frame"] ["string"] [(-1)%Z]
               "position" "geometry_msgs/Point" (-1)%Z in
  (Forall (λ t, has_slash t = false) ["string"]
   ∧ length ["string"] = length ["frame"]
   ∧ length [(-1)%Z] = length ["frame"]
   ∧ has_slash "geometry_msgs/Point" = true
   ∧ lookup_hint "geometry_msgs/Point" [pose] = None)
  ∧ decodeTypeDefs 1 true [pose] =
    Some (inl (plain_dict ["frame"] ["string"] [(-1)%Z]),
          [cannot_find "geometry_msgs/Point"])
  ∧ decodeTypeDefs 1 false [pose] =
    Some (inr (unhandled_error (cannot_find "geometry_msgs/Point")), []).
Proof.
  intros pose.
  assert (Forall (λ t, has_slash t = false) ["string"]
   ∧ length ["string"] = length ["frame"]
   ∧ length [(-1)%Z] = length ["frame"]
   ∧ has_slash "geometry_msgs/Point" = true
   ∧ lookup_hint "geometry_msgs/Point" [pose] = None) as H.
  { split; [repeat constructor |]. repeat split; reflexivity. }
  split; [exact H |].
  apply (unknown_type_reported 0 "geometry_msgs/Pose" ["frame"]
           ["string"] [(-1)%Z] "position" "geometry_msgs/Point" (-1)%Z []);
    apply H.
Defined.

Lemma self_reference_never_returns_witness :
  (Forall (λ t, has_slash t = false) ["int32"]
   ∧ length ["int32"] = length ["value"]
   ∧ length [(-1)%Z] = length ["value"]
   ∧ has_slash "my_msgs/Tree" = true)
  ∧ decodeTypeDefs 1000 true
      [with_field "my_msgs/Tree" ["value"] ["int32"] [(-1)%Z]
                  "children" "my_msgs/Tree" 0%Z]
    = None.
Proof.
  assert (Forall (λ t, has_slash t = false) ["int32"]
   ∧ length ["int32"] = length ["value"]
   ∧ length [(-1)%Z] = length ["value"]
   ∧ has_slash "my_msgs/Tree" = true) as H.
  { split; [repeat constructor |]. repeat split; reflexivity. }
  split; [exact H |].
  apply (self_reference_never_returns 1000 true "my_msgs/Tree" ["value"]
           ["int32"] [(-1)%Z] "children" 0%Z []); apply H.
Defined.

End TypeDefsProofs.

(** ** The action client and its goals *)

Module ActionClientProofs.
Import ActionClient.

Section client.
Context {Payload : Type}.
Implicit Types (c : ActionClient Payload) (g : Goal Payload).
Implicit Types (i : Input Payload).

Lemma on_goal_objects this (f : Goal Payload → Goal Payload) c :
  objects (on_goal this f c) = alter f this (objects c).
Proof.
  unfold on_goal. destruct (objects c !! this) as [g|] eqn:H; simpl.
  - apply list_eq. intros k. destruct (decide (k = this)) as [->|Hne].
    + rewrite list_lookup_insert_eq by (eapply lookup_lt_Some; exact H).
      rewrite list_lookup_alter_eq, H. reflexivity.
    + rewrite list_lookup_insert_ne by congruence.
      rewrite list_lookup_alter_ne by congruence. reflexivity.
  - symmetry. apply list_eq. intros k.
    destruct (decide (k = this)) as [->|Hne].
    + rewrite list_lookup_alter_eq, H. reflexivity.
    + rewrite list_lookup_alter_ne by congruence. reflexivity.
Qed.

Lemma on_goal_rest this (f : Goal Payload → Goal Payload) c :
  goals (on_goal this f c) = goals c
  ∧ omitFeedback (on_goal this f c) = omitFeedback c
  ∧ omitResult (on_goal this f c) = omitResult c
  ∧ published (on_goal this f c) = published c
  ∧ now (on_goal this f c) = now c
  ∧ timeouts (on_goal this f c) = timeouts c.
Proof.
  unfold on_goal. destruct (objects c !! this); simpl; auto 10.
Qed.

Lemma foldl_timeout_fires due c :
  objects (foldl (λ c p, timeout_fires p.2 c) c due)
  = fire_all due (objects c)
  ∧ goals (foldl (λ c p, timeout_fires p.2 c) c due) = goals c
  ∧ omitFeedback (foldl (λ c p, timeout_fires p.2 c) c due) = omitFeedback c
  ∧ omitResult (foldl (λ c p, timeout_fires p.2 c) c due) = omitResult c
  ∧ published (foldl (λ c p, timeout_fires p.2 c) c due) = published c
  ∧ now (foldl (λ c p, timeout_fires p.2 c) c due) = now c
  ∧ timeouts (foldl (λ c p, timeout_fires p.2 c) c due) = timeouts c.
Proof.
  revert c. induction due as [|p due IH]; intros c; simpl.
  - auto 10.
  - destruct (IH (timeout_fires p.2 c)) as (-> & -> & -> & -> & -> & -> & ->).
    unfold timeout_fires. rewrite on_goal_objects.
    destruct (on_goal_rest p.2 timeout_callback c)
      as (-> & -> & -> & -> & -> & ->).
    auto 10.
Qed.

Lemma elapse_objects ms c :
  objects (elapse ms c)
  = fire_all (filter (λ p, (p.1 ≤ now c + ms)%N) (timeouts c)) (objects c).
Proof.
  unfold elapse. cbv zeta.
  match goal with
  | |- objects (foldl _ ?c0 ?due) = _ =>
      destruct (foldl_timeout_fires due c0) as (-> & _)
  end.
  reflexivity.
Qed.

Lemma elapse_rest ms c :
  goals (elapse ms c) = goals c
  ∧ omitFeedback (elapse ms c) = omitFeedback c
  ∧ omitResult (elapse ms c) = omitResult c
  ∧ published (elapse ms c) = published c
  ∧ now (elapse ms c) = (now c + ms)%N
  ∧ timeouts (elapse ms c)
    = filter (λ p, (now c + ms < p.1)%N) (timeouts c).
Proof.
  unfold elapse. cbv zeta.
  match goal with
  | |- context [foldl _ ?c0 ?due] =>
      destruct (foldl_timeout_fires due c0)
        as (_ & -> & -> & -> & -> & -> & ->)
  end.
  simpl. auto 10.
Qed.

Lemma length_fire_all due (l : list (Goal Payload)) :
  length (fire_all due l) = length l.
Proof.
  revert l. induction due as [|p due IH]; intros l; simpl; [reflexivity|].
  unfold fire_all in *. simpl. rewrite IH, length_alter. reflexivity.
Qed.

(** A goal object is fired at once for each of the due timeouts that are
    its own. *)
Lemma lookup_fire_all due (l : list (Goal Payload)) this :
  fire_all due l !! this
  = Nat.iter (length (filter (λ p, p.2 = this) due)) timeout_callback
      <$> l !! this.
Proof.
  revert l. induction due as [|p due IH]; intros l.
  - simpl. destruct (l !! this); reflexivity.
  - unfold fire_all in *. simpl foldl. rewrite IH. rewrite filter_cons.
    destruct (decide (p.2 = this)) as [<-|Hne].
    + rewrite list_lookup_alter_eq. destruct (l !! p.2); simpl; [|reflexivity].
      f_equal. exact (eq_sym (Nat.iter_succ_r _ _ timeout_callback g)).
    + rewrite list_lookup_alter_ne by congruence. reflexivity.
Qed.

Lemma Forall_fire_all (P : Goal Payload → Prop) due l :
  (∀ g, P g → P (timeout_callback g)) → Forall P l → Forall P (fire_all due l).
Proof.
  intros HP. revert l. induction due as [|p due IH]; intros l Hl; simpl.
  - exact Hl.
  - unfold fire_all in *. simpl. apply IH. apply Forall_alter; [exact Hl|].
    intros g _. apply HP.
Qed.

(** *** What a step does to the goal objects *)

Lemma handle_evolves c i this g :
  objects c !! this = Some g →
  ∃ g', objects (handle c i) !! this = Some g' ∧ evolves c this g g'.
Proof.
  intros Hg. destruct i as [s f|s r|gid m|k t|k|ms]; simpl.
  - destruct (omitFeedback c) eqn:Ho; [exists g; split; [exact Hg|constructor]|].
    unfold feedbackListener_callback.
    destruct (goals c !! id (SimpleActionServer.status_goal_id s))
      as [k|] eqn:Hk; [|exists g; split; [exact Hg|constructor]].
    rewrite on_goal_objects. destruct (decide (k = this)) as [->|Hne].
    + rewrite list_lookup_alter_eq, Hg. eexists. split; [reflexivity|].
      apply fed_back; assumption.
    + rewrite list_lookup_alter_ne by congruence.
      exists g; split; [exact Hg|constructor].
  - destruct (omitResult c) eqn:Ho; [exists g; split; [exact Hg|constructor]|].
    unfold resultListener_callback.
    destruct (goals c !! id (SimpleActionServer.status_goal_id s))
      as [k|] eqn:Hk; [|exists g; split; [exact Hg|constructor]].
    rewrite on_goal_objects. destruct (decide (k = this)) as [->|Hne].
    + rewrite list_lookup_alter_eq, Hg. eexists. split; [reflexivity|].
      apply resulted; assumption.
    + rewrite list_lookup_alter_ne by congruence.
      exists g; split; [exact Hg|constructor].
  - exists g. split; [|constructor].
    apply lookup_app_l_Some. exact Hg.
  - exists g. split; [|constructor]. unfold send.
    destruct (objects c !! k); [|exact Hg].
    destruct t as [t|]; [|exact Hg]. destruct (t =? 0)%N; exact Hg.
  - exists g. split; [|constructor]. unfold cancel.
    destruct (objects c !! k); exact Hg.
  - rewrite elapse_objects, lookup_fire_all, Hg. eexists.
    split; [reflexivity|]. apply timed.
Qed.

(** The goal objects are never removed; a step adds at most the object
    that [new Goal] makes. *)
Lemma handle_objects c i :
  length (objects (handle c i)) = length (objects c)
  ∨ ∃ gid m, i = call_new_Goal gid m
      ∧ objects (handle c i)
        = objects c
          ++ [{| goalID := gid; goal := m; isFinished := false;
                 status := None; result := None; feedback := None;
                 emitted := [] |}].
Proof.
  destruct i as [s f|s r|gid m|k t|k|ms]; simpl.
  - left. destruct (omitFeedback c); [reflexivity|].
    unfold feedbackListener_callback.
    destruct (goals c !! _); [|reflexivity].
    rewrite on_goal_objects, length_alter. reflexivity.
  - left. destruct (omitResult c); [reflexivity|].
    unfold resultListener_callback.
    destruct (goals c !! _); [|reflexivity].
    rewrite on_goal_objects, length_alter. reflexivity.
  - right. eauto.
  - left. unfold send. destruct (objects c !! k); [|reflexivity].
    destruct t as [t|]; [|reflexivity]. destruct (t =? 0)%N; reflexivity.
  - left. unfold cancel. destruct (objects c !! k); reflexivity.
  - left. rewrite elapse_objects, length_fire_all. reflexivity.
Qed.

Lemma handle_omits c i :
  omitFeedback (handle c i) = omitFeedback c
  ∧ omitResult (handle c i) = omitResult c.
Proof.
  destruct i as [s f|s r|gid m|k t|k|ms]; simpl.
  - destruct (omitFeedback c) eqn:Ho; [auto|].
    unfold feedbackListener_callback.
    destruct (goals c !! _); [|auto].
    destruct (on_goal_rest n (λ g, emit (feedback_event f)
                                     (emit (status_event s) g)) c)
      as (_ & -> & -> & _). auto.
  - destruct (omitResult c) eqn:Ho; [auto|].
    unfold resultListener_callback.
    destruct (goals c !! _); [|auto].
    destruct (on_goal_rest n (λ g, emit (result_event r)
                                     (emit (status_event s) g)) c)
      as (_ & -> & -> & _). auto.
  - auto.
  - unfold send. destruct (objects c !! k); [|auto].
    destruct t as [t|]; [|auto]. destruct (t =? 0)%N; auto.
  - unfold cancel. destruct (objects c !! k); auto.
  - destruct (elapse_rest ms c) as (_ & -> & -> & _). auto.
Qed.

Lemma handle_all_omits inputs c :
  omitFeedback (handle_all inputs c) = omitFeedback c
  ∧ omitResult (handle_all inputs c) = omitResult c.
Proof.
  revert c. induction inputs as [|i inputs IH]; intros c; simpl; [auto|].
  destruct (IH (handle c i)) as [-> ->]. apply handle_omits.
Qed.

Lemma timeout_callback_goalID g : goalID (timeout_callback g) = goalID g.
Proof. unfold timeout_callback. destruct (isFinished g); reflexivity. Qed.

Lemma iter_timeout_callback_goalID n g :
  goalID (Nat.iter n timeout_callback g) = goalID g.
Proof.
  induction n as [|n IH]; simpl; [reflexivity|].
  rewrite timeout_callback_goalID. exact IH.
Qed.

Lemma evolves_goalID c this g g' : evolves c this g g' → goalID g' = goalID g.
Proof.
  intros [ | | | n]; try reflexivity. apply iter_timeout_callback_goalID.
Qed.

Lemma handle_goals c i :
  goals (handle c i) = goals c
  ∨ ∃ gid m, i = call_new_Goal gid m
      ∧ goals (handle c i) = <[gid := length (objects c)]> (goals c).
Proof.
  destruct i as [s f|s r|gid m|k t|k|ms]; simpl.
  - left. destruct (omitFeedback c); [reflexivity|].
    unfold feedbackListener_callback.
    destruct (goals c !! _) eqn:H; [|reflexivity].
    apply on_goal_rest.
  - left. destruct (omitResult c); [reflexivity|].
    unfold resultListener_callback.
    destruct (goals c !! _) eqn:H; [|reflexivity].
    apply on_goal_rest.
  - right. eauto.
  - left. unfold send. destruct (objects c !! k); [|reflexivity].
    destruct t as [t|]; [|reflexivity]. destruct (t =? 0)%N; reflexivity.
  - left. unfold cancel. destruct (objects c !! k); reflexivity.
  - left. apply elapse_rest.
Qed.

Lemma handle_registry_ok c i : registry_ok c → registry_ok (handle c i).
Proof.
  intros Hc gid this Hl.
  destruct (handle_goals c i) as [Heq|(gid' & m & -> & Heq)].
  - rewrite Heq in Hl. destruct (Hc _ _ Hl) as (g & Hg & Hid).
    destruct (handle_evolves c i this g Hg) as (g' & Hg' & Hev).
    exists g'. split; [exact Hg'|].
    rewrite (evolves_goalID _ _ _ _ Hev). exact Hid.
  - rewrite Heq in Hl. simpl.
    destruct (decide (gid' = gid)) as [->|Hne].
    + rewrite lookup_insert_eq in Hl. injection Hl as <-.
      eexists. split; [apply list_lookup_middle; reflexivity|reflexivity].
    + rewrite lookup_insert_ne in Hl by exact Hne.
      destruct (Hc _ _ Hl) as (g & Hg & Hid).
      exists g. split; [|exact Hid]. apply lookup_app_l_Some. exact Hg.
Qed.

Lemma handle_all_registry_ok inputs c :
  registry_ok c → registry_ok (handle_all inputs c).
Proof.
  revert c. induction inputs as [|i inputs IH]; intros c Hc; simpl;
    [exact Hc|].
  apply IH. apply handle_registry_ok. exact Hc.
Qed.

Lemma new_registry_ok f r : registry_ok (new_ActionClient (Payload := Payload) f r).
Proof. intros gid this H. simpl in H. rewrite lookup_empty in H. discriminate. Qed.

(** A property of the goal objects that the new goal has and that the
    steps of the objects keep holds of all of them at any time. *)
Lemma handle_all_Forall (P : Goal Payload → Prop) (I : ActionClient Payload → Prop) :
  (∀ gid m, P {| goalID := gid; goal := m; isFinished := false;
                 status := None; result := None; feedback := None;
                 emitted := [] |}) →
  (∀ c i, I c → I (handle c i)) →
  (∀ c this g g', I c → objects c !! this = Some g → evolves c this g g' →
                  P g → P g') →
  ∀ inputs c, I c → Forall P (objects c) →
    Forall P (objects (handle_all inputs c)).
Proof.
  intros Hnew HI Hstep inputs.
  induction inputs as [|i inputs IH]; intros c Hc Hall; simpl; [exact Hall|].
  apply IH; [apply HI; exact Hc|].
  apply Forall_lookup. intros this g' Hg'.
  destruct (objects c !! this) as [g|] eqn:Hg.
  - destruct (handle_evolves c i this g Hg) as (g'' & Hg'' & Hev).
    rewrite Hg' in Hg''. injection Hg'' as <-.
    eapply Hstep; [exact Hc|exact Hg|exact Hev|].
    eapply Forall_lookup_1; [exact Hall|exact Hg].
  - apply lookup_ge_None in Hg.
    destruct (handle_objects c i) as [Hlen|(gid & m & -> & Heq)].
    + apply lookup_lt_Some in Hg'. lia.
    + rewrite Heq in Hg'. apply lookup_app_Some in Hg'.
      destruct Hg' as [Hg'|[_ Hg']]; [apply lookup_lt_Some in Hg'; lia|].
      apply list_lookup_singleton_Some in Hg'. destruct Hg' as [_ <-].
      apply Hnew.
Qed.

Lemma iter_timeout_callback_finished n g :
  isFinished g = true → Nat.iter n timeout_callback g = g.
Proof.
  intros Hg. induction n as [|n IH]; simpl; [reflexivity|].
  rewrite IH. unfold timeout_callback. rewrite Hg. reflexivity.
Qed.

Lemma evolves_finished c this g g' :
  evolves c this g g' → isFinished g = true →
  isFinished g' = true ∧ timed_out g' = timed_out g.
Proof.
  intros [ |s f _ _|s r _ _|n] Hg.
  - auto.
  - split; [exact Hg|]. unfold timed_out. simpl. rewrite !omap_app. simpl.
    rewrite !app_nil_r. reflexivity.
  - split; [reflexivity|]. unfold timed_out. simpl. rewrite !omap_app. simpl.
    rewrite !app_nil_r. reflexivity.
  - rewrite iter_timeout_callback_finished by exact Hg. auto.
Qed.

(** X27: on a client made with [omitStatus], once a goal has emitted its
    result it stays finished, whatever reaches the client afterwards
    (further feedback and results, new goals, sends, cancels, time
    passing): the goal object is kept under its id, and none of the
    timeouts that were given to [send] makes it emit [timeout] any
    more. *)
Theorem finished_goal_never_times_out
    (inputs : list (Input Payload)) c this g :
  objects c !! this = Some g → isFinished g = true →
  ∃ g', objects (handle_all inputs c) !! this = Some g'
        ∧ isFinished g' = true ∧ goalID g' = goalID g
        ∧ timed_out g' = timed_out g.
Proof.
  revert c g. induction inputs as [|i inputs IH]; intros c g Hg Hfin; simpl.
  - exists g. auto.
  - destruct (handle_evolves c i this g Hg) as (g1 & Hg1 & Hev).
    destruct (evolves_finished _ _ _ _ Hev Hfin) as [Hfin1 Hto1].
    destruct (IH _ _ Hg1 Hfin1) as (g' & Hg' & Hfin' & Hid' & Hto').
    exists g'. split; [exact Hg'|]. split; [exact Hfin'|].
    split; [|congruence].
    rewrite Hid'. eapply evolves_goalID. exact Hev.
Qed.

Lemma setTimeout_Permutation due this pending :
  setTimeout due this pending ≡ₚ (due, this) :: pending.
Proof.
  induction pending as [|[d k] pending IH]; simpl; [reflexivity|].
  destruct (d <=? due)%N; [|reflexivity].
  rewrite IH. apply perm_swap.
Qed.

Lemma handle_timeouts_ok c i : timeouts_ok c → timeouts_ok (handle c i).
Proof.
  unfold timeouts_ok. intros Hc.
  destruct i as [s f|s r|gid m|k t|k|ms]; simpl.
  - destruct (omitFeedback c); [exact Hc|].
    unfold feedbackListener_callback.
    destruct (goals c !! _); [|exact Hc].
    rewrite on_goal_objects, length_alter.
    destruct (on_goal_rest n (λ g, emit (feedback_event f)
                                     (emit (status_event s) g)) c)
      as (_ & _ & _ & _ & _ & ->).
    exact Hc.
  - destruct (omitResult c); [exact Hc|].
    unfold resultListener_callback.
    destruct (goals c !! _); [|exact Hc].
    rewrite on_goal_objects, length_alter.
    destruct (on_goal_rest n (λ g, emit (result_event r)
                                     (emit (status_event s) g)) c)
      as (_ & _ & _ & _ & _ & ->).
    exact Hc.
  - rewrite length_app. simpl. eapply Forall_impl; [exact Hc|].
    simpl. intros p Hp. lia.
  - unfold send. destruct (objects c !! k) as [g|] eqn:Hk; [|exact Hc].
    destruct t as [t|]; [|exact Hc]. destruct (t =? 0)%N; [exact Hc|].
    simpl. rewrite setTimeout_Permutation. constructor; [|exact Hc].
    simpl. eapply lookup_lt_Some. exact Hk.
  - unfold cancel. destruct (objects c !! k); exact Hc.
  - rewrite elapse_objects, length_fire_all.
    destruct (elapse_rest ms c) as (_ & _ & _ & _ & _ & ->).
    rewrite Forall_forall in *. intros p Hin.
    apply list_elem_of_filter in Hin. apply Hc, Hin.
Qed.

Lemma handle_all_timeouts_ok inputs c :
  timeouts_ok c → timeouts_ok (handle_all inputs c).
Proof.
  revert c. induction inputs as [|i inputs IH]; intros c Hc; simpl;
    [exact Hc|].
  apply IH. apply handle_timeouts_ok. exact Hc.
Qed.

(** The timeouts of a goal that was just made and sent: its own, if it
    is due. *)
Lemma own_timeouts (c : ActionClient Payload) due t :
  timeouts_ok c →
  length (filter (λ p : N * nat, p.2 = length (objects c))
            (filter (λ p : N * nat, (p.1 ≤ t)%N)
               (setTimeout due (length (objects c)) (timeouts c))))
  = if (due <=? t)%N then 1 else 0.
Proof.
  intros Hc. rewrite setTimeout_Permutation. rewrite filter_cons. simpl.
  assert (filter (λ p : N * nat, p.2 = length (objects c))
            (filter (λ p : N * nat, (p.1 ≤ t)%N) (timeouts c)) = []) as Hnone.
  { destruct (filter _ (filter _ (timeouts c))) as [|p l] eqn:Heq;
      [reflexivity|].
    assert (p ∈ p :: l) as Hin by left. rewrite <- Heq in Hin.
    apply list_elem_of_filter in Hin. destruct Hin as [Hp Hin].
    apply list_elem_of_filter in Hin. destruct Hin as [_ Hin].
    unfold timeouts_ok in Hc. rewrite Forall_forall in Hc.
    specialize (Hc p Hin). lia. }
  destruct (N.leb_spec due t) as [Hle|Hgt].
  - rewrite decide_True by exact Hle. rewrite filter_cons. simpl.
    rewrite decide_True by reflexivity. simpl. rewrite Hnone. reflexivity.
  - rewrite decide_False by lia. rewrite Hnone. reflexivity.
Qed.

(** X28: on a client made with [omitStatus] and listening to results, a
    goal that is made and sent with a timeout emits [timeout], once, when
    the delay that [setTimeout] keeps of it has passed without its
    result; before that it emits nothing.  When its result arrives
    before the delay has passed, it emits the status and the result of
    the message and, however long the client waits afterwards, no
    [timeout]. *)
Theorem goal_times_out_unless_result
    (inputs : list (Input Payload)) (omitFeedback : bool)
    (goalID : string) (goalMessage : Payload) (timeout : positive)
    (ms before after : N) (stamp : Time) (status : Z) (result : Payload) :
  (before < timer_delay (N.pos timeout))%N →
  let c := handle_all inputs (new_ActionClient omitFeedback false) in
  let this := (new_Goal goalID goalMessage c).1 in
  let sent := send this (Some (N.pos timeout)) (new_Goal goalID goalMessage c).2 in
  let s := {| SimpleActionServer.status_goal_id :=
                {| stamp := stamp; id := goalID |};
              SimpleActionServer.status := status |} in
  emitted <$> objects (elapse ms sent) !! this
  = Some (if (timer_delay (N.pos timeout) <=? ms)%N then [timeout_event]
          else [])
  ∧ emitted <$> objects (elapse after
                           (handle (elapse before sent)
                                   (result_message s result))) !! this
    = Some [status_event s; result_event result].
Proof.
  intros Hbefore c this sent s.
  assert (timeouts_ok c) as Hto.
  { apply handle_all_timeouts_ok. constructor. }
  assert (omitResult c = false) as Hom.
  { unfold c. destruct (handle_all_omits inputs
      (new_ActionClient (Payload := Payload) omitFeedback false)) as [_ ->].
    reflexivity. }
  set (fresh := {| ActionClient.goalID := goalID; goal := goalMessage;
                   isFinished := false; ActionClient.status := None;
                   ActionClient.result := None; feedback := None;
                   emitted := [] |}).
  assert (this = length (objects c)) as Hthis by reflexivity.
  assert (objects (new_Goal goalID goalMessage c).2 !! this = Some fresh)
    as Hfresh.
  { simpl. apply list_lookup_middle. reflexivity. }
  assert (sent
          = set_clock (now c)
              (setTimeout (now c + timer_delay (N.pos timeout)) this
                          (timeouts c))
              (publish (goal_message {| stamp := {| secs := 0; nsecs := 0 |};
                                        id := goalID |} goalMessage)
                 (new_Goal goalID goalMessage c).2)) as Hsent.
  { unfold sent, send. rewrite Hfresh. reflexivity. }
  assert (∀ a b d : N, (a + b <=? a + d)%N = (b <=? d)%N) as Hleb.
  { intros a b d.
    destruct (N.leb_spec b d), (N.leb_spec (a + b) (a + d));
      first [reflexivity | exfalso; lia]. }
  assert (∀ t, objects (elapse t sent) !! this
               = Nat.iter (if (timer_delay (N.pos timeout) <=? t)%N
                           then 1 else 0) timeout_callback <$> Some fresh)
    as Helapse.
  { intros t. rewrite elapse_objects, lookup_fire_all.
    rewrite Hsent. simpl objects. simpl timeouts. simpl now.
    replace ((objects c ++ [fresh]) !! this) with (Some fresh)
      by (symmetry; apply list_lookup_middle; reflexivity).
    rewrite Hthis, own_timeouts by exact Hto.
    rewrite Hleb. reflexivity. }
  split.
  - rewrite Helapse.
    destruct (timer_delay (N.pos timeout) <=? ms)%N; reflexivity.
  - simpl handle.
    destruct (elapse_rest before sent) as (Hgoals & _ & Homit & _).
    rewrite Homit.
    assert (omitResult sent = false) as ->.
    { rewrite Hsent. exact Hom. }
    unfold resultListener_callback. rewrite Hgoals.
    assert (goals sent !! goalID = Some this) as Hreg.
    { rewrite Hsent. simpl. apply lookup_insert_eq. }
    simpl id. rewrite Hreg.
    rewrite elapse_objects, lookup_fire_all, on_goal_objects.
    rewrite list_lookup_alter_eq, Helapse.
    assert ((timer_delay (N.pos timeout) <=? before)%N = false) as ->.
    { destruct (N.leb_spec (timer_delay (N.pos timeout)) before);
        [exfalso; lia | reflexivity]. }
    simpl fmap. rewrite iter_timeout_callback_finished by reflexivity.
    reflexivity.
Qed.

Lemma iter_timeout_callback_unfinished n g :
  isFinished g = false →
  Nat.iter n timeout_callback g
  = {| goalID := goalID g; goal := goal g; isFinished := false;
       status := status g; result := result g; feedback := feedback g;
       emitted := emitted g ++ replicate n timeout_event |}.
Proof.
  intros Hg. induction n as [|n IH].
  - simpl. rewrite app_nil_r. destruct g. simpl in *. congruence.
  - simpl Nat.iter. rewrite IH. unfold timeout_callback. simpl.
    rewrite <- app_assoc, <- replicate_cons_app. reflexivity.
Qed.

Lemma omap_replicate_timeout {B} (f : GoalEvent Payload → option B) n :
  f timeout_event = None → omap f (replicate n timeout_event) = [].
Proof.
  intros Hf. induction n as [|n IH]; simpl; [reflexivity|].
  rewrite Hf. exact IH.
Qed.

(** X29: a client that omits the status and the result topic never
    finishes a goal: whatever reaches it, every goal stays unfinished,
    without a result, and has never emitted one. *)
Theorem no_result_topic_no_finished_goal
    (inputs : list (Input Payload)) (omitFeedback : bool) :
  Forall (λ g, isFinished g = false ∧ result g = None ∧ results g = [])
         (objects (handle_all inputs (new_ActionClient omitFeedback true))).
Proof.
  apply (handle_all_Forall _ (λ c, omitResult c = true)).
  - intros gid m. auto.
  - intros c i Hc. destruct (handle_omits c i) as [_ ->]. exact Hc.
  - intros c this g g' Hc _ Hev (Hfin & Hres & Hnone).
    destruct Hev as [ |s f _ _|s r Hom _|n].
    + auto.
    + split; [exact Hfin|]. split; [exact Hres|].
      unfold results in *. simpl. rewrite !omap_app, Hnone. reflexivity.
    + congruence.
    + rewrite iter_timeout_callback_unfinished by exact Hfin. simpl.
      split; [reflexivity|]. split; [exact Hres|].
      unfold results in *. simpl. rewrite omap_app, Hnone.
      apply omap_replicate_timeout. reflexivity.
  - reflexivity.
  - constructor.
Qed.

Lemma timeout_callback_mirrors g :
  mirrors_events g → mirrors_events (timeout_callback g).
Proof.
  unfold timeout_callback. destruct (isFinished g) eqn:Hfin; [auto|].
  unfold mirrors_events, statuses, feedbacks, results. simpl.
  rewrite !omap_app. simpl. rewrite !app_nil_r. rewrite Hfin. auto.
Qed.

Lemma iter_timeout_callback_mirrors n g :
  mirrors_events g → mirrors_events (Nat.iter n timeout_callback g).
Proof.
  intros Hg. induction n as [|n IH]; simpl; [exact Hg|].
  apply timeout_callback_mirrors. exact IH.
Qed.

(** X30: at any time the fields of every goal of a client made with
    [omitStatus] agree with what the goal emitted: [status], [feedback]
    and [result] hold the latest status, feedback and result that it
    emitted (and are absent before the first), the goal is finished
    exactly when it has emitted a result, and every status that it
    emitted bears its own id. *)
Theorem goal_fields_mirror_events
    (inputs : list (Input Payload)) (omitFeedback omitResult : bool) :
  Forall mirrors_events
    (objects (handle_all inputs (new_ActionClient omitFeedback omitResult))).
Proof.
  apply (handle_all_Forall _ registry_ok).
  - intros gid m. unfold mirrors_events, statuses. simpl. auto 10.
  - apply handle_registry_ok.
  - intros c this g g' Hc Hg Hev (Hst & Hfb & Hres & Hfin & Hids).
    destruct Hev as [ |s f _ Hreg|s r _ Hreg|n].
    + unfold mirrors_events. auto 10.
    + destruct (Hc _ _ Hreg) as (g0 & Hg0 & Hid).
      rewrite Hg in Hg0. injection Hg0 as <-.
      unfold mirrors_events, statuses, feedbacks, results in *. simpl.
      rewrite !omap_app. simpl. rewrite !app_nil_r, !last_snoc.
      split; [reflexivity|]. split; [reflexivity|]. split; [exact Hres|].
      split; [exact Hfin|].
      apply Forall_app. split; [exact Hids|]. constructor; [symmetry; exact Hid|constructor].
    + destruct (Hc _ _ Hreg) as (g0 & Hg0 & Hid).
      rewrite Hg in Hg0. injection Hg0 as <-.
      unfold mirrors_events, statuses, feedbacks, results in *. simpl.
      rewrite !omap_app. simpl. rewrite !app_nil_r, !last_snoc.
      split; [reflexivity|]. split; [exact Hfb|]. split; [reflexivity|].
      split.
      { symmetry. apply bool_decide_eq_true. intros Habs.
        apply app_eq_nil in Habs. destruct Habs as [_ Habs]. discriminate. }
      apply Forall_app. split; [exact Hids|]. constructor; [symmetry; exact Hid|constructor].
    + apply iter_timeout_callback_mirrors. unfold mirrors_events. auto 10.
  - apply new_registry_ok.
  - constructor.
Qed.

End client.

Lemma finished_goal_never_times_out_witness :
  let s := {| SimpleActionServer.status_goal_id :=
                {| stamp := {| secs := 0; nsecs := 0 |};
                   id := "goal_0.5_1700000000000" |};
              SimpleActionServer.status := 3 |} in
  let c : ActionClient string :=
    handle_all [call_new_Goal "goal_0.5_1700000000000" "{order:5}";
                call_send 0 (Some 1000%N);
                result_message s "{sequence:[0,1,1,2,3,5]}"]
               (new_ActionClient false false) in
  let g := {| goalID := "goal_0.5_1700000000000"; goal := "{order:5}";
              isFinished := true; status := Some s;
              result := Some "{sequence:[0,1,1,2,3,5]}"; feedback := None;
              emitted := [status_event s;
                          result_event "{sequence:[0,1,1,2,3,5]}"] |} in
  let inputs := [time_passes 2000%N;
                 feedback_message s "{sequence:[0,1,1]}"] in
  (objects c !! 0 = Some g ∧ isFinished g = true)
  ∧ ∃ g', objects (handle_all inputs c) !! 0 = Some g'
          ∧ isFinished g' = true ∧ goalID g' = goalID g
          ∧ timed_out g' = timed_out g.
Proof.
  intros s c g inputs.
  assert (objects c !! 0 = Some g ∧ isFinished g = true) as H.
  { split; [vm_compute; reflexivity | reflexivity]. }
  split; [exact H |].
  apply (finished_goal_never_times_out inputs c 0 g); apply H.
Defined.

Lemma goal_times_out_unless_result_witness :
  let inputs : list (Input string) :=
    [call_new_Goal "goal_0.1_1700000000000" "{order:1}"; call_send 0 None] in
  let c := handle_all inputs (new_ActionClient false false) in
  let this := (new_Goal "goal_0.5_1700000000001" "{order:5}" c).1 in
  let sent :=
    send this (Some 1000%N)
         (new_Goal "goal_0.5_1700000000001" "{order:5}" c).2 in
  let s := {| SimpleActionServer.status_goal_id :=
                {| stamp := {| secs := 0; nsecs := 0 |};
                   id := "goal_0.5_1700000000001" |};
              SimpleActionServer.status := 3 |} in
  (400 < timer_delay 1000)%N
  ∧ emitted <$> objects (elapse 1000 sent) !! this
    = Some (if (timer_delay 1000 <=? 1000)%N then [timeout_event] else [])
  ∧ emitted <$> objects (elapse 5000
                           (handle (elapse 400 sent)
                                   (result_message s "{sequence:[0,1,1]}")))
                !! this
    = Some [status_event s; result_event "{sequence:[0,1,1]}"].
Proof.
  intros inputs c this sent s.
  assert (400 < timer_delay 1000)%N as H by (vm_compute; reflexivity).
  split; [exact H |].
  apply (goal_times_out_unless_result inputs false "goal_0.5_1700000000001"
           "{order:5}" 1000%positive 1000 400 5000
           {| secs := 0; nsecs := 0 |} 3 "{sequence:[0,1,1]}"). exact H.
Defined.

End ActionClientProofs.
